(** * A binary CSP solver (AC-3 + backtracking), embedded from [Assignment.py]

    The development follows the Python class [CSP]:
    - Python dictionaries are insertion-ordered, so they are association
      lists with in-place update ([dget], [dset]);
    - functions that mutate their argument are state transformers over the
      mutated object; exceptions ([KeyError], [IndexError]) are results;
    - the two [while]/recursive loops carry a fuel argument, and the entry
      points compute a fuel that is shown never to run out. *)

From stdpp Require Import base list strings pretty.
From Stdlib Require Import Lia.


(** ** Exceptions, results and the state monad of the embedding *)

Inductive exn : Type :=
  | KeyError (k : string)
  | IndexError.

Inductive result (A : Type) : Type :=
  | Ret (a : A)
  | Raise (e : exn)
  | OutOfFuel.
Arguments Ret {A} a.
Arguments Raise {A} e.
Arguments OutOfFuel {A}.

(** A computation over a mutable object of type [S]: the final state is
    kept also when an exception is raised, as in Python. *)
Definition M (S A : Type) : Type := S → result A * S.

Definition ret {S A} (a : A) : M S A := λ s, (Ret a, s).
Definition raise {S A} (e : exn) : M S A := λ s, (Raise e, s).
Definition out_of_fuel {S A} : M S A := λ s, (OutOfFuel, s).
Definition get {S} : M S S := λ s, (Ret s, s).
Definition put {S} (s : S) : M S unit := λ _, (Ret tt, s).
Definition bind {S A B} (m : M S A) (k : A → M S B) : M S B :=
  λ s, match m s with
       | (Ret a, s') => k a s'
       | (Raise e, s') => (Raise e, s')
       | (OutOfFuel, s') => (OutOfFuel, s')
       end.
Definition lift {S A} (r : result A) : M S A := λ s, (r, s).

Declare Scope py_scope.
Delimit Scope py_scope with py.
Notation "'let*' x := m 'in' k" := (bind m (λ x, k))
  (at level 10, x name, m at level 200, k at level 200) : py_scope.
Notation "'exec' m 'in' k" := (bind m (λ _, k))
  (at level 10, m at level 200, k at level 200) : py_scope.
Open Scope py_scope.

(** ** Insertion-ordered dictionaries *)

Definition dict (A : Type) : Type := list (string * A).

Fixpoint dget {A} (d : dict A) (k : string) : option A :=
  match d with
  | [] => None
  | (k', v) :: d' => if decide (k = k') then Some v else dget d' k
  end.

(** [d[k] = v]: an existing key keeps its position, a new key goes last. *)
Fixpoint dset {A} (d : dict A) (k : string) (v : A) : dict A :=
  match d with
  | [] => [(k, v)]
  | (k', v') :: d' =>
      if decide (k = k') then (k, v) :: d' else (k', v') :: dset d' k v
  end.

Definition keys {A} (d : dict A) : list string := d.*1.
Definition values {A} (d : dict A) : list A := d.*2.

(** [d[k]] as an expression: raises [KeyError] on a missing key. *)
Definition subscript {A} (d : dict A) (k : string) : result A :=
  match dget d k with
  | Some v => Ret v
  | None => Raise (KeyError k)
  end.

(** Global counters of the module. *)
Record counters : Type := Counters {
  backtrack_call_count : nat;
  failure_count : nat
}.

Definition arc : Type := string * string.

Section Solver.
Context {V : Type} `{EqDecision V}.

(** [assignment] is the Python [dict[str, list]] of current domains. *)
Definition assignment : Type := dict (list V).

Record CSP : Type := MkCSP {
  variables : list string;
  domains : dict (list V);
  constraints : dict (dict (list (V * V)))
}.

Definition empty_csp : CSP := MkCSP [] [] [].

(** What a solver function returns: [False] or a dictionary. *)
Inductive pyval : Type :=
  | PFalse
  | PDict (d : assignment).

(** Python truth value: [False] and the empty dictionary are falsy. *)
Definition truthy (v : pyval) : bool :=
  match v with
  | PFalse => false
  | PDict [] => false
  | PDict (_ :: _) => true
  end.

(** *** Model construction *)

Definition add_variable (csp : CSP) (name : string) (domain : list V) : CSP :=
  MkCSP (variables csp ++ [name])
        (dset (domains csp) name domain)
        (dset (constraints csp) name []).

Definition get_all_possible_pairs {A B} (a : list A) (b : list B) : list (A * B) :=
  list_prod a b.

Definition get_all_arcs (csp : CSP) : list arc :=
  flat_map (λ '(i, cs), map (λ j, (i, j)) (keys cs)) (constraints csp).

Definition get_all_neighboring_arcs (csp : CSP) (var : string) : result (list arc) :=
  match dget (constraints csp) var with
  | Some cs => Ret (map (λ i, (i, var)) (keys cs))
  | None => Raise (KeyError var)
  end.

Definition add_constraint_one_way (csp : CSP) (i j : string)
    (filter_function : V → V → bool) : result CSP :=
  match dget (constraints csp) i with
  | None => Raise (KeyError i)
  | Some cs =>
      let seeded :=
        match dget cs j with
        | Some ps => Ret ps
        | None =>
            match dget (domains csp) i, dget (domains csp) j with
            | None, _ => Raise (KeyError i)
            | _, None => Raise (KeyError j)
            | Some di, Some dj => Ret (get_all_possible_pairs di dj)
            end
        end in
      match seeded with
      | Ret ps =>
          let ps' := filter (λ p, filter_function p.1 p.2 = true) ps in
          Ret (MkCSP (variables csp) (domains csp)
                     (dset (constraints csp) i (dset cs j ps')))
      | Raise e => Raise e
      | OutOfFuel => OutOfFuel
      end
  end.

(** *** Revise *)

(** [not len(list(filter(lambda y: (x, y) in self.constraints[x_i][x_j],
    assignment[x_j])))], negated: the lambda, and with it the lookup in
    [constraints], runs only when [assignment[x_j]] has an element. *)
Definition has_support (csp : CSP) (x_i x_j : string) (x : V) (dj : list V)
    : result bool :=
  match dj with
  | [] => Ret false
  | _ :: _ =>
      match dget (constraints csp) x_i with
      | None => Raise (KeyError x_i)
      | Some cs =>
          match dget cs x_j with
          | None => Raise (KeyError x_j)
          | Some ps => Ret (existsb (λ y, bool_decide ((x, y) ∈ ps)) dj)
          end
      end
  end.

(** The [for i, x in enumerate(assignment[x_i])] loop. The list walked by
    the iterator is the object [assignment[x_i]] itself, which [pop]
    shortens while the index [i] keeps advancing. [n] bounds the number
    of iterations left. *)
Fixpoint revise_loop (csp : CSP) (x_i x_j : string) (n i : nat) (revised : bool)
    : M assignment bool :=
  match n with
  | 0 => out_of_fuel
  | S n' =>
      let* a := get in
      let* l := lift (subscript a x_i) in
      match l !! i with
      | None => ret revised
      | Some x =>
          let* dj := lift (subscript a x_j) in
          let* s := lift (has_support csp x_i x_j x dj) in
          if s then revise_loop csp x_i x_j n' (S i) revised
          else exec put (dset a x_i (delete i l)) in
               revise_loop csp x_i x_j n' (S i) true
      end
  end.

Definition revise (csp : CSP) (x_i x_j : string) : M assignment bool :=
  let* a := get in
  let* l := lift (subscript a x_i) in
  revise_loop csp x_i x_j (S (length l)) 0 false.

(** *** AC-3 *)

(** [x_j not in x] for the tuple [x]. *)
Definition tuple_mentions (x_j : string) (x : arc) : bool :=
  bool_decide (x_j = x.1) || bool_decide (x_j = x.2).

Fixpoint inference_loop (csp : CSP) (n : nat) (queue : list arc)
    : M assignment pyval :=
  match n with
  | 0 => out_of_fuel
  | S n' =>
      match queue with
      | [] => let* a := get in ret (PDict a)
      | (x_j, x_i) :: queue =>
          let* revised := revise csp x_i x_j in
          if revised then
            let* a := get in
            let* d := lift (subscript a x_i) in
            if bool_decide (length d = 0) then ret PFalse
            else
              let* arcs := lift (get_all_neighboring_arcs csp x_i) in
              inference_loop csp n'
                (queue ++ filter (λ x, tuple_mentions x_j x = false) arcs)
          else inference_loop csp n' queue
      end
  end.

Definition total_size (a : assignment) : nat :=
  sum_list (length <$> values a).

(** Each pass through the loop either shortens the queue or removes a
    value and appends at most [length (get_all_arcs csp)] arcs. *)
Definition inference_fuel (csp : CSP) (queue : list arc) (a : assignment) : nat :=
  S (total_size a * S (length (get_all_arcs csp)) + length queue).

Definition inference (csp : CSP) (queue : list arc) : M assignment pyval :=
  λ a, inference_loop csp (inference_fuel csp queue a) queue a.

(** *** Backtracking search *)

Definition incr_backtrack_call_count : M counters unit :=
  λ c, (Ret tt, Counters (S (backtrack_call_count c)) (failure_count c)).
Definition incr_failure_count : M counters unit :=
  λ c, (Ret tt, Counters (backtrack_call_count c) (S (failure_count c))).

Definition unassigned (a : assignment) (key : string) : bool :=
  match dget a key with
  | Some d => bool_decide (1 < length d)
  | None => false
  end.

(** [list(filter(...))[0]]: [IndexError] when no key passes the filter. *)
Definition select_unassigned_variable (a : assignment) : result string :=
  match filter (λ key, unassigned a key) (keys a) with
  | key :: _ => Ret key
  | [] => Raise IndexError
  end.

(** [list.sort()] for a value type compared by [vlt] (Python's [<], a
    strict total order on the values): a stable insertion sort. *)
Context (vlt : V → V → bool).

Fixpoint insert_sorted (x : V) (l : list V) : list V :=
  match l with
  | [] => [x]
  | y :: l' => if vlt y x then y :: insert_sorted x l' else x :: l
  end.

Definition sort (l : list V) : list V := foldr insert_sorted [] l.

(** The [for value in var] loop of [backtrack]. [ass2] is the one copy made
    on entry; it is the object that [inference] mutates for each value.
    [rec] is the recursive call. *)
Fixpoint try_values (rec : assignment → M counters pyval) (csp : CSP)
    (key : string) (var : list V) (ass2 : assignment) : M counters pyval :=
  match var with
  | [] => exec incr_failure_count in ret PFalse
  | value :: var' =>
      let ass2 := dset ass2 key [] in
      let ass2 := dset ass2 key ([] ++ [value]) in
      let* arcs := lift (get_all_neighboring_arcs csp key) in
      let '(inf, ass2) := inference csp arcs ass2 in
      let* inf := lift inf in
      if truthy inf then
        let* res := rec ass2 in
        if truthy res then ret res
        else try_values rec csp key var' ass2
      else try_values rec csp key var' ass2
  end.

Fixpoint backtrack_fuel (n : nat) (csp : CSP) (assignment : assignment)
    : M counters pyval :=
  match n with
  | 0 => out_of_fuel
  | S n' =>
      exec incr_backtrack_call_count in
      let ass2 := assignment in
      if bool_decide (Forall (λ x, length x = 1) (values ass2)) then
        ret (PDict ass2)
      else
        let* key := lift (select_unassigned_variable ass2) in
        let* var := lift (subscript ass2 key) in
        let var := sort var in
        let ass2 := dset ass2 key var in
        try_values (backtrack_fuel n' csp) csp key var ass2
  end.

(** Every recursive call fixes one more variable to a single value. *)
Definition backtrack_depth (a : assignment) : nat :=
  S (length (filter (λ key, unassigned a key) (keys a))).

Definition backtrack (csp : CSP) (a : assignment) : M counters pyval :=
  backtrack_fuel (backtrack_depth a) csp a.

(** The value returned by the AC-3 pre-pass is dropped; only its effect on
    [assignment] and a possible exception remain. *)
Definition backtracking_search (csp : CSP) : M counters pyval :=
  let assignment := domains csp in
  let '(pre, assignment) := inference csp (get_all_arcs csp) assignment in
  let* _ := lift pre in
  backtrack csp assignment.

(** *** Branch isolation as the specification words it

    The two definitions below are not taken from the source: they follow
    the specification, where every candidate value is tried on a clone of
    its own of the snapshot and a failed try is discarded. They are
    compared with [try_values] and [backtrack_fuel] further down. *)

Fixpoint try_values_cloned (rec : assignment → M counters pyval) (csp : CSP)
    (key : string) (var : list V) (snapshot : assignment) : M counters pyval :=
  match var with
  | [] => exec incr_failure_count in ret PFalse
  | value :: var' =>
      let clone := dset snapshot key [value] in
      let* arcs := lift (get_all_neighboring_arcs csp key) in
      let '(inf, clone) := inference csp arcs clone in
      let* inf := lift inf in
      if truthy inf then
        let* res := rec clone in
        if truthy res then ret res
        else try_values_cloned rec csp key var' snapshot
      else try_values_cloned rec csp key var' snapshot
  end.

Fixpoint backtrack_cloned_fuel (n : nat) (csp : CSP) (snapshot : assignment)
    : M counters pyval :=
  match n with
  | 0 => out_of_fuel
  | S n' =>
      exec incr_backtrack_call_count in
      if bool_decide (Forall (λ x, length x = 1) (values snapshot)) then
        ret (PDict snapshot)
      else
        let* key := lift (select_unassigned_variable snapshot) in
        let* var := lift (subscript snapshot key) in
        try_values_cloned (backtrack_cloned_fuel n' csp) csp key (sort var)
          snapshot
  end.

Definition backtrack_cloned (csp : CSP) (a : assignment) : M counters pyval :=
  backtrack_cloned_fuel (backtrack_depth a) csp a.

End Solver.

(** ** Predicates used in the statements *)

Section Predicates.
Context {V : Type} `{EqDecision V}.
Implicit Types (a : @assignment V) (csp : @CSP V).

(** [narrows a a']: same keys in the same order, and every domain of [a']
    is obtained from the one of [a] by removing values. *)
Definition narrows a a' : Prop :=
  Forall2 (λ e e', e'.1 = e.1 ∧ e'.2 `sublist_of` e.2) a a'.

(** A constraint entry exists for the ordered pair [(i, j)]. *)
Definition registered csp (i j : string) : Prop :=
  ∃ cs ps, dget (constraints csp) i = Some cs ∧ dget cs j = Some ps.

(** The measure that every pass through the loop of [inference] decreases. *)
Definition inference_measure csp (queue : list arc) a : nat :=
  total_size a * S (length (get_all_arcs csp)) + length queue.

(** Every domain holds exactly one value. *)
Definition single_valued a : Prop := Forall (λ d, length d = 1) (values a).

(** The value assigned to [k] by a single-valued assignment. *)
Definition value_of a (k : string) : option V :=
  match dget a k with
  | Some [x] => Some x
  | _ => None
  end.

(** Every registered constraint holds of the values that [a] assigns. *)
Definition satisfies_constraints csp a : Prop :=
  ∀ i j cs ps vi vj,
    dget (constraints csp) i = Some cs → dget cs j = Some ps →
    value_of a i = Some vi → value_of a j = Some vj → (vi, vj) ∈ ps.

(** [s] picks one value per variable, from its domain, and satisfies every
    registered constraint. *)
Definition satisfying csp (s : string → V) : Prop :=
  (∀ k d, dget (domains csp) k = Some d → s k ∈ d) ∧
  (∀ i j cs ps,
     dget (constraints csp) i = Some cs → dget cs j = Some ps →
     (s i, s j) ∈ ps).

(** [a] has the variables of the model, in the model's order. *)
Definition same_variables csp a : Prop := keys a = keys (domains csp).

(** No domain of [a] is empty. *)
Definition nonempty a : Prop := ∀ k d, dget a k = Some d → d ≠ [].

(** Every domain of [a] still holds the value that [s] picks. *)
Definition contains a (s : string → V) : Prop :=
  ∀ k d, dget a k = Some d → s k ∈ d.

(** What a model built with [add_variable] and [add_constraint_one_way]
    looks like: dictionary keys are distinct, [domains] and [constraints]
    have the same keys, and constraints relate variables of the model. *)
Record well_formed csp : Prop := WellFormed {
  wf_nodup : NoDup (keys (domains csp));
  wf_table : keys (constraints csp) = keys (domains csp);
  wf_vars : ∀ i j, registered csp i j →
                   is_Some (dget (domains csp) i) ∧
                   is_Some (dget (domains csp) j)
}.

(** The models that the construction calls can produce. *)
Inductive built : @CSP V → Prop :=
  | built_empty : built empty_csp
  | built_add_variable csp name domain :
      built csp → built (add_variable csp name domain)
  | built_add_constraint csp i j filter_function csp' :
      built csp →
      add_constraint_one_way csp i j filter_function = Ret csp' →
      built csp'.

(** What [backtrack] may return in a well-formed model. *)
Definition search_result_ok csp (r : pyval) : Prop :=
  match r with
  | PFalse => True
  | PDict d => single_valued d ∧ same_variables csp d
  end.

(** "All constraints are supposed to be two-way connections". *)
Definition two_way csp : Prop :=
  ∀ i j, registered csp i j → registered csp j i.

Definition counters_add (c d : counters) : counters :=
  Counters (backtrack_call_count c + backtrack_call_count d)
           (failure_count c + failure_count d).

End Predicates.

(** ** Concrete models, over integer values

    Each model is written out as the record that the construction calls
    produce; the [*_script] definitions are those calls. *)

Definition constrain (i j : string) (filter_function : Z → Z → bool)
    (r : result (@CSP Z)) : result (@CSP Z) :=
  match r with
  | Ret csp => add_constraint_one_way csp i j filter_function
  | Raise e => Raise e
  | OutOfFuel => OutOfFuel
  end.

Definition var_A : string := "A"%string.
Definition var_B : string := "B"%string.

(** A in 3..4 and B in 1..2 with A < B, registered both ways. *)
Definition order_script : result (@CSP Z) :=
  constrain var_B var_A (λ y x, (x <? y)%Z)
    (constrain var_A var_B (λ x y, (x <? y)%Z)
       (Ret (add_variable (add_variable empty_csp var_A [3; 4]%Z)
                          var_B [1; 2]%Z))).

Definition order_model : @CSP Z :=
  MkCSP [var_A; var_B]
        [(var_A, [3; 4]%Z); (var_B, [1; 2]%Z)]
        [(var_A, [(var_B, [])]); (var_B, [(var_A, [])])].

(** A = {1}, B = {1} with A ≠ B, registered both ways. *)
Definition clash_script : result (@CSP Z) :=
  constrain var_B var_A (λ x y, negb (x =? y)%Z)
    (constrain var_A var_B (λ x y, negb (x =? y)%Z)
       (Ret (add_variable (add_variable empty_csp var_A [1]%Z)
                          var_B [1]%Z))).

Definition clash_model : @CSP Z :=
  MkCSP [var_A; var_B]
        [(var_A, [1]%Z); (var_B, [1]%Z)]
        [(var_A, [(var_B, [])]); (var_B, [(var_A, [])])].

(** A = {1}, B = {2} with A ≠ B, registered from A to B only. *)
Definition one_way_script : result (@CSP Z) :=
  constrain var_A var_B (λ x y, negb (x =? y)%Z)
    (Ret (add_variable (add_variable empty_csp var_A [1]%Z) var_B [2]%Z)).

Definition one_way_model : @CSP Z :=
  MkCSP [var_A; var_B]
        [(var_A, [1]%Z); (var_B, [2]%Z)]
        [(var_A, [(var_B, [(1, 2)%Z])]); (var_B, [])].

(** A and B in 1..2 with A ≠ B, registered both ways. *)
Definition differ_script : result (@CSP Z) :=
  constrain var_B var_A (λ x y, negb (x =? y)%Z)
    (constrain var_A var_B (λ x y, negb (x =? y)%Z)
       (Ret (add_variable (add_variable empty_csp var_A [1; 2]%Z)
                          var_B [1; 2]%Z))).

Definition differ_model : @CSP Z :=
  MkCSP [var_A; var_B]
        [(var_A, [1; 2]%Z); (var_B, [1; 2]%Z)]
        [(var_A, [(var_B, [(1, 2); (2, 1)]%Z)]);
         (var_B, [(var_A, [(1, 2); (2, 1)]%Z)])].

(** A and B in 1..2 with A < B registered from A to B, and the constraint
    that always holds registered from B to A. *)
Definition skew_script : result (@CSP Z) :=
  constrain var_B var_A (λ _ _, true)
    (constrain var_A var_B (λ x y, (x <? y)%Z)
       (Ret (add_variable (add_variable empty_csp var_A [1; 2]%Z)
                          var_B [1; 2]%Z))).

Definition skew_model : @CSP Z :=
  MkCSP [var_A; var_B]
        [(var_A, [1; 2]%Z); (var_B, [1; 2]%Z)]
        [(var_A, [(var_B, [(1, 2)%Z])]);
         (var_B, [(var_A, [(1, 1); (1, 2); (2, 1); (2, 2)]%Z)])].

(** A and B in 1..2, no constraint. *)
Definition two_variables : @CSP Z :=
  add_variable (add_variable empty_csp var_A [1; 2]%Z) var_B [1; 2]%Z.

(** [differ_model] after a second [add_variable] for A. *)
Definition readded_model : @CSP Z := add_variable differ_model var_A [1; 2]%Z.

(** The choice A = 1, B = 2. *)
Definition one_two (k : string) : Z :=
  if decide (k = var_A) then 1%Z else 2%Z.

(** ** The all-different constraint, and notions used for further
    properties *)

Section MoreDefinitions.
Context {V : Type} `{EqDecision V}.
Implicit Types (a : @assignment V) (csp : @CSP V).

(** [lambda x, y: x != y]. *)
Definition different (x y : V) : bool := negb (bool_decide (x = y)).

(** The body of the loop of [add_all_different_constraint], for the pair
    [x = (i, j)]: [if i != j: add_constraint_one_way(i, j, lambda x, y:
    x != y)]. An exception ends the loop; the model that the source leaves
    behind in that case, with the constraints added so far, is not
    represented. *)
Definition all_different_step (r : result CSP) (x : string * string)
    : result CSP :=
  match r with
  | Ret csp =>
      if decide (x.1 ≠ x.2) then
        add_constraint_one_way csp x.1 x.2 (λ x y, different x y)
      else Ret csp
  | Raise e => Raise e
  | OutOfFuel => OutOfFuel
  end.

(** [for (i, j) in self.get_all_possible_pairs(var_list, var_list)]. *)
Definition add_all_different_constraint csp (var_list : list string)
    : result CSP :=
  foldl all_different_step (Ret csp)
        (get_all_possible_pairs var_list var_list).

(** [constraints[i][j]], when both lookups succeed. *)
Definition legal_pairs csp (i j : string) : option (list (V * V)) :=
  match dget (constraints csp) i with
  | Some cs => dget cs j
  | None => None
  end.

(** The pairs that a registration for [(i, j)] starts from: the legal
    pairs already there, else the cross product of the two domains. *)
Definition seed_pairs csp (i j : string) : option (list (V * V)) :=
  match legal_pairs csp i j with
  | Some ps => Some ps
  | None =>
      match dget (domains csp) i, dget (domains csp) j with
      | Some di, Some dj => Some (get_all_possible_pairs di dj)
      | _, _ => None
      end
  end.

(** What one pass of the loop of [revise] leaves of a domain, when [sup]
    tells which values have support: a supported value is kept, an
    unsupported one is removed and the value after it is kept without
    being looked at. *)
Fixpoint revise_list (sup : V → bool) (l : list V) : list V :=
  match l with
  | [] => []
  | x :: l' =>
      if sup x then x :: revise_list sup l'
      else match l' with
           | [] => []
           | y :: l'' => y :: revise_list sup l''
           end
  end.

(** [x] has a partner in [dj] under the legal pairs [ps]. *)
Definition supported_by (ps : list (V * V)) (dj : list V) (x : V) : bool :=
  existsb (λ y, bool_decide ((x, y) ∈ ps)) dj.

(** The arc [(x_j, x_i)] is consistent in [a]: both variables have a
    domain and [revise] finds support for every value of [x_i]. *)
Definition arc_consistent csp a (x : arc) : Prop :=
  ∃ l dj,
    dget a x.2 = Some l ∧ dget a x.1 = Some dj ∧
    Forall (λ v, has_support csp x.2 x.1 v dj = Ret true) l.

(** Every constraint is registered in both directions, and the two
    directions hold the same pairs, swapped. *)
Definition mirrored csp : Prop :=
  ∀ i j ps,
    legal_pairs csp i j = Some ps →
    ∃ ps', legal_pairs csp j i = Some ps' ∧
           ∀ x y, (x, y) ∈ ps ↔ (y, x) ∈ ps'.

End MoreDefinitions.

(** ** The Sudoku builder

    [create_sudoku_csp] reads a file and strips its lines; it is modelled
    from there on, as a function of the list [board] of stripped lines.
    Values are Python strings of one character. *)

Local Open Scope string_scope.

(** [list(map(str, range(1, 10)))]. *)
Definition digits : list string := (λ n : nat, pretty n) <$> seq 1 9.

(** ['%d-%d' % (row, col)]. *)
Definition cell_name (row col : nat) : string :=
  pretty row +:+ "-" +:+ pretty col.

(** [board[row][col]]: [IndexError] when the board has no such line or
    the line no such character. *)
Definition board_cell (board : list string) (row col : nat) : result string :=
  match board !! row with
  | None => Raise IndexError
  | Some line =>
      match String.get col line with
      | None => Raise IndexError
      | Some ch => Ret (String ch EmptyString)
      end
  end.

(** The body of the first double loop, for [cell = (row, col)]. *)
Definition sudoku_variable_step (board : list string) (r : result (@CSP string))
    (cell : nat * nat) : result (@CSP string) :=
  match r with
  | Ret csp =>
      match board_cell board cell.1 cell.2 with
      | Ret ch =>
          Ret (add_variable csp (cell_name cell.1 cell.2)
                 (if decide (ch = "0") then digits else [ch]))
      | Raise e => Raise e
      | OutOfFuel => OutOfFuel
      end
  | Raise e => Raise e
  | OutOfFuel => OutOfFuel
  end.

(** The groups given to [add_all_different_constraint], in the order of
    the source: the nine rows, the nine columns, the nine boxes. *)
Definition sudoku_rows : list (list string) :=
  (λ row, (λ col, cell_name row col) <$> seq 0 9) <$> seq 0 9.
Definition sudoku_columns : list (list string) :=
  (λ col, (λ row, cell_name row col) <$> seq 0 9) <$> seq 0 9.
Definition sudoku_boxes : list (list string) :=
  (λ box : nat * nat,
     (λ cell : nat * nat, cell_name cell.1 cell.2) <$>
       list_prod (seq (box.1 * 3) 3) (seq (box.2 * 3) 3)) <$>
    list_prod (seq 0 3) (seq 0 3).
Definition sudoku_groups : list (list string) :=
  sudoku_rows ++ sudoku_columns ++ sudoku_boxes.

Definition all_different_group_step (r : result (@CSP string))
    (group : list string) : result (@CSP string) :=
  match r with
  | Ret csp => add_all_different_constraint csp group
  | Raise e => Raise e
  | OutOfFuel => OutOfFuel
  end.

Definition sudoku_variables (board : list string) : result (@CSP string) :=
  foldl (sudoku_variable_step board) (Ret empty_csp)
        (list_prod (seq 0 9) (seq 0 9)).

Definition create_sudoku_csp (board : list string) : result (@CSP string) :=
  foldl all_different_group_step (sudoku_variables board) sudoku_groups.

Local Close Scope string_scope.

(** Every cell that the builder reads exists. *)
Definition well_shaped (board : list string) : Prop :=
  9 ≤ length board ∧
  ∀ row line, row < 9 → board !! row = Some line → 9 ≤ String.length line.

(** The names of the 81 cells, row by row. *)
Definition sudoku_cells : list string :=
  (λ cell : nat * nat, cell_name cell.1 cell.2) <$>
    list_prod (seq 0 9) (seq 0 9).

(** The two names are different cells of one row, column or box. *)
Definition share_group (i j : string) : Prop :=
  i ≠ j ∧ ∃ group, group ∈ sudoku_groups ∧ i ∈ group ∧ j ∈ group.

(** The positions of the cells of [sudoku_groups]. *)
Definition sudoku_group_positions : list (list (nat * nat)) :=
  ((λ row, (λ col, (row, col)) <$> seq 0 9) <$> seq 0 9) ++
  ((λ col, (λ row, (row, col)) <$> seq 0 9) <$> seq 0 9) ++
  ((λ box : nat * nat, list_prod (seq (box.1 * 3) 3) (seq (box.2 * 3) 3)) <$>
     list_prod (seq 0 3) (seq 0 3)).

(** The character of a cell of a grid; empty when the grid has no such
    cell. *)
Definition cell_value (grid : list string) (cell : nat * nat) : string :=
  match board_cell grid cell.1 cell.2 with
  | Ret ch => ch
  | _ => EmptyString
  end.

(** The grid [solved] fills in [board]: it keeps every given cell, has a
    digit from 1 to 9 where the board has 0, and has nine different
    values in every row, column and box. *)
Definition fills_in (board solved : list string) : Prop :=
  Forall (λ cell,
            if decide (cell_value board cell = "0"%string)
            then cell_value solved cell ∈ digits
            else cell_value solved cell = cell_value board cell)
         (list_prod (seq 0 9) (seq 0 9)) ∧
  Forall (λ group, NoDup (cell_value solved <$> group)) sudoku_group_positions.

(** The assignment that reads the value of every cell off a grid. *)
Definition board_assignment (solved : list string) (name : string) : string :=
  default EmptyString
    (head (omap (λ cell : nat * nat,
                   if decide (cell_name cell.1 cell.2 = name)
                   then Some (cell_value solved cell) else None)
                (list_prod (seq 0 9) (seq 0 9)))).

(** A board, the board filled in, and the model built from the board. *)
Definition example_board : list string :=
  ["530070000"; "600195000"; "098000060"; "800060003"; "400803001";
   "700020006"; "060000280"; "000419005"; "000080079"]%string.

Definition example_solved : list string :=
  ["534678912"; "672195348"; "198342567"; "859761423"; "426853791";
   "713924856"; "961537284"; "287419635"; "345286179"]%string.

Definition example_sudoku : @CSP string :=
  match create_sudoku_csp example_board with
  | Ret csp => csp
  | _ => empty_csp
  end.

Local Open Scope string_scope.

(** ** Printing a grid

    Standard output is the state of the computation: the text printed so
    far. The argument is a dictionary; [False], which
    [backtracking_search] may also return, is not represented. *)

Definition newline : string := String (Ascii.ascii_of_nat 10) EmptyString.

(** [print(text, end=ending)]. *)
Definition print (text ending : string) : M string unit :=
  λ out, (Ret tt, out +:+ text +:+ ending).

(** [for x in l: body(x)]. *)
Fixpoint for_each {S A} (l : list A) (body : A → M S unit) : M S unit :=
  match l with
  | [] => ret tt
  | x :: l' => exec body x in for_each l' body
  end.

(** The body of the inner loop of [print_sudoku_solution]. *)
Definition print_cell (solution : dict (list string)) (row col : nat)
    : M string unit :=
  let* l := lift (subscript solution (cell_name row col)) in
  exec (if decide (1 < length l) then print " " " "
        else match l with
             | [] => raise IndexError
             | x :: _ => print x " "
             end) in
  if decide (col = 2 ∨ col = 5) then print "|" " " else ret tt.

(** The body of the outer loop. *)
Definition print_row (solution : dict (list string)) (row : nat)
    : M string unit :=
  exec for_each (seq 0 9) (print_cell solution row) in
  exec print "" newline in
  if decide (row = 2 ∨ row = 5) then print "------+-------+------" newline
  else ret tt.

Definition print_sudoku_solution (solution : dict (list string))
    : M string unit :=
  for_each (seq 0 9) (print_row solution).

(** Every cell of the grid has a domain with a first value. *)
Definition printable (solution : dict (list string)) : Prop :=
  ∀ row col, row < 9 → col < 9 →
    ∃ x l, dget solution (cell_name row col) = Some (x :: l).

Local Close Scope string_scope.

(** * Properties *)

(** ** Dictionaries *)

Section DictFacts.
Context {A : Type}.
Implicit Types (d : dict A) (k : string) (v : A).

Lemma dget_dset_eq d k v : dget (dset d k v) k = Some v.
Proof.
  induction d as [|[k' w] d IH]; simpl.
  - by rewrite decide_True.
  - destruct (decide (k = k')) as [->|Hne]; simpl.
    + by rewrite decide_True.
    + by rewrite decide_False.
Qed.

Lemma dget_dset_ne d k k' v : k ≠ k' → dget (dset d k v) k' = dget d k'.
Proof.
  intros Hne. induction d as [|[k0 w] d IH]; simpl.
  - by rewrite decide_False.
  - destruct (decide (k = k0)) as [->|Hne0]; simpl.
    + by rewrite !decide_False.
    + destruct (decide (k' = k0)); [done | apply IH].
Qed.

Lemma dget_dset d k k' v :
  dget (dset d k v) k' = if decide (k = k') then Some v else dget d k'.
Proof.
  destruct (decide (k = k')) as [->|Hne];
    [apply dget_dset_eq | by apply dget_dset_ne].
Qed.

Lemma keys_dset d k v : is_Some (dget d k) → keys (dset d k v) = keys d.
Proof.
  unfold keys. induction d as [|[k' w] d IH]; simpl; intros [x Hx]; [done|].
  destruct (decide (k = k')) as [->|Hne]; simpl; [done|].
  f_equal. apply IH. eauto.
Qed.

Lemma keys_dset_new d k v : dget d k = None → keys (dset d k v) = keys d ++ [k].
Proof.
  unfold keys. induction d as [|[k' w] d IH]; simpl; [done|].
  destruct (decide (k = k')) as [->|Hne]; [done|].
  intros Hk. rewrite !fmap_cons, IH by done. done.
Qed.

Lemma length_dset d k v : is_Some (dget d k) → length (dset d k v) = length d.
Proof.
  intros Hk. pose proof (f_equal length (keys_dset d k v Hk)) as Hlen.
  unfold keys in Hlen. by rewrite !length_fmap in Hlen.
Qed.

Lemma dset_dset d k v v' : dset (dset d k v) k v' = dset d k v'.
Proof.
  induction d as [|[k' w] d IH]; simpl.
  - by rewrite decide_True.
  - destruct (decide (k = k')) as [->|Hne]; simpl.
    + by rewrite decide_True.
    + rewrite decide_False by done. by rewrite IH.
Qed.

Lemma dset_id d k v : dget d k = Some v → dset d k v = d.
Proof.
  induction d as [|[k' w] d IH]; simpl; [done|].
  destruct (decide (k = k')) as [->|Hne]; [congruence|].
  intros Hk. by rewrite IH.
Qed.

Lemma dget_Some_elem d k v : dget d k = Some v → (k, v) ∈ d.
Proof.
  induction d as [|[k' w] d IH]; simpl; [done|].
  destruct (decide (k = k')) as [->|Hne].
  - intros [= ->]. apply list_elem_of_here.
  - intros Hk. apply list_elem_of_further, IH, Hk.
Qed.

Lemma dget_is_Some_keys d k : is_Some (dget d k) ↔ k ∈ keys d.
Proof.
  unfold keys. induction d as [|[k' w] d IH]; simpl.
  - split; [by intros [? ?] | by intros ?%elem_of_nil].
  - destruct (decide (k = k')) as [->|Hne].
    + split; [intros _; apply list_elem_of_here | eauto].
    + rewrite IH. split; [apply list_elem_of_further|].
      intros [?|?]%elem_of_cons; done.
Qed.

Lemma dget_None_keys d k : dget d k = None ↔ k ∉ keys d.
Proof.
  rewrite <-dget_is_Some_keys, eq_None_not_Some. done.
Qed.

(** With distinct keys, every entry of the list is what [dget] finds. *)
Lemma dget_elem_NoDup d k v : NoDup (keys d) → (k, v) ∈ d → dget d k = Some v.
Proof.
  unfold keys. induction d as [|[k' w] d IH]; simpl.
  - by intros _ ?%elem_of_nil.
  - intros [Hnotin Hnd]%NoDup_cons [[= -> ->]|Hin]%elem_of_cons.
    + by rewrite decide_True.
    + rewrite decide_False; [by apply IH|].
      intros ->. apply Hnotin. apply list_elem_of_fmap. by exists (k', v).
Qed.

End DictFacts.

(** ** Domains only shrink *)

Section Narrowing.
Context {V : Type} `{EqDecision V}.
Implicit Types (a : @assignment V) (k : string) (l : list V).

Lemma narrows_refl a : narrows a a.
Proof. apply Forall_Forall2_diag, Forall_forall. by intros [k l] _. Qed.

Lemma narrows_trans a1 a2 a3 : narrows a1 a2 → narrows a2 a3 → narrows a1 a3.
Proof.
  unfold narrows. intros H12 H23. revert a3 H23.
  induction H12 as [|e1 e2 a1 a2 [Hk Hs] _ IH]; intros a3 H23.
  - by inversion H23.
  - inversion H23 as [|? e3 ? a3' [Hk' Hs'] Hrest]; subst.
    constructor; [|by apply IH].
    split; [congruence | by etrans].
Qed.

Lemma narrows_dset a k l l' :
  dget a k = Some l → l' `sublist_of` l → narrows a (dset a k l').
Proof.
  unfold narrows. induction a as [|[k' w] a IH]; simpl; [done|].
  destruct (decide (k = k')) as [->|Hne].
  - intros [= ->] Hs. constructor; [done | apply narrows_refl].
  - intros Hk Hs. constructor; [done | by apply IH].
Qed.

Lemma narrows_keys a a' : narrows a a' → keys a' = keys a.
Proof.
  unfold keys. induction 1 as [|e e' a a' [Hk _] _ IH]; [done|].
  rewrite !fmap_cons. by f_equal.
Qed.

Lemma narrows_dget a a' k l :
  narrows a a' → dget a k = Some l →
  ∃ l', dget a' k = Some l' ∧ l' `sublist_of` l.
Proof.
  induction 1 as [|[k1 l1] [k2 l2] a a' [Hk Hs] _ IH]; simpl in *; [done|].
  subst k2. destruct (decide (k = k1)); [|done].
  intros [= ->]. eauto.
Qed.

Lemma narrows_dget_inv a a' k l' :
  narrows a a' → dget a' k = Some l' →
  ∃ l, dget a k = Some l ∧ l' `sublist_of` l.
Proof.
  induction 1 as [|[k1 l1] [k2 l2] a a' [Hk Hs] _ IH]; simpl in *; [done|].
  subst k2. destruct (decide (k = k1)); [|done].
  intros [= ->]. eauto.
Qed.

Lemma narrows_total_size a a' : narrows a a' → total_size a' ≤ total_size a.
Proof.
  unfold total_size, values.
  induction 1 as [|e e' a a' [_ Hs%sublist_length] _ IH]; csimpl; lia.
Qed.

Lemma sublist_same_length l l' : l' `sublist_of` l → length l ≤ length l' → l' = l.
Proof.
  induction 1 as [|x l1 l2 _ IH|x l1 l2 Hs IH]; simpl; intros Hlen; [done| |].
  - f_equal. apply IH. lia.
  - apply sublist_length in Hs. lia.
Qed.

(** Nothing was removed exactly when the total size is unchanged. *)
Lemma narrows_same_size a a' :
  narrows a a' → total_size a ≤ total_size a' → a' = a.
Proof.
  unfold total_size, values.
  induction 1 as [|[k1 l1] [k2 l2] a a' [Hk Hs] Hrest IH]; csimpl in *; [done|].
  intros Hlen. subst k2.
  pose proof (sublist_length _ _ Hs).
  pose proof (narrows_total_size _ _ Hrest) as Hts.
  unfold total_size, values in Hts.
  rewrite (sublist_same_length l1 l2) by first [done | lia].
  f_equal. apply IH. lia.
Qed.

Lemma total_size_dset a k l l' :
  dget a k = Some l →
  total_size (dset a k l') + length l = total_size a + length l'.
Proof.
  unfold total_size, values. induction a as [|[k' w] a IH]; csimpl; [done|].
  destruct (decide (k = k')) as [->|Hne]; csimpl.
  - intros [= ->]. lia.
  - intros Hk. specialize (IH Hk). lia.
Qed.

Lemma total_size_pop a k l i x :
  dget a k = Some l → l !! i = Some x →
  S (total_size (dset a k (delete i l))) = total_size a.
Proof.
  intros Hk Hi. pose proof (total_size_dset a k l (delete i l) Hk) as Hts.
  rewrite length_delete in Hts by eauto.
  apply lookup_lt_Some in Hi. lia.
Qed.

End Narrowing.

(** ** Revise *)

Section ReviseFacts.
Context {V : Type} `{EqDecision V} (csp : @CSP V) (x_i x_j : string).
Implicit Types (a : @assignment V) (l : list V).

Lemma has_support_fuel i j x dj : has_support csp i j x dj ≠ OutOfFuel.
Proof.
  unfold has_support. destruct dj; [done|].
  destruct (dget (constraints csp) i) as [cs|]; [|done].
  by destruct (dget cs j).
Qed.

Lemma has_support_registered i j x dj cs ps :
  dget (constraints csp) i = Some cs → dget cs j = Some ps →
  has_support csp i j x dj = Ret (existsb (λ y, bool_decide ((x, y) ∈ ps)) dj).
Proof. unfold has_support. intros -> ->. by destruct dj. Qed.

(** One iteration of the [for] loop. *)
Lemma revise_loop_S n i revised a :
  revise_loop csp x_i x_j (S n) i revised a =
  match dget a x_i with
  | None => (Raise (KeyError x_i), a)
  | Some l =>
      match l !! i with
      | None => (Ret revised, a)
      | Some x =>
          match dget a x_j with
          | None => (Raise (KeyError x_j), a)
          | Some dj =>
              match has_support csp x_i x_j x dj with
              | Ret true => revise_loop csp x_i x_j n (S i) revised a
              | Ret false =>
                  revise_loop csp x_i x_j n (S i) true (dset a x_i (delete i l))
              | Raise e => (Raise e, a)
              | OutOfFuel => (OutOfFuel, a)
              end
          end
      end
  end.
Proof.
  simpl. unfold bind, get, lift, subscript, put, ret.
  destruct (dget a x_i) as [l|]; [|done].
  destruct (l !! i) as [x|]; [|done].
  destruct (dget a x_j) as [dj|]; [|done].
  by destruct (has_support csp x_i x_j x dj) as [[]| |].
Qed.

Lemma revise_unfold a :
  revise csp x_i x_j a =
  match dget a x_i with
  | None => (Raise (KeyError x_i), a)
  | Some l => revise_loop csp x_i x_j (S (length l)) 0 false a
  end.
Proof.
  unfold revise, bind, get, lift, subscript. by destruct (dget a x_i).
Qed.

(** Invariant rule for the loop: [Q revised a] is kept when every removal
    of an unsupported value keeps it. *)
Lemma revise_loop_invariant (Q : bool → assignment → Prop) n i revised a r a' :
  (∀ rv a l i x dj,
     Q rv a → dget a x_i = Some l → l !! i = Some x → dget a x_j = Some dj →
     has_support csp x_i x_j x dj = Ret false →
     Q true (dset a x_i (delete i l))) →
  Q revised a →
  revise_loop csp x_i x_j n i revised a = (r, a') →
  ∃ rv, Q rv a' ∧ ∀ b, r = Ret b → b = rv.
Proof.
  intros Hstep. revert i revised a.
  induction n as [|n IH]; intros i revised a HQ Hrun.
  - inversion Hrun; subst. exists revised. split; [done | by intros b [=]].
  - rewrite revise_loop_S in Hrun.
    destruct (dget a x_i) as [l|] eqn:Hl;
      [|inversion Hrun; subst; exists revised; split; [done | by intros b [=]]].
    destruct (l !! i) as [x|] eqn:Hx;
      [|inversion Hrun; subst; exists revised; split; [done | by intros b [= ->]]].
    destruct (dget a x_j) as [dj|] eqn:Hdj;
      [|inversion Hrun; subst; exists revised; split; [done | by intros b [=]]].
    destruct (has_support csp x_i x_j x dj) as [[]|e|] eqn:Hs.
    + eapply IH; eauto.
    + eapply IH; [|exact Hrun]. eapply Hstep; eauto.
    + inversion Hrun; subst. exists revised. split; [done | by intros b [=]].
    + inversion Hrun; subst. exists revised. split; [done | by intros b [=]].
Qed.

(** The loop ends within [length l - i] further iterations. *)
Lemma revise_loop_fuel n i revised a l :
  dget a x_i = Some l → length l < n + i → 0 < n →
  (revise_loop csp x_i x_j n i revised a).1 ≠ OutOfFuel.
Proof.
  revert i revised a l. induction n as [|n IH]; intros i revised a l Hl Hn Hpos.
  - lia.
  - rewrite revise_loop_S, Hl.
    destruct (l !! i) as [x|] eqn:Hx; [|done].
    pose proof (lookup_lt_Some _ _ _ Hx) as Hlt.
    destruct (dget a x_j) as [dj|]; [|done].
    pose proof (has_support_fuel x_i x_j x dj) as Hf.
    destruct (has_support csp x_i x_j x dj) as [[]|e|]; [| |done|done].
    + apply (IH _ _ _ l); [done | lia | lia].
    + apply (IH _ _ _ (delete i l)); [apply dget_dset_eq| |lia].
      rewrite length_delete by eauto. lia.
Qed.

Lemma revise_fuel a : (revise csp x_i x_j a).1 ≠ OutOfFuel.
Proof.
  rewrite revise_unfold. destruct (dget a x_i) as [l|] eqn:Hl; [|done].
  apply (revise_loop_fuel _ _ _ _ l); [done | lia | lia].
Qed.

(** What one call of [revise] does to the assignment. *)
Lemma revise_effect a r a' :
  revise csp x_i x_j a = (r, a') →
  narrows a a' ∧
  (r = Ret false → a' = a) ∧
  (r = Ret true → total_size a' < total_size a).
Proof.
  rewrite revise_unfold. destruct (dget a x_i) as [l|] eqn:Hl.
  - intros Hrun.
    apply (revise_loop_invariant
      (λ rv a1, narrows a a1 ∧ (rv = false → a1 = a) ∧
                (rv = true → total_size a1 < total_size a))) in Hrun
      as (rv & (Hnar & Hf & Ht) & Hr).
    + split_and!; [done | |].
      * intros ->. apply Hf. symmetry. by apply Hr.
      * intros ->. apply Ht. symmetry. by apply Hr.
    + intros rv a1 l1 i x dj (Hnar & _ & _) Hl1 Hx _ _.
      assert (narrows a (dset a1 x_i (delete i l1))) as Hnar'.
      { eapply narrows_trans; [done|].
        eapply narrows_dset; [done | apply sublist_delete]. }
      split_and!; [done | done |]. intros _.
      pose proof (total_size_pop _ _ _ _ _ Hl1 Hx).
      pose proof (narrows_total_size _ _ Hnar). lia.
    + split_and!; [apply narrows_refl | done | done].
  - intros [= <- <-]. split_and!; [apply narrows_refl | done | done].
Qed.

(** With a registered constraint and both variables in the assignment,
    [revise] raises nothing. *)
Lemma revise_loop_no_raise n i revised a r a' :
  registered csp x_i x_j → is_Some (dget a x_j) →
  revise_loop csp x_i x_j n i revised a = (r, a') →
  is_Some (dget a x_i) → ∀ e, r ≠ Raise e.
Proof.
  intros (cs & ps & Hcs & Hps). revert i revised a.
  induction n as [|n IH]; intros i revised a Hj Hrun [l Hl] e.
  - by inversion Hrun.
  - rewrite revise_loop_S, Hl in Hrun.
    destruct (l !! i) as [x|]; [|by inversion Hrun].
    destruct Hj as [dj Hdj]. rewrite Hdj in Hrun.
    rewrite (has_support_registered _ _ _ _ _ _ Hcs Hps) in Hrun.
    destruct (existsb _ dj).
    + eapply IH; eauto.
    + eapply IH; [| done |].
      * rewrite dget_dset. case_decide; eauto.
      * rewrite dget_dset_eq. eauto.
Qed.

End ReviseFacts.

(** ** AC-3 *)

Section InferenceFacts.
Context {V : Type} `{EqDecision V} (csp : @CSP V).
Implicit Types (a : @assignment V) (queue : list arc).

Lemma inference_loop_nil n a :
  inference_loop csp (S n) [] a = (Ret (PDict a), a).
Proof. done. Qed.

(** One pass through the [while] loop. *)
Lemma inference_loop_cons n x_j x_i queue a :
  inference_loop csp (S n) ((x_j, x_i) :: queue) a =
  match revise csp x_i x_j a with
  | (Ret true, a1) =>
      match dget a1 x_i with
      | None => (Raise (KeyError x_i), a1)
      | Some d =>
          if bool_decide (length d = 0) then (Ret PFalse, a1)
          else
            match get_all_neighboring_arcs csp x_i with
            | Ret arcs =>
                inference_loop csp n
                  (queue ++ filter (λ x, tuple_mentions x_j x = false) arcs) a1
            | Raise e => (Raise e, a1)
            | OutOfFuel => (OutOfFuel, a1)
            end
      end
  | (Ret false, a1) => inference_loop csp n queue a1
  | (Raise e, a1) => (Raise e, a1)
  | (OutOfFuel, a1) => (OutOfFuel, a1)
  end.
Proof.
  simpl. unfold bind at 1.
  destruct (revise csp x_i x_j a) as [[[]|e|] a1]; try done.
  unfold bind, get, lift, subscript, ret.
  destruct (dget a1 x_i) as [d|]; [|done].
  case_bool_decide; [done|].
  by destruct (get_all_neighboring_arcs csp x_i).
Qed.

Lemma neighboring_arcs_length var arcs :
  get_all_neighboring_arcs csp var = Ret arcs →
  length arcs ≤ length (get_all_arcs csp).
Proof.
  unfold get_all_neighboring_arcs, get_all_arcs.
  destruct (dget (constraints csp) var) as [cs|] eqn:Hcs; [|done].
  intros [= <-]. rewrite length_map.
  induction (constraints csp) as [|[k cs'] d IH]; simpl in *; [done|].
  rewrite length_app, length_map.
  destruct (decide (var = k)).
  - injection Hcs as ->. apply Nat.le_add_r.
  - etrans; [apply (IH Hcs) | apply Nat.le_add_l].
Qed.

Lemma neighboring_arcs_fuel var : get_all_neighboring_arcs csp var ≠ OutOfFuel.
Proof.
  unfold get_all_neighboring_arcs. by destruct (dget (constraints csp) var).
Qed.

Lemma inference_loop_fuel n queue a :
  inference_measure csp queue a < n →
  (inference_loop csp n queue a).1 ≠ OutOfFuel.
Proof.
  unfold inference_measure. revert queue a.
  induction n as [|n IH]; intros queue a Hn; [lia|].
  destruct queue as [|[x_j x_i] queue]; [done|].
  rewrite inference_loop_cons.
  pose proof (revise_fuel csp x_i x_j a) as Hfuel.
  destruct (revise csp x_i x_j a) as [[[]|e|] a1] eqn:Hrev; [| |done|done].
  - apply revise_effect in Hrev as (_ & _ & Hlt). specialize (Hlt eq_refl).
    destruct (dget a1 x_i) as [d|]; [|done].
    case_bool_decide; [done|].
    pose proof (neighboring_arcs_fuel x_i).
    destruct (get_all_neighboring_arcs csp x_i) as [arcs| |] eqn:Harcs;
      [|done|done].
    apply IH. rewrite length_app. simpl in Hn.
    pose proof (neighboring_arcs_length _ _ Harcs).
    pose proof (length_filter (λ x, tuple_mentions x_j x = false) arcs).
    nia.
  - apply revise_effect in Hrev as (_ & Hsame & _).
    rewrite (Hsame eq_refl). apply IH. simpl in Hn. lia.
Qed.

(** [inference] itself never runs out of fuel. *)
Lemma inference_fuel_enough queue a : (inference csp queue a).1 ≠ OutOfFuel.
Proof.
  apply inference_loop_fuel. unfold inference_fuel, inference_measure. lia.
Qed.

(** What [inference] does to the assignment it is given. *)
Lemma inference_loop_effect n queue a r a' :
  inference_loop csp n queue a = (r, a') →
  narrows a a' ∧
  (∀ d, r = Ret (PDict d) → d = a') ∧
  (r = Ret PFalse →
     (∃ x, dget a' x = Some []) ∧ total_size a' < total_size a).
Proof.
  revert queue a. induction n as [|n IH]; intros queue a Hrun.
  - inversion Hrun; subst. split_and!; [apply narrows_refl | done | done].
  - destruct queue as [|[x_j x_i] queue].
    { inversion Hrun; subst.
      split_and!; [apply narrows_refl | by intros d [= ->] | done]. }
    rewrite inference_loop_cons in Hrun.
    destruct (revise csp x_i x_j a) as [[[]|e|] a1] eqn:Hrev.
    + apply revise_effect in Hrev as (Hnar & _ & Hlt). specialize (Hlt eq_refl).
      destruct (dget a1 x_i) as [d|] eqn:Hd;
        [|inversion Hrun; subst; done].
      case_bool_decide as Hlen.
      { inversion Hrun; subst. split_and!; [done | done |].
        intros _. split; [|done].
        exists x_i. by destruct d. }
      destruct (get_all_neighboring_arcs csp x_i) as [arcs| |];
        [|inversion Hrun; subst; done..].
      apply IH in Hrun as (Hnar' & Hdict & Hfalse).
      pose proof (narrows_total_size _ _ Hnar').
      split_and!; [by eapply narrows_trans | done |].
      intros Hr. destruct (Hfalse Hr) as [Hx Hsize]. split; [done | lia].
    + apply revise_effect in Hrev as (_ & Hsame & _).
      rewrite (Hsame eq_refl) in Hrun. by eapply IH.
    + apply revise_effect in Hrev as (Hnar & _ & _).
      inversion Hrun; subst. done.
    + apply revise_effect in Hrev as (Hnar & _ & _).
      inversion Hrun; subst. done.
Qed.

End InferenceFacts.

(** ** Backtracking: one candidate value *)

Section TryFacts.
Context {V : Type} `{EqDecision V} (csp : @CSP V).
Implicit Types (a snapshot : @assignment V) (queue : list arc) (c : counters).

(** Revising a one-value domain either keeps it or empties it. *)
Lemma revise_singleton key x_j a v r a' :
  dget a key = Some [v] →
  revise csp key x_j a = (r, a') →
  (r = Ret false ∧ a' = a) ∨
  (r = Ret true ∧ a' = dset a key []) ∨
  (∃ e, r = Raise e ∧ a' = a).
Proof.
  intros Hv. rewrite revise_unfold, Hv.
  change (length [v]) with 1. rewrite revise_loop_S, Hv.
  change ([v] !! 0) with (Some v).
  destruct (dget a x_j) as [dj|]; [|intros [= <- <-]; eauto].
  destruct (has_support csp key x_j v dj) as [[]|e|] eqn:Hs.
  - rewrite revise_loop_S, Hv. change ([v] !! 1) with (@None V).
    intros [= <- <-]. eauto.
  - rewrite revise_loop_S, dget_dset_eq.
    change (delete 0 [v] !! 1) with (@None V).
    intros [= <- <-]. eauto.
  - intros [= <- <-]. eauto.
  - by apply has_support_fuel in Hs.
Qed.

(** When every arc of the queue targets a variable whose domain is one
    value, [inference] leaves all other domains alone: it changes nothing,
    or it empties that one domain and fails. *)
Lemma inference_loop_singleton n key queue a v r a' :
  dget a key = Some [v] →
  Forall (λ x : arc, x.2 = key) queue →
  inference_loop csp n queue a = (r, a') →
  (a' = a ∧ r ≠ Ret PFalse) ∨ (r = Ret PFalse ∧ a' = dset a key []).
Proof.
  intros Hv. revert queue.
  induction n as [|n IH]; intros queue Hq Hrun.
  - inversion Hrun; subst. by left.
  - destruct queue as [|[x_j x_i] queue]; [inversion Hrun; subst; by left|].
    apply Forall_cons in Hq as [Hkey Hq]. simpl in Hkey. subst x_i.
    rewrite inference_loop_cons in Hrun.
    destruct (revise csp key x_j a) as [r1 a1] eqn:Hrev.
    apply (revise_singleton _ _ _ _ _ _ Hv) in Hrev
      as [[-> ->]|[[-> ->]|(e & -> & ->)]].
    + by apply (IH queue).
    + rewrite dget_dset_eq in Hrun. simpl in Hrun.
      inversion Hrun; subst. by right.
    + inversion Hrun; subst. by left.
Qed.

Lemma neighboring_arcs_target key arcs :
  get_all_neighboring_arcs csp key = Ret arcs →
  Forall (λ x : arc, x.2 = key) arcs.
Proof.
  unfold get_all_neighboring_arcs.
  destruct (dget (constraints csp) key) as [cs|]; [|done].
  intros [= <-]. apply Forall_forall. intros x.
  rewrite list_elem_of_fmap.
  by intros (k & -> & _).
Qed.

Lemma inference_singleton key arcs a v r a' :
  dget a key = Some [v] →
  get_all_neighboring_arcs csp key = Ret arcs →
  inference csp arcs a = (r, a') →
  (a' = a ∧ r ≠ Ret PFalse) ∨ (r = Ret PFalse ∧ a' = dset a key []).
Proof.
  intros Hv Harcs Hrun.
  eapply inference_loop_singleton;
    [exact Hv | by apply neighboring_arcs_target | exact Hrun].
Qed.

Lemma select_unassigned_variable_Ret a key :
  select_unassigned_variable a = Ret key →
  ∃ d, dget a key = Some d ∧ 1 < length d.
Proof.
  unfold select_unassigned_variable.
  destruct (filter _ (keys a)) as [|k ks] eqn:Hf; [done|].
  intros [= ->].
  assert (key ∈ filter (λ key, unassigned a key) (keys a)) as Hin.
  { rewrite Hf. apply list_elem_of_here. }
  apply list_elem_of_filter in Hin as [Hun _].
  unfold unassigned in Hun. destruct (dget a key) as [d|]; [|done].
  exists d. split; [done|]. by apply bool_decide_unpack in Hun.
Qed.

Lemma select_unassigned_variable_fuel a :
  select_unassigned_variable a ≠ OutOfFuel.
Proof.
  unfold select_unassigned_variable. by destruct (filter _ (keys a)).
Qed.

(** One iteration of the [for value in var] loop. *)
Lemma try_values_cons rec key value var ass2 c :
  try_values rec csp key (value :: var) ass2 c =
  match get_all_neighboring_arcs csp key with
  | Ret arcs =>
      match inference csp arcs (dset ass2 key [value]) with
      | (Ret inf, ass2') =>
          if truthy inf then
            match rec ass2' c with
            | (Ret res, c') =>
                if truthy res then (Ret res, c')
                else try_values rec csp key var ass2' c'
            | (Raise e, c') => (Raise e, c')
            | (OutOfFuel, c') => (OutOfFuel, c')
            end
          else try_values rec csp key var ass2' c
      | (Raise e, _) => (Raise e, c)
      | (OutOfFuel, _) => (OutOfFuel, c)
      end
  | Raise e => (Raise e, c)
  | OutOfFuel => (OutOfFuel, c)
  end.
Proof.
  simpl. rewrite dset_dset. unfold bind at 1, lift at 1.
  destruct (get_all_neighboring_arcs csp key) as [arcs| |]; [|done..].
  destruct (inference csp arcs (dset ass2 key [value])) as [[inf| |] ass2'];
    [|done..].
  unfold bind at 1, lift at 1. destruct (truthy inf); [|done].
  unfold bind at 1. destruct (rec ass2' c) as [[res| |] c']; [|done..].
  by destruct (truthy res).
Qed.

Lemma try_values_cloned_cons rec key value var snapshot c :
  try_values_cloned rec csp key (value :: var) snapshot c =
  match get_all_neighboring_arcs csp key with
  | Ret arcs =>
      match inference csp arcs (dset snapshot key [value]) with
      | (Ret inf, clone) =>
          if truthy inf then
            match rec clone c with
            | (Ret res, c') =>
                if truthy res then (Ret res, c')
                else try_values_cloned rec csp key var snapshot c'
            | (Raise e, c') => (Raise e, c')
            | (OutOfFuel, c') => (OutOfFuel, c')
            end
          else try_values_cloned rec csp key var snapshot c
      | (Raise e, _) => (Raise e, c)
      | (OutOfFuel, _) => (OutOfFuel, c)
      end
  | Raise e => (Raise e, c)
  | OutOfFuel => (OutOfFuel, c)
  end.
Proof.
  simpl. unfold bind at 1, lift at 1.
  destruct (get_all_neighboring_arcs csp key) as [arcs| |]; [|done..].
  destruct (inference csp arcs (dset snapshot key [value]))
    as [[inf| |] clone]; [|done..].
  unfold bind at 1, lift at 1. destruct (truthy inf); [|done].
  unfold bind at 1. destruct (rec clone c) as [[res| |] c']; [|done..].
  by destruct (truthy res).
Qed.

(** The loop of the source, which reuses one copy for all values, computes
    what the loop with one clone per value computes. *)
Lemma try_values_isolated rec rec' key var snapshot :
  (∀ a c, rec a c = rec' a c) →
  is_Some (dget snapshot key) →
  ∀ d c,
    try_values rec csp key var (dset snapshot key d) c =
    try_values_cloned rec' csp key var snapshot c.
Proof.
  intros Hrec Hkey. induction var as [|value var IH]; intros d c; [done|].
  rewrite try_values_cons, try_values_cloned_cons, dset_dset.
  destruct (get_all_neighboring_arcs csp key) as [arcs| |] eqn:Harcs;
    [|done..].
  destruct (inference csp arcs (dset snapshot key [value]))
    as [[inf| |] a'] eqn:Hinf; [|done..].
  apply (inference_singleton key arcs _ value) in Hinf as Hshape;
    [|apply dget_dset_eq|done].
  assert (∃ d', a' = dset snapshot key d') as [d' Ha'].
  { destruct Hshape as [[-> _]|[_ ->]]; [by eexists|].
    rewrite dset_dset. by eexists. }
  destruct (truthy inf).
  - rewrite <-Hrec. destruct (rec a' c) as [[res| |] c']; [|done..].
    destruct (truthy res); [done|]. rewrite Ha'. apply IH.
  - rewrite Ha'. apply IH.
Qed.

End TryFacts.

(** ** Backtracking: the recursion *)

Section BacktrackFacts.
Context {V : Type} `{EqDecision V} (vlt : V → V → bool) (csp : @CSP V).
Implicit Types (a snapshot : @assignment V) (c : counters).

Lemma backtrack_fuel_S n a c :
  backtrack_fuel vlt (S n) csp a c =
  let c1 := Counters (S (backtrack_call_count c)) (failure_count c) in
  if bool_decide (Forall (λ x, length x = 1) (values a)) then (Ret (PDict a), c1)
  else
    match select_unassigned_variable a with
    | Ret key =>
        match dget a key with
        | Some var =>
            try_values (backtrack_fuel vlt n csp) csp key (sort vlt var)
              (dset a key (sort vlt var)) c1
        | None => (Raise (KeyError key), c1)
        end
    | Raise e => (Raise e, c1)
    | OutOfFuel => (OutOfFuel, c1)
    end.
Proof.
  simpl. unfold bind at 1, incr_backtrack_call_count at 1.
  case_bool_decide; [done|].
  unfold bind at 1, lift at 1.
  destruct (select_unassigned_variable a) as [key| |]; [|done..].
  unfold bind at 1, lift at 1, subscript.
  by destruct (dget a key).
Qed.

Lemma backtrack_cloned_fuel_S n a c :
  backtrack_cloned_fuel vlt (S n) csp a c =
  let c1 := Counters (S (backtrack_call_count c)) (failure_count c) in
  if bool_decide (Forall (λ x, length x = 1) (values a)) then (Ret (PDict a), c1)
  else
    match select_unassigned_variable a with
    | Ret key =>
        match dget a key with
        | Some var =>
            try_values_cloned (backtrack_cloned_fuel vlt n csp) csp key
              (sort vlt var) a c1
        | None => (Raise (KeyError key), c1)
        end
    | Raise e => (Raise e, c1)
    | OutOfFuel => (OutOfFuel, c1)
    end.
Proof.
  simpl. unfold bind at 1, incr_backtrack_call_count at 1.
  case_bool_decide; [done|].
  unfold bind at 1, lift at 1.
  destruct (select_unassigned_variable a) as [key| |]; [|done..].
  unfold bind at 1, lift at 1, subscript.
  by destruct (dget a key).
Qed.

Lemma backtrack_fuel_isolated n a c :
  backtrack_fuel vlt n csp a c = backtrack_cloned_fuel vlt n csp a c.
Proof.
  revert a c. induction n as [|n IH]; intros a c; [done|].
  rewrite backtrack_fuel_S, backtrack_cloned_fuel_S. simpl.
  case_bool_decide; [done|].
  destruct (select_unassigned_variable a) as [key| |]; [|done..].
  destruct (dget a key) as [var|] eqn:Hvar; [|done].
  apply try_values_isolated; [done | by rewrite Hvar].
Qed.

(** *** Termination *)

Lemma filter_length_lt {A} (P Q : A → Prop)
    `{!∀ x, Decision (P x)} `{!∀ x, Decision (Q x)} (l : list A) x :
  (∀ y, P y → Q y) → x ∈ l → Q x → ¬ P x →
  length (filter P l) < length (filter Q l).
Proof.
  intros HPQ. induction l as [|y l IH]; [by intros ?%elem_of_nil|].
  assert (length (filter P l) ≤ length (filter Q l)) as Hle.
  { clear IH. induction l as [|z l IHl]; [done|].
    rewrite !filter_cons. destruct (decide (P z)) as [HP|HP].
    - rewrite decide_True by auto. simpl. lia.
    - destruct (decide (Q z)); simpl; lia. }
  intros [->|Hin]%elem_of_cons HQ HnP; rewrite !filter_cons.
  - rewrite decide_False, decide_True by done. simpl. lia.
  - specialize (IH Hin HQ HnP).
    destruct (decide (P y)) as [HP|HP].
    + rewrite decide_True by auto. simpl. lia.
    + destruct (decide (Q y)); simpl; lia.
Qed.

(** Fixing an undecided variable to one value lowers the depth bound. *)
Lemma backtrack_depth_dset a key d v :
  dget a key = Some d → 1 < length d →
  backtrack_depth (dset a key [v]) < backtrack_depth a.
Proof.
  intros Hd Hlen. unfold backtrack_depth.
  rewrite keys_dset by (by rewrite Hd).
  apply ->Nat.succ_lt_mono.
  apply (filter_length_lt _ _ _ key).
  - intros k. unfold unassigned. rewrite dget_dset.
    case_decide; [|done]. simpl. by intros [].
  - apply dget_is_Some_keys. by rewrite Hd.
  - unfold unassigned. rewrite Hd. by apply bool_decide_pack.
  - unfold unassigned. rewrite dget_dset_eq. simpl. by intros [].
Qed.

Lemma try_values_cloned_fuel rec key var snapshot c :
  (∀ v c, (rec (dset snapshot key [v]) c).1 ≠ OutOfFuel) →
  (try_values_cloned rec csp key var snapshot c).1 ≠ OutOfFuel.
Proof.
  intros Hrec. revert c. induction var as [|value var IH]; intros c; [done|].
  rewrite try_values_cloned_cons.
  pose proof (neighboring_arcs_fuel csp key) as Hnf.
  destruct (get_all_neighboring_arcs csp key) as [arcs| |] eqn:Harcs;
    [|done..].
  pose proof (inference_fuel_enough csp arcs (dset snapshot key [value])) as Hif.
  destruct (inference csp arcs (dset snapshot key [value]))
    as [[inf| |] a'] eqn:Hinf; [|done..].
  apply (inference_singleton csp key arcs _ value) in Hinf as Hshape;
    [|apply dget_dset_eq|done].
  destruct (truthy inf) eqn:Htr; [|apply IH].
  destruct Hshape as [[-> _]|[[= ->] _]]; [|done].
  pose proof (Hrec value c) as Hr.
  destruct (rec (dset snapshot key [value]) c) as [[res| |] c']; [|done..].
  destruct (truthy res); [done | apply IH].
Qed.

Lemma backtrack_cloned_fuel_enough n a c :
  backtrack_depth a ≤ n → (backtrack_cloned_fuel vlt n csp a c).1 ≠ OutOfFuel.
Proof.
  revert a c. induction n as [|n IH]; intros a c Hn.
  { unfold backtrack_depth in Hn. lia. }
  rewrite backtrack_cloned_fuel_S. simpl.
  case_bool_decide; [done|].
  pose proof (select_unassigned_variable_fuel a) as Hsel.
  destruct (select_unassigned_variable a) as [key| |] eqn:Hkey; [|done..].
  apply select_unassigned_variable_Ret in Hkey as (d & Hd & Hlen).
  rewrite Hd. apply try_values_cloned_fuel. intros v c'. apply IH.
  pose proof (backtrack_depth_dset a key d v Hd Hlen). lia.
Qed.

(** [backtrack] never runs out of fuel. *)
Lemma backtrack_fuel_enough a c : (backtrack vlt csp a c).1 ≠ OutOfFuel.
Proof.
  unfold backtrack. rewrite backtrack_fuel_isolated.
  by apply backtrack_cloned_fuel_enough.
Qed.

End BacktrackFacts.

(** ** The global counters *)

Section CounterFacts.
Context {V : Type} `{EqDecision V} (vlt : V → V → bool) (csp : @CSP V).
Implicit Types (a : @assignment V) (c d : counters).

Lemma counters_add_zero c : counters_add c (Counters 0 0) = c.
Proof. destruct c as [n m]. unfold counters_add; simpl. f_equal; lia. Qed.

Lemma counters_add_assoc c d e :
  counters_add (counters_add c d) e = counters_add c (counters_add d e).
Proof. unfold counters_add; simpl. f_equal; lia. Qed.

(** The loop adds to the counters an amount that does not depend on what
    they held, provided the recursive call does. *)
Lemma try_values_uniform rec key var ass2 :
  (∀ a, ∃ r d, ∀ c, rec a c = (r, counters_add c d)) →
  ∃ r d, ∀ c, try_values rec csp key var ass2 c = (r, counters_add c d).
Proof.
  intros Hrec. revert ass2. induction var as [|value var IH]; intros ass2.
  { exists (Ret PFalse), (Counters 0 1). intros [n m].
    unfold counters_add; simpl. unfold bind, incr_failure_count, ret; simpl.
    do 2 f_equal; lia. }
  destruct (get_all_neighboring_arcs csp key) as [arcs|e|] eqn:Harcs.
  - destruct (inference csp arcs (dset ass2 key [value]))
      as [[inf|e|] ass2'] eqn:Hinf.
    + destruct (truthy inf) eqn:Hinf_true.
      * destruct (Hrec ass2') as (r & d & Hr).
        destruct (IH ass2') as (r2 & d2 & Hr2).
        destruct r as [res|e|].
        -- destruct (truthy res) eqn:Hres.
           ++ exists (Ret res), d. intros c.
              by rewrite try_values_cons, Harcs, Hinf, Hinf_true, Hr, Hres.
           ++ exists r2, (counters_add d d2). intros c.
              rewrite try_values_cons, Harcs, Hinf, Hinf_true, Hr, Hres, Hr2.
              by rewrite counters_add_assoc.
        -- exists (Raise e), d. intros c.
           by rewrite try_values_cons, Harcs, Hinf, Hinf_true, Hr.
        -- exists OutOfFuel, d. intros c.
           by rewrite try_values_cons, Harcs, Hinf, Hinf_true, Hr.
      * destruct (IH ass2') as (r2 & d2 & Hr2). exists r2, d2. intros c.
        by rewrite try_values_cons, Harcs, Hinf, Hinf_true, Hr2.
    + exists (Raise e), (Counters 0 0). intros c.
      by rewrite try_values_cons, Harcs, Hinf, counters_add_zero.
    + exists OutOfFuel, (Counters 0 0). intros c.
      by rewrite try_values_cons, Harcs, Hinf, counters_add_zero.
  - exists (Raise e), (Counters 0 0). intros c.
    by rewrite try_values_cons, Harcs, counters_add_zero.
  - exists OutOfFuel, (Counters 0 0). intros c.
    by rewrite try_values_cons, Harcs, counters_add_zero.
Qed.

Lemma incr_call_add c d :
  Counters (S (backtrack_call_count c)) (failure_count c) =
  counters_add c (Counters 1 0).
Proof. unfold counters_add; simpl. f_equal; lia. Qed.

Lemma backtrack_fuel_uniform n a :
  ∃ r d, ∀ c, backtrack_fuel vlt n csp a c = (r, counters_add c d).
Proof.
  revert a. induction n as [|n IH]; intros a.
  { exists OutOfFuel, (Counters 0 0). intros c. by rewrite counters_add_zero. }
  destruct (bool_decide (Forall (λ x, length x = 1) (values a))) eqn:Hall.
  { exists (Ret (PDict a)), (Counters 1 0). intros c.
    rewrite backtrack_fuel_S. simpl. rewrite Hall. by rewrite incr_call_add. }
  destruct (select_unassigned_variable a) as [key|e|] eqn:Hkey.
  - destruct (dget a key) as [var|] eqn:Hvar.
    + destruct (try_values_uniform (backtrack_fuel vlt n csp) key
        (sort vlt var) (dset a key (sort vlt var)) IH) as (r & d & Hr).
      exists r, (counters_add (Counters 1 0) d). intros c.
      rewrite backtrack_fuel_S. simpl. rewrite Hall, Hkey, Hvar.
      by rewrite incr_call_add, Hr, counters_add_assoc.
    + exists (Raise (KeyError key)), (Counters 1 0). intros c.
      rewrite backtrack_fuel_S. simpl. rewrite Hall, Hkey, Hvar.
      by rewrite incr_call_add.
  - exists (Raise e), (Counters 1 0). intros c.
    rewrite backtrack_fuel_S. simpl. rewrite Hall, Hkey.
    by rewrite incr_call_add.
  - exists OutOfFuel, (Counters 1 0). intros c.
    rewrite backtrack_fuel_S. simpl. rewrite Hall, Hkey.
    by rewrite incr_call_add.
Qed.

Lemma backtracking_search_uniform :
  ∃ r d, ∀ c, backtracking_search vlt csp c = (r, counters_add c d).
Proof.
  unfold backtracking_search.
  destruct (inference csp (get_all_arcs csp) (domains csp))
    as [[pre|e|] a] eqn:Hpre.
  - destruct (backtrack_fuel_uniform (backtrack_depth a) a) as (r & d & Hr).
    exists r, d. intros c. unfold bind, lift. apply Hr.
  - exists (Raise e), (Counters 0 0). intros c.
    unfold bind, lift. by rewrite counters_add_zero.
  - exists OutOfFuel, (Counters 0 0). intros c.
    unfold bind, lift. by rewrite counters_add_zero.
Qed.

End CounterFacts.

(** ** Completeness of the search on well-formed two-way models *)

Section Completeness.
Context {V : Type} `{EqDecision V} (vlt : V → V → bool) (csp : @CSP V).
Context (s : string → V).
Hypothesis Hwf : well_formed csp.
Hypothesis Hsat : satisfying csp s.
Implicit Types (a : @assignment V) (queue : list arc) (c : counters).

Lemma elem_of_delete_other (l : list V) i x y :
  y ∈ l → l !! i = Some x → x ≠ y → y ∈ delete i l.
Proof.
  intros [j Hj]%list_elem_of_lookup Hi Hne.
  apply list_elem_of_lookup.
  destruct (decide (j < i)) as [Hlt|Hge].
  - exists j. by rewrite list_lookup_delete_lt.
  - assert (j ≠ i) by (intros ->; congruence).
    exists (pred j). rewrite list_lookup_delete_ge by lia.
    by replace (S (pred j)) with j by lia.
Qed.

Lemma has_support_true i j cs ps x y dj :
  dget (constraints csp) i = Some cs → dget cs j = Some ps →
  y ∈ dj → (x, y) ∈ ps →
  has_support csp i j x dj = Ret true.
Proof.
  intros Hcs Hps Hy Hxy. rewrite (has_support_registered _ _ _ _ _ _ _ Hcs Hps).
  f_equal. apply existsb_exists. exists y.
  split; [by apply list_elem_of_In | by apply bool_decide_eq_true].
Qed.

Lemma registered_in_assignment a i j :
  same_variables csp a → registered csp i j →
  is_Some (dget a i) ∧ is_Some (dget a j).
Proof.
  intros Hkeys Hreg. destruct (wf_vars _ Hwf _ _ Hreg) as [Hi Hj].
  rewrite !dget_is_Some_keys in *. by rewrite Hkeys.
Qed.

Lemma neighboring_arcs_registered x_i arcs :
  get_all_neighboring_arcs csp x_i = Ret arcs →
  Forall (λ x : arc, registered csp x.2 x.1) arcs.
Proof.
  unfold get_all_neighboring_arcs.
  destruct (dget (constraints csp) x_i) as [cs|] eqn:Hcs; [|done].
  intros [= <-]. apply Forall_forall. intros x.
  rewrite list_elem_of_fmap.
  intros (k & -> & Hk). simpl.
  apply dget_is_Some_keys in Hk as [ps Hps]. by exists cs, ps.
Qed.

Lemma all_arcs_registered x :
  x ∈ get_all_arcs csp → registered csp x.1 x.2.
Proof.
  unfold get_all_arcs. rewrite list_elem_of_In, in_flat_map.
  intros ([i cs] & Hin & Hx). apply list_elem_of_In in Hin.
  apply in_map_iff in Hx as (j & <- & Hj). simpl.
  apply list_elem_of_In, dget_is_Some_keys in Hj as [ps Hps].
  exists cs, ps. split; [|done].
  apply dget_elem_NoDup; [|done]. rewrite (wf_table _ Hwf). apply Hwf.
Qed.

(** *** Revise keeps the values of a satisfying assignment *)

Lemma revise_no_raise x_i x_j a r a' :
  same_variables csp a → registered csp x_i x_j →
  revise csp x_i x_j a = (r, a') → ∀ e, r ≠ Raise e.
Proof.
  intros Hkeys Hreg.
  destruct (registered_in_assignment a _ _ Hkeys Hreg) as [[l Hl] Hj].
  rewrite revise_unfold, Hl. intros Hrun.
  eapply revise_loop_no_raise; eauto.
Qed.

Lemma revise_contains x_i x_j a r a' :
  registered csp x_i x_j → contains a s →
  revise csp x_i x_j a = (r, a') → contains a' s.
Proof.
  intros (cs & ps & Hcs & Hps) Hin. rewrite revise_unfold.
  destruct (dget a x_i) as [l|] eqn:Hl; [|by intros [= <- <-]].
  intros Hrun.
  apply (revise_loop_invariant _ _ _ (λ _ a1, contains a1 s)) in Hrun
    as (_ & Hin' & _); [done| |done].
  intros _ a1 l1 i x dj Hin1 Hl1 Hx Hdj Hs k d.
  rewrite dget_dset. case_decide as Hk; [|apply Hin1].
  intros [= <-]. subst k.
  apply (elem_of_delete_other _ _ x); [by apply Hin1 | done |].
  intros ->.
  rewrite (has_support_true _ _ cs ps _ (s x_j)) in Hs;
    [done | done | done | by apply Hin1 | by eapply (proj2 Hsat)].
Qed.

(** *** The AC-3 pass removes no value of a satisfying assignment *)

Lemma inference_loop_no_raise n queue a r a' :
  same_variables csp a →
  Forall (λ x : arc, registered csp x.2 x.1) queue →
  inference_loop csp n queue a = (r, a') → ∀ e, r ≠ Raise e.
Proof.
  revert queue a. induction n as [|n IH]; intros queue a Hkeys Hq Hrun e.
  { by inversion Hrun. }
  destruct queue as [|[x_j x_i] queue]; [by inversion Hrun|].
  apply Forall_cons in Hq as [Hreg Hq]. simpl in Hreg.
  rewrite inference_loop_cons in Hrun.
  destruct (revise csp x_i x_j a) as [r1 a1] eqn:Hrev.
  pose proof (revise_no_raise _ _ _ _ _ Hkeys Hreg Hrev) as Hnr.
  apply revise_effect in Hrev as (Hnar & Hsame & _).
  assert (same_variables csp a1) as Hkeys1.
  { unfold same_variables. by rewrite (narrows_keys _ _ Hnar). }
  destruct r1 as [[]|e1|]; [| |by destruct (Hnr e1)|by inversion Hrun].
  - destruct (registered_in_assignment a1 _ _ Hkeys1 Hreg) as [[d Hd] _].
    rewrite Hd in Hrun. case_bool_decide; [by inversion Hrun|].
    destruct Hreg as (cs & ps & Hcs & Hps) eqn:Hreg'. clear Hreg'.
    destruct (get_all_neighboring_arcs csp x_i) as [arcs| |] eqn:Harcs.
    + eapply IH; [exact Hkeys1 | | exact Hrun].
      apply Forall_app. split; [done|].
      apply Forall_forall. intros x Hx.
      apply list_elem_of_filter in Hx as [_ Hx].
      pose proof (neighboring_arcs_registered _ _ Harcs) as Hall.
      eapply Forall_forall in Hall; eauto.
    + unfold get_all_neighboring_arcs in Harcs. by rewrite Hcs in Harcs.
    + by inversion Hrun.
  - eapply IH; [exact Hkeys1 | exact Hq | exact Hrun].
Qed.

Lemma inference_loop_contains n queue a r a' :
  Forall (λ x : arc, registered csp x.2 x.1) queue →
  contains a s →
  inference_loop csp n queue a = (r, a') →
  contains a' s ∧ r ≠ Ret PFalse.
Proof.
  revert queue a. induction n as [|n IH]; intros queue a Hq Hin Hrun.
  { by inversion Hrun; subst. }
  destruct queue as [|[x_j x_i] queue]; [by inversion Hrun; subst|].
  apply Forall_cons in Hq as [Hreg Hq]. simpl in Hreg.
  rewrite inference_loop_cons in Hrun.
  destruct (revise csp x_i x_j a) as [r1 a1] eqn:Hrev.
  pose proof (revise_contains _ _ _ _ _ Hreg Hin Hrev) as Hin1.
  destruct r1 as [[]|e1|]; [| |by inversion Hrun; subst..].
  - destruct (dget a1 x_i) as [d|] eqn:Hd; [|by inversion Hrun; subst].
    case_bool_decide as Hlen.
    { apply Hin1 in Hd. destruct d; [by apply elem_of_nil in Hd | done]. }
    destruct (get_all_neighboring_arcs csp x_i) as [arcs| |] eqn:Harcs;
      [|by inversion Hrun; subst..].
    eapply IH; [| exact Hin1 | exact Hrun].
    apply Forall_app. split; [done|].
    apply Forall_forall. intros x Hx.
    apply list_elem_of_filter in Hx as [_ Hx].
    pose proof (neighboring_arcs_registered _ _ Harcs) as Hall.
    eapply Forall_forall in Hall; eauto.
  - eapply IH; [exact Hq | exact Hin1 | exact Hrun].
Qed.

(** *** The search *)

Lemma elem_of_insert_sorted x y (l : list V) :
  x ∈ insert_sorted vlt y l ↔ x = y ∨ x ∈ l.
Proof.
  induction l as [|z l IH]; simpl.
  - rewrite list_elem_of_singleton, elem_of_nil. tauto.
  - destruct (vlt z y); rewrite !elem_of_cons; [rewrite IH|]; tauto.
Qed.

Lemma elem_of_sort x (l : list V) : x ∈ sort vlt l ↔ x ∈ l.
Proof.
  unfold sort. induction l as [|y l IH]; simpl; [done|].
  rewrite elem_of_insert_sorted, elem_of_cons, IH. done.
Qed.

Lemma select_unassigned_variable_exists a :
  NoDup (keys a) → nonempty a →
  ¬ Forall (λ x, length x = 1) (values a) →
  ∃ key, select_unassigned_variable a = Ret key.
Proof.
  intros Hnd Hne Hall.
  apply not_Forall_Exists in Hall; [|apply _].
  apply Exists_exists in Hall as (d & Hd & Hlen).
  apply list_elem_of_fmap in Hd as ([k d'] & -> & Hin). simpl in Hlen.
  pose proof (dget_elem_NoDup _ _ _ Hnd Hin) as Hget.
  assert (k ∈ filter (λ key, unassigned a key) (keys a)) as Hk.
  { apply list_elem_of_filter. split.
    - unfold unassigned. rewrite Hget. apply bool_decide_pack.
      specialize (Hne _ _ Hget). destruct d' as [|? [|? ?]]; simpl in *;
        [done | done | lia].
    - apply dget_is_Some_keys. by rewrite Hget. }
  unfold select_unassigned_variable.
  destruct (filter _ (keys a)) as [|key ks]; [by apply elem_of_nil in Hk|].
  by exists key.
Qed.

(** Trying a value: AC-3 over the arcs into [key] either accepts the
    value and changes nothing, or rejects it. *)
Lemma try_inference a key d0 v :
  same_variables csp a → dget a key = Some d0 →
  ∃ arcs, get_all_neighboring_arcs csp key = Ret arcs ∧
    (inference csp arcs (dset a key [v]) =
       (Ret (PDict (dset a key [v])), dset a key [v]) ∨
     (inference csp arcs (dset a key [v]) =
        (Ret PFalse, dset (dset a key [v]) key []) ∧
      ¬ contains (dset a key [v]) s)).
Proof.
  intros Hkeys Hd0.
  assert (is_Some (dget (constraints csp) key)) as [cs Hcs].
  { apply dget_is_Some_keys. rewrite (wf_table _ Hwf), <-Hkeys.
    apply dget_is_Some_keys. by rewrite Hd0. }
  assert (get_all_neighboring_arcs csp key = Ret (map (λ i, (i, key)) (keys cs)))
    as Harcs by (unfold get_all_neighboring_arcs; by rewrite Hcs).
  eexists. split; [exact Harcs|].
  set (a1 := dset a key [v]).
  assert (same_variables csp a1) as Hkeys1.
  { unfold same_variables, a1. rewrite keys_dset by (by rewrite Hd0). done. }
  pose proof (inference_fuel_enough csp (map (λ i, (i, key)) (keys cs)) a1)
    as Hfuel.
  destruct (inference csp (map (λ i, (i, key)) (keys cs)) a1) as [r a']
    eqn:Hinf.
  pose proof (neighboring_arcs_registered _ _ Harcs) as Hreg.
  pose proof (inference_loop_no_raise _ _ _ _ _ Hkeys1 Hreg Hinf) as Hnr.
  pose proof (inference_loop_effect _ _ _ _ _ _ Hinf) as (_ & Hdict & _).
  pose proof (inference_singleton csp key _ a1 v r a' (dget_dset_eq _ _ _)
                Harcs Hinf) as Hshape.
  destruct r as [[|d]|e|]; [| |by destruct (Hnr e)|done].
  - right. destruct Hshape as [[_ ?]|[_ ->]]; [done|]. split; [done|].
    intros Hin.
    by destruct (inference_loop_contains _ _ _ _ _ Hreg Hin Hinf) as [_ ?].
  - left. rewrite (Hdict d eq_refl).
    destruct Hshape as [[-> _]|[? _]]; done.
Qed.

Lemma truthy_same_variables a d key :
  same_variables csp a → same_variables csp d → is_Some (dget a key) →
  truthy (PDict d) = true.
Proof.
  unfold same_variables. intros Ha Hd Hkey%dget_is_Some_keys.
  rewrite Ha, <-Hd in Hkey. destruct d; [by apply elem_of_nil in Hkey | done].
Qed.

Lemma try_values_cloned_complete rec key d0 var a c :
  same_variables csp a → dget a key = Some d0 →
  (∀ v c, ∃ r c',
     rec (dset a key [v]) c = (Ret r, c') ∧ search_result_ok csp r ∧
     (contains (dset a key [v]) s → r ≠ PFalse)) →
  ∃ r c',
    try_values_cloned rec csp key var a c = (Ret r, c') ∧
    search_result_ok csp r ∧
    (contains a s → s key ∈ var → r ≠ PFalse).
Proof.
  intros Hkeys Hd0 Hrec. revert c.
  induction var as [|value var IH]; intros c.
  { eexists _, _. split; [done|]. split; [done|].
    by intros _ ?%elem_of_nil. }
  rewrite try_values_cloned_cons.
  destruct (try_inference a key d0 value Hkeys Hd0)
    as (arcs & -> & [->|[-> Hnot]]).
  - rewrite (truthy_same_variables a _ key Hkeys); [| |by rewrite Hd0].
    2:{ unfold same_variables. rewrite keys_dset by (by rewrite Hd0). done. }
    destruct (Hrec value c) as (r & c' & -> & Hok & Hsol).
    destruct r as [|d].
    + simpl. destruct (IH c') as (r2 & c2 & Hrun & Hok2 & Hsol2).
      exists r2, c2. split; [done|]. split; [done|].
      intros Hin [Heq|Hvar]%elem_of_cons; [|by apply Hsol2].
      exfalso. apply Hsol; [|done].
      intros k d. rewrite dget_dset. case_decide as Hk.
      * intros [= <-]. subst k. rewrite Heq. apply list_elem_of_here.
      * apply Hin.
    + rewrite (truthy_same_variables a d key Hkeys);
        [| apply Hok | by rewrite Hd0].
      by exists (PDict d), c'.
  - simpl. destruct (IH c) as (r2 & c2 & Hrun & Hok2 & Hsol2).
    exists r2, c2. split; [done|]. split; [done|].
    intros Hin [Heq|Hvar]%elem_of_cons; [|by apply Hsol2].
    exfalso. apply Hnot.
    intros k d. rewrite dget_dset. case_decide as Hk.
    + intros [= <-]. subst k. rewrite Heq. apply list_elem_of_here.
    + apply Hin.
Qed.

Lemma backtrack_cloned_complete n a c :
  same_variables csp a → nonempty a → backtrack_depth a ≤ n →
  ∃ r c',
    backtrack_cloned_fuel vlt n csp a c = (Ret r, c') ∧
    search_result_ok csp r ∧
    (contains a s → r ≠ PFalse).
Proof.
  revert a c. induction n as [|n IH]; intros a c Hkeys Hne Hn.
  { unfold backtrack_depth in Hn. lia. }
  rewrite backtrack_cloned_fuel_S. simpl.
  case_bool_decide as Hall.
  { eexists _, _. split; [done|]. split; [by split | done]. }
  destruct (select_unassigned_variable_exists a) as [key Hkey];
    [rewrite Hkeys; apply Hwf | done | done |].
  rewrite Hkey.
  apply select_unassigned_variable_Ret in Hkey as (d & Hd & Hlen).
  rewrite Hd.
  destruct (try_values_cloned_complete (backtrack_cloned_fuel vlt n csp)
              key d (sort vlt d) a
              (Counters (S (backtrack_call_count c)) (failure_count c))
              Hkeys Hd) as (r & c' & Hrun & Hok & Hsol).
  - intros v c1. apply IH.
    + unfold same_variables. rewrite keys_dset by (by rewrite Hd). done.
    + intros k dk. rewrite dget_dset. case_decide; [by intros [= <-]|].
      apply Hne.
    + pose proof (backtrack_depth_dset a key d v Hd Hlen). lia.
  - exists r, c'. split; [done|]. split; [done|].
    intros Hin. apply Hsol; [done|]. apply elem_of_sort. by apply Hin.
Qed.

End Completeness.

(** ** The concrete models are what the construction calls build *)

Lemma order_script_model : order_script = Ret order_model.
Proof. reflexivity. Qed.

Lemma clash_script_model : clash_script = Ret clash_model.
Proof. reflexivity. Qed.

Lemma one_way_script_model : one_way_script = Ret one_way_model.
Proof. reflexivity. Qed.

Lemma differ_script_model : differ_script = Ret differ_model.
Proof. reflexivity. Qed.

Lemma skew_script_model : skew_script = Ret skew_model.
Proof. reflexivity. Qed.

(** ** Checking the hypotheses on a concrete model *)

Section Checks.
Context {V : Type} `{EqDecision V} (csp : @CSP V).

Lemma registered_all_arcs i j : registered csp i j → (i, j) ∈ get_all_arcs csp.
Proof.
  intros (cs & ps & Hcs & Hps). unfold get_all_arcs.
  apply list_elem_of_In, in_flat_map. exists (i, cs).
  split; [by apply list_elem_of_In, dget_Some_elem|].
  apply in_map, list_elem_of_In, dget_is_Some_keys. by rewrite Hps.
Qed.

Lemma well_formed_check :
  NoDup (keys (domains csp)) →
  keys (constraints csp) = keys (domains csp) →
  Forall (λ x : arc, x.1 ∈ keys (domains csp) ∧ x.2 ∈ keys (domains csp))
         (get_all_arcs csp) →
  well_formed csp.
Proof.
  intros Hnd Hkeys Harcs. split; [done | done |].
  intros i j Hreg%registered_all_arcs.
  rewrite Forall_forall in Harcs. rewrite !dget_is_Some_keys.
  by apply (Harcs (i, j)).
Qed.

Lemma two_way_check :
  Forall (λ x : arc, registered csp x.2 x.1) (get_all_arcs csp) → two_way csp.
Proof.
  intros Harcs i j Hreg%registered_all_arcs.
  rewrite Forall_forall in Harcs. by apply (Harcs (i, j)).
Qed.

Lemma satisfying_check (s : string → V) :
  Forall (λ e, s e.1 ∈ e.2) (domains csp) →
  Forall (λ e, Forall (λ e', (s e.1, s e'.1) ∈ e'.2) e.2) (constraints csp) →
  satisfying csp s.
Proof.
  intros Hdom Hcon. split.
  - intros k d Hk%dget_Some_elem. rewrite Forall_forall in Hdom.
    by apply (Hdom (k, d)).
  - intros i j cs ps Hcs%dget_Some_elem Hps%dget_Some_elem.
    rewrite Forall_forall in Hcon. specialize (Hcon (i, cs) Hcs). simpl in Hcon.
    rewrite Forall_forall in Hcon. by apply (Hcon (j, ps)).
Qed.

End Checks.

(** ** Models built by the construction calls are well formed *)

Section Built.
Context {V : Type} `{EqDecision V}.
Implicit Types (csp : @CSP V).

Lemma keys_dset_same {A1 A2} (d1 : dict A1) (d2 : dict A2) k v1 v2 :
  keys d1 = keys d2 → keys (dset d1 k v1) = keys (dset d2 k v2).
Proof.
  intros Hkeys. destruct (dget d1 k) as [w|] eqn:Hk.
  - rewrite !keys_dset; [done | | by rewrite Hk].
    apply dget_is_Some_keys. rewrite <-Hkeys.
    apply dget_is_Some_keys. by rewrite Hk.
  - rewrite !keys_dset_new; [by rewrite Hkeys | | done].
    apply dget_None_keys. rewrite <-Hkeys. by apply dget_None_keys.
Qed.

Lemma NoDup_keys_dset {A1} (d : dict A1) k v :
  NoDup (keys d) → NoDup (keys (dset d k v)).
Proof.
  intros Hnd. destruct (dget d k) as [w|] eqn:Hk.
  - rewrite keys_dset; [done | by rewrite Hk].
  - rewrite keys_dset_new by done. apply NoDup_app. split_and!; [done| |].
    + intros x Hx ->%list_elem_of_singleton. by apply dget_None_keys in Hk.
    + apply NoDup_singleton.
Qed.

Lemma keys_dset_subseteq {A1} (d : dict A1) k k' v :
  k' ∈ keys d → k' ∈ keys (dset d k v).
Proof.
  rewrite <-!dget_is_Some_keys. rewrite dget_dset. by case_decide.
Qed.

Lemma add_variable_well_formed csp name domain :
  well_formed csp → well_formed (add_variable csp name domain).
Proof.
  intros [Hnd Htab Hvars]. split; simpl.
  - by apply NoDup_keys_dset.
  - by apply keys_dset_same.
  - intros i j (cs & ps & Hcs & Hps). simpl in Hcs.
    rewrite dget_dset in Hcs. case_decide as Hi.
    { injection Hcs as <-. done. }
    destruct (Hvars i j) as [Hdi Hdj]; [by exists cs, ps|].
    rewrite !dget_is_Some_keys in *. split; by apply keys_dset_subseteq.
Qed.

Lemma add_constraint_one_way_well_formed csp i j filter_function csp' :
  well_formed csp →
  add_constraint_one_way csp i j filter_function = Ret csp' →
  well_formed csp'.
Proof.
  intros [Hnd Htab Hvars]. unfold add_constraint_one_way.
  destruct (dget (constraints csp) i) as [cs|] eqn:Hcs; [|done].
  assert (is_Some (dget (domains csp) i)) as Hi.
  { apply dget_is_Some_keys. rewrite <-Htab.
    apply dget_is_Some_keys. by rewrite Hcs. }
  set (seeded := match dget cs j with Some ps => Ret ps | None => _ end).
  assert (∀ ps, seeded = Ret ps → is_Some (dget (domains csp) j)) as Hj.
  { unfold seeded. intros ps0. destruct (dget cs j) as [ps|] eqn:Hps.
    - intros _. apply (Hvars i j). by exists cs, ps.
    - destruct (dget (domains csp) i); [|done].
      by destruct (dget (domains csp) j). }
  destruct seeded as [ps| |]; [|done..].
  specialize (Hj ps eq_refl). intros [= <-]. split; simpl; [done| |].
  - rewrite keys_dset; [done | by rewrite Hcs].
  - intros i' j' (cs' & ps' & Hcs' & Hps'). simpl in Hcs'.
    rewrite dget_dset in Hcs'. case_decide as Hii.
    + subst i'. injection Hcs' as <-.
      rewrite dget_dset in Hps'. case_decide as Hjj; [by subst j'|].
      apply Hvars. by exists cs, ps'.
    + apply Hvars. by exists cs', ps'.
Qed.

Lemma built_well_formed csp : built csp → well_formed csp.
Proof.
  induction 1 as [|csp name domain _ IH|csp i j f csp' _ IH Hadd].
  - split; [apply NoDup_nil_2 | done |].
    by intros i j (cs & ps & [=] & _).
  - by apply add_variable_well_formed.
  - by eapply add_constraint_one_way_well_formed.
Qed.

End Built.

(** ** More fuel does not change the result of AC-3 *)

Section MoreFuel.
Context {V : Type} `{EqDecision V} (csp : @CSP V).

Lemma inference_loop_more_fuel n k queue (a : @assignment V) :
  (inference_loop csp n queue a).1 ≠ OutOfFuel →
  inference_loop csp (n + k) queue a = inference_loop csp n queue a.
Proof.
  revert queue a. induction n as [|n IH]; intros queue a Hfuel; [done|].
  change (S n + k) with (S (n + k)).
  destruct queue as [|[x_j x_i] queue]; [done|].
  rewrite !inference_loop_cons in *.
  destruct (revise csp x_i x_j a) as [[[]|e|] a1]; [| |done..].
  - destruct (dget a1 x_i) as [d|]; [|done].
    case_bool_decide; [done|].
    destruct (get_all_neighboring_arcs csp x_i) as [arcs| |]; [|done..].
    by apply IH.
  - by apply IH.
Qed.

End MoreFuel.

(** * Main results *)

Section MainResults.
Context {V : Type} `{EqDecision V} (vlt : V → V → bool).
Implicit Types (csp : @CSP V) (a : @assignment V) (c : counters).

(** Completeness needs only what [well_formed] lists. *)
Lemma backtracking_search_complete_well_formed csp (s : string → V) c :
  well_formed csp → two_way csp → satisfying csp s →
  ∃ d c',
    backtracking_search vlt csp c = (Ret (PDict d), c') ∧
    single_valued d ∧ same_variables csp d.
Proof.
  intros Hwf Htwo Hsat. unfold backtracking_search.
  pose proof (inference_fuel_enough csp (get_all_arcs csp) (domains csp))
    as Hfuel.
  destruct (inference csp (get_all_arcs csp) (domains csp)) as [pre a]
    eqn:Hpre.
  assert (Forall (λ x : arc, registered csp x.2 x.1) (get_all_arcs csp))
    as Hq.
  { apply Forall_forall. intros x Hx.
    by apply Htwo, (all_arcs_registered csp Hwf). }
  assert (contains (domains csp) s) as Hin by exact (proj1 Hsat).
  assert (∀ e, pre ≠ Raise e) as Hnr.
  { eapply inference_loop_no_raise; [exact Hwf | | exact Hq | exact Hpre].
    done. }
  assert (contains a s) as Hin'.
  { eapply inference_loop_contains; [exact Hsat | exact Hq | exact Hin
                                    | exact Hpre]. }
  pose proof (inference_loop_effect _ _ _ _ _ _ Hpre) as (Hnar & _ & _).
  destruct pre as [pre|e|]; [|by destruct (Hnr e)|done].
  unfold bind, lift, backtrack. rewrite backtrack_fuel_isolated.
  destruct (backtrack_cloned_complete vlt csp s Hwf Hsat (backtrack_depth a)
              a c) as (r & c' & Hrun & Hok & Hsol).
  - unfold same_variables. by rewrite (narrows_keys _ _ Hnar).
  - intros k d Hd ->. by apply Hin', elem_of_nil in Hd.
  - done.
  - destruct r as [|d]; [by destruct (Hsol Hin')|].
    exists d, c'. by destruct Hok.
Qed.

(** C4: the loop of [backtrack], which reuses the single copy [ass2] for
    every candidate value, returns the same value and leaves the same
    counters as the loop in which every candidate value is tried on its own
    clone of the snapshot. The reason is the third part: when the value [v]
    is tried for [key], the AC-3 call leaves the copy as it was, or empties
    the domain of [key] and nothing else, and the next iteration overwrites
    that domain; no removal of a failed try is seen by a later try, and the
    caller's assignment is only ever read. *)
Theorem backtrack_branch_isolation csp n a c key v :
  backtrack_fuel vlt n csp a c = backtrack_cloned_fuel vlt n csp a c ∧
  backtrack vlt csp a c = backtrack_cloned vlt csp a c ∧
  match get_all_neighboring_arcs csp key with
  | Ret arcs =>
      let tried := inference csp arcs (dset a key [v]) in
      (tried.2 = dset a key [v] ∧ tried.1 ≠ Ret PFalse) ∨
      (tried.2 = dset a key [] ∧ tried.1 = Ret PFalse)
  | _ => True
  end.
Proof.
  split; [apply backtrack_fuel_isolated|].
  split; [unfold backtrack, backtrack_cloned; apply backtrack_fuel_isolated|].
  destruct (get_all_neighboring_arcs csp key) as [arcs| |] eqn:Harcs;
    [|done..].
  simpl. destruct (inference csp arcs (dset a key [v])) as [r a'] eqn:Hinf.
  apply (inference_singleton csp key arcs _ v) in Hinf
    as [[-> Hr]|[-> ->]]; [by left | | apply dget_dset_eq | done].
  right. by rewrite dset_dset.
Qed.

(** C7, as amended: the counters are never reset. For each model there
    are one value [r] and one amount [d], the same whatever the counters
    hold, such that a call of [backtracking_search] returns [r] and adds
    [d] to the counters; so a second call returns [r] again and adds [d]
    again, on top of what the first call left. *)
Theorem backtracking_search_accumulates csp :
  ∃ r d, ∀ c,
    backtracking_search vlt csp c = (r, counters_add c d) ∧
    backtracking_search vlt csp (counters_add c d) =
      (r, counters_add (counters_add c d) d).
Proof.
  destruct (backtracking_search_uniform vlt csp) as (r & d & Hrun).
  exists r, d. intros c. by rewrite !Hrun.
Qed.

(** C8, as amended: [add_variable] never fails. On a name that is already
    registered it appends the name to [variables] once more, replaces the
    domain in place, empties the constraint table of that variable, and
    leaves the entries of all other variables as they were. *)
Theorem add_variable_registered csp name domain :
  is_Some (dget (domains csp) name) →
  variables (add_variable csp name domain) = variables csp ++ [name] ∧
  keys (domains (add_variable csp name domain)) = keys (domains csp) ∧
  dget (domains (add_variable csp name domain)) name = Some domain ∧
  dget (constraints (add_variable csp name domain)) name = Some [] ∧
  ∀ k, k ≠ name →
    dget (domains (add_variable csp name domain)) k = dget (domains csp) k ∧
    dget (constraints (add_variable csp name domain)) k =
      dget (constraints csp) k.
Proof.
  intros Hreg. unfold add_variable; simpl.
  split_and!; [done | by apply keys_dset | apply dget_dset_eq
              | apply dget_dset_eq |].
  intros k Hk. by rewrite !dget_dset_ne.
Qed.

(** C9: [inference] terminates. The fuel computed from the sizes of the
    domains and of the queue is never used up, and any larger fuel gives
    the same result. *)
Theorem inference_terminates csp queue a k :
  (inference csp queue a).1 ≠ OutOfFuel ∧
  inference_loop csp (inference_fuel csp queue a + k) queue a =
    inference csp queue a.
Proof.
  split; [apply inference_fuel_enough|].
  exact (inference_loop_more_fuel csp (inference_fuel csp queue a) k queue a
           (inference_fuel_enough csp queue a)).
Qed.

End MainResults.

(** * The claims on concrete models *)

(** C1: [backtracking_search] returns, for the model "A in 3..4, B in 1..2,
    A < B", an assignment with one value per variable that violates the
    constraint: the pair (4, 2) is not a legal pair for (A, B). *)
Theorem backtracking_search_unsound :
  backtracking_search Z.ltb order_model (Counters 0 0) =
    (Ret (PDict [(var_A, [4%Z]); (var_B, [2%Z])]), Counters 1 0) ∧
  single_valued [(var_A, [4%Z]); (var_B, [2%Z])] ∧
  ¬ satisfies_constraints order_model [(var_A, [4%Z]); (var_B, [2%Z])].
Proof.
  split; [reflexivity|]. split; [by repeat constructor|].
  intros Hsat.
  specialize (Hsat var_A var_B [(var_B, [])] [] 4%Z 2%Z
                eq_refl eq_refl eq_refl eq_refl).
  by apply elem_of_nil in Hsat.
Qed.

(** C2, as stated, fails: the model "A = {1}, B = {2}, A ≠ B registered
    one way" is satisfied by A = 1, B = 2, and [backtracking_search] raises
    [KeyError] on it. *)
Lemma one_way_model_not_solved :
  satisfying one_way_model one_two ∧
  backtracking_search Z.ltb one_way_model (Counters 0 0) =
    (Raise (KeyError var_A), Counters 0 0) ∧
  ¬ ∃ d c',
      backtracking_search Z.ltb one_way_model (Counters 0 0) =
        (Ret (PDict d), c').
Proof.
  split_and!; [|reflexivity|by intros (d & c' & [=])].
  apply satisfying_check; repeat constructor.
Qed.

Lemma differ_model_built : built differ_model.
Proof.
  pose (f := λ x y : Z, negb (x =? y)%Z).
  pose (m0 := add_variable (add_variable empty_csp var_A [1; 2]%Z)
                           var_B [1; 2]%Z).
  pose (m1 := MkCSP (variables m0) (domains m0)
                    [(var_A, [(var_B, [(1, 2); (2, 1)]%Z)]); (var_B, [])]).
  apply (built_add_constraint m1 var_B var_A f); [|reflexivity].
  apply (built_add_constraint m0 var_A var_B f); [|reflexivity].
  apply built_add_variable, built_add_variable, built_empty.
Qed.

Lemma differ_model_two_way : two_way differ_model.
Proof.
  apply two_way_check. repeat constructor; by eexists _, _.
Qed.

Lemma differ_model_satisfying : satisfying differ_model one_two.
Proof.
  apply satisfying_check; repeat constructor;
    apply (bool_decide_unpack _); by vm_compute.
Qed.

Lemma skew_model_built : built skew_model.
Proof.
  pose (m0 := add_variable (add_variable empty_csp var_A [1; 2]%Z)
                           var_B [1; 2]%Z).
  pose (m1 := MkCSP (variables m0) (domains m0)
                    [(var_A, [(var_B, [(1, 2)%Z])]); (var_B, [])]).
  apply (built_add_constraint m1 var_B var_A (λ _ _, true)); [|reflexivity].
  apply (built_add_constraint m0 var_A var_B (λ x y, (x <? y)%Z));
    [|reflexivity].
  apply built_add_variable, built_add_variable, built_empty.
Qed.

(** Why registration in both directions does not suffice for a solution:
    [skew_model] is built by the construction calls, has its constraint
    registered both ways, with different pairs in the two directions, and
    is satisfied by A = 1, B = 2; the search returns A = 1, B = 1, which
    the constraint from A to B forbids. The search checks a candidate
    value only against the constraint from the selected variable to its
    neighbour. *)
Example skew_model_result :
  built skew_model ∧ two_way skew_model ∧
  satisfying skew_model one_two ∧
  backtracking_search Z.ltb skew_model (Counters 0 0) =
    (Ret (PDict [(var_A, [1%Z]); (var_B, [1%Z])]), Counters 2 0) ∧
  ¬ satisfies_constraints skew_model [(var_A, [1%Z]); (var_B, [1%Z])].
Proof.
  split_and!; [apply skew_model_built | | |reflexivity|].
  - apply two_way_check. repeat constructor; by eexists _, _.
  - apply satisfying_check; repeat constructor;
      apply (bool_decide_unpack _); by vm_compute.
  - intros Hsat.
    specialize (Hsat var_A var_B [(var_B, [(1, 2)%Z])] [(1, 2)%Z] 1%Z 1%Z
                  eq_refl eq_refl eq_refl eq_refl).
    by apply list_elem_of_singleton in Hsat.
Qed.

(** C3: for the model "A = {1}, B = {1}, A ≠ B both ways" the AC-3 pre-pass
    empties the domain of B and returns [False]; [backtracking_search]
    drops that value, calls [backtrack] (the call counter becomes 1) and
    ends with [IndexError]. *)
Theorem wipeout_raises_IndexError :
  inference clash_model (get_all_arcs clash_model) (domains clash_model) =
    (Ret PFalse, [(var_A, [1%Z]); (var_B, [])]) ∧
  backtracking_search Z.ltb clash_model (Counters 0 0) =
    (Raise IndexError, Counters 1 0).
Proof. split; reflexivity. Qed.

(** C5: one call of [revise] on the arc with target A and neighbour B, in
    the model "A in 3..4, B in 1..2, A < B", removes 3 and keeps 4, although
    4 has no support in the domain of B. *)
Theorem revise_skips_a_value :
  revise order_model var_A var_B (domains order_model) =
    (Ret true, [(var_A, [4%Z]); (var_B, [1; 2]%Z)]) ∧
  has_support order_model var_A var_B 4%Z [1; 2]%Z = Ret false.
Proof. split; reflexivity. Qed.

(** C6: on the model "A in 3..4, B in 1..2, A < B" a first AC-3 pass over
    all arcs succeeds and leaves A = {4}, B = {2}; a second pass on that
    result empties the domain of B and fails. *)
Theorem inference_not_idempotent :
  inference order_model (get_all_arcs order_model) (domains order_model) =
    (Ret (PDict [(var_A, [4%Z]); (var_B, [2%Z])]),
     [(var_A, [4%Z]); (var_B, [2%Z])]) ∧
  inference order_model (get_all_arcs order_model)
      [(var_A, [4%Z]); (var_B, [2%Z])] =
    (Ret PFalse, [(var_A, [4%Z]); (var_B, [])]).
Proof. split; reflexivity. Qed.

(** C7, as stated, fails: two successive calls on the same model leave
    different counts, 3 calls after the first and 6 after the second. *)
Lemma counters_not_reset :
  let first := backtracking_search Z.ltb differ_model (Counters 0 0) in
  let second := backtracking_search Z.ltb differ_model first.2 in
  first = (Ret (PDict [(var_A, [1%Z]); (var_B, [2%Z])]), Counters 3 0) ∧
  second = (Ret (PDict [(var_A, [1%Z]); (var_B, [2%Z])]), Counters 6 0) ∧
  backtrack_call_count second.2 ≠ backtrack_call_count first.2.
Proof. split_and!; [reflexivity | reflexivity | by vm_compute]. Qed.

(** C8, as stated, fails: a second [add_variable] for A is accepted; A is
    then listed twice, its constraint table is empty while B still has a
    constraint to A, and the model, solved before, now ends in [KeyError]. *)
Lemma add_variable_twice_accepted :
  variables readded_model = [var_A; var_B; var_A] ∧
  length (filter (λ k, k = var_A) (variables readded_model)) ≠ 1 ∧
  constraints readded_model =
    [(var_A, []); (var_B, [(var_A, [(1, 2); (2, 1)]%Z)])] ∧
  backtracking_search Z.ltb differ_model (Counters 0 0) =
    (Ret (PDict [(var_A, [1%Z]); (var_B, [2%Z])]), Counters 3 0) ∧
  backtracking_search Z.ltb readded_model (Counters 0 0) =
    (Raise (KeyError var_B), Counters 0 0).
Proof. split_and!; [reflexivity | by vm_compute | reflexivity..]. Qed.

(** The theorem on re-adding a variable, applied to A in [differ_model]. *)
Lemma add_variable_registered_witness :
  is_Some (dget (domains differ_model) var_A) ∧
  variables readded_model = variables differ_model ++ [var_A] ∧
  keys (domains readded_model) = keys (domains differ_model) ∧
  dget (domains readded_model) var_A = Some [1; 2]%Z ∧
  dget (constraints readded_model) var_A = Some [] ∧
  ∀ k, k ≠ var_A →
    dget (domains readded_model) k = dget (domains differ_model) k ∧
    dget (constraints readded_model) k = dget (constraints differ_model) k.
Proof.
  split; [by eexists|].
  apply (add_variable_registered differ_model var_A [1; 2]%Z). by eexists.
Defined.

(** * Further properties of the module *)

(** ** Registering constraints *)

Section ConstraintFacts.
Context {V : Type} `{EqDecision V}.
Implicit Types (csp : @CSP V) (f g : V → V → bool).

Lemma registered_legal_pairs csp i j :
  registered csp i j ↔ is_Some (legal_pairs csp i j).
Proof.
  unfold registered, legal_pairs. split.
  - intros (cs & ps & -> & ->). by eexists.
  - destruct (dget (constraints csp) i) as [cs|]; [|by intros [? ?]].
    intros [ps Hps]. by exists cs, ps.
Qed.

Lemma add_constraint_one_way_changes csp i j f csp' :
  add_constraint_one_way csp i j f = Ret csp' →
  variables csp' = variables csp ∧
  domains csp' = domains csp ∧
  keys (constraints csp') = keys (constraints csp) ∧
  (∃ seed,
     match legal_pairs csp i j with
     | Some ps => seed = ps
     | None =>
         ∃ di dj, dget (domains csp) i = Some di ∧
                  dget (domains csp) j = Some dj ∧
                  seed = get_all_possible_pairs di dj
     end ∧
     legal_pairs csp' i j = Some (filter (λ p, f p.1 p.2 = true) seed)) ∧
  ∀ i' j', (i', j') ≠ (i, j) → legal_pairs csp' i' j' = legal_pairs csp i' j'.
Proof.
  unfold add_constraint_one_way, legal_pairs.
  destruct (dget (constraints csp) i) as [cs|] eqn:Hcs; [|done].
  set (seeded := match dget cs j with Some ps => Ret ps | None => _ end).
  destruct seeded as [seed| |] eqn:Hseed; [|done..].
  intros [= <-]. simpl. split_and!; [done | done | | |].
  - apply keys_dset. by rewrite Hcs.
  - exists seed. rewrite !dget_dset_eq. split; [|done].
    unfold seeded in Hseed. destruct (dget cs j) as [ps|]; [congruence|].
    destruct (dget (domains csp) i) as [di|]; [|done].
    destruct (dget (domains csp) j) as [dj|]; [|done].
    injection Hseed as <-. by exists di, dj.
  - intros i' j' Hne. rewrite dget_dset. case_decide as Hi; [|done].
    subst i'. rewrite Hcs, dget_dset. case_decide; [congruence | done].
Qed.

(** What a successful [add_constraint_one_way] changes: nothing but the
    legal pairs of [(i, j)], which become the former pairs (the cross
    product of the two domains when there were none) that pass the filter.
    In particular the pair [(j, i)] is not touched. *)
Theorem add_constraint_one_way_effect csp i j f csp' :
  add_constraint_one_way csp i j f = Ret csp' →
  variables csp' = variables csp ∧
  domains csp' = domains csp ∧
  keys (constraints csp') = keys (constraints csp) ∧
  (∃ seed,
     match legal_pairs csp i j with
     | Some ps => seed = ps
     | None =>
         ∃ di dj, dget (domains csp) i = Some di ∧
                  dget (domains csp) j = Some dj ∧
                  seed = get_all_possible_pairs di dj
     end ∧
     legal_pairs csp' i j = Some (filter (λ p, f p.1 p.2 = true) seed)) ∧
  ∀ i' j', (i', j') ≠ (i, j) → legal_pairs csp' i' j' = legal_pairs csp i' j'.
Proof. apply add_constraint_one_way_changes. Qed.

(** Registering a second filter for the same ordered pair is the same as
    registering the conjunction of the two filters at once: the legal
    pairs are only ever narrowed. *)
Theorem add_constraint_one_way_twice csp i j f g csp1 :
  add_constraint_one_way csp i j f = Ret csp1 →
  add_constraint_one_way csp1 i j g =
  add_constraint_one_way csp i j (λ x y, f x y && g x y).
Proof.
  unfold add_constraint_one_way.
  destruct (dget (constraints csp) i) as [cs|] eqn:Hcs; [|done].
  set (seeded := match dget cs j with Some ps => Ret ps | None => _ end).
  destruct seeded as [seed| |]; [|done..].
  intros [= <-]. simpl. rewrite !dget_dset_eq, !dset_dset.
  do 4 f_equal. rewrite list_filter_filter. apply list_filter_iff.
  intros [x y]. simpl. rewrite andb_true_iff. tauto.
Qed.

(** When [add_constraint_one_way] raises, and what: [KeyError i] if [i]
    has no constraint table, or if [i] has one, the pair is new and [i]
    has no domain; [KeyError j] if [i] has a constraint table, the pair is
    new, [i] has a domain and [j] has none. In every other case it
    returns. The three cases exclude one another, so the state of the
    model decides the outcome. *)
Theorem add_constraint_one_way_raises csp i j f :
  match add_constraint_one_way csp i j f with
  | Ret _ =>
      is_Some (dget (constraints csp) i) ∧
      (registered csp i j ∨
       is_Some (dget (domains csp) i) ∧ is_Some (dget (domains csp) j))
  | Raise e =>
      (e = KeyError i ∧
       (dget (constraints csp) i = None ∨
        is_Some (dget (constraints csp) i) ∧ ¬ registered csp i j ∧
        dget (domains csp) i = None)) ∨
      (e = KeyError j ∧
       is_Some (dget (constraints csp) i) ∧ ¬ registered csp i j ∧
       is_Some (dget (domains csp) i) ∧ dget (domains csp) j = None)
  | OutOfFuel => False
  end.
Proof.
  pose proof (registered_legal_pairs csp i j) as Hreg.
  unfold add_constraint_one_way, legal_pairs in *.
  destruct (dget (constraints csp) i) as [cs|]; [|left; eauto].
  destruct (dget cs j) as [ps|].
  { split; [eauto|]. left. apply Hreg. eauto. }
  assert (¬ registered csp i j) as Hnot by (by intros [? ?]%Hreg).
  destruct (dget (domains csp) i) as [di|].
  - destruct (dget (domains csp) j) as [dj|].
    + split; eauto.
    + right. split_and!; [done | eauto | done | eauto | done].
  - left. split; [done|]. right. split_and!; [eauto | done | done].
Qed.

End ConstraintFacts.

(** ** Arcs and variable selection *)

Section ArcFacts.
Context {V : Type} `{EqDecision V}.
Implicit Types (csp : @CSP V) (a : @assignment V).

(** In a model built by the construction calls, [get_all_arcs] lists
    exactly the ordered pairs that have a constraint entry. *)
Theorem get_all_arcs_registered csp i j :
  built csp → ((i, j) ∈ get_all_arcs csp ↔ registered csp i j).
Proof.
  intros Hwf%built_well_formed. split.
  - apply (all_arcs_registered csp Hwf (i, j)).
  - apply registered_all_arcs.
Qed.

(** [get_all_neighboring_arcs var] raises [KeyError var] when [var] has no
    constraint table, and only then; when [var] has one, it returns the
    arcs [(i, var)] for the names [i] with an entry [constraints[var][i]],
    one arc per entry and in the order of the entries: the arcs into [var]
    are read off the constraints that leave [var]. *)
Theorem get_all_neighboring_arcs_spec csp var :
  match get_all_neighboring_arcs csp var with
  | Ret arcs =>
      (∃ cs, dget (constraints csp) var = Some cs ∧
             arcs.*1 = keys cs ∧ length arcs = length cs) ∧
      ∀ x : arc, x ∈ arcs ↔ x.2 = var ∧ registered csp var x.1
  | Raise e => e = KeyError var ∧ dget (constraints csp) var = None
  | OutOfFuel => False
  end.
Proof.
  unfold get_all_neighboring_arcs.
  destruct (dget (constraints csp) var) as [cs|] eqn:Hcs; [|done].
  split.
  { exists cs. split; [done|]. split.
    - rewrite <-list_fmap_compose. apply list_fmap_id.
    - unfold keys. by rewrite !length_fmap. }
  intros [i k]. rewrite list_elem_of_fmap. simpl. split.
  - intros (i' & [= -> ->] & Hi). split; [done|].
    apply dget_is_Some_keys in Hi as [ps Hps]. by exists cs, ps.
  - intros [-> (cs' & ps & Hcs' & Hps)]. exists i. split; [done|].
    apply dget_is_Some_keys. rewrite Hcs in Hcs'. injection Hcs' as ->.
    by rewrite Hps.
Qed.

Lemma filter_first {A} (P : A → Prop) `{!∀ x, Decision (P x)} (l : list A) :
  match filter P l with
  | k :: _ =>
      ∃ before after, l = before ++ k :: after ∧ P k ∧ Forall (λ x, ¬ P x) before
  | [] => Forall (λ x, ¬ P x) l
  end.
Proof.
  induction l as [|x l IH]; [by constructor|].
  rewrite filter_cons. destruct (decide (P x)) as [HP|HP].
  - exists [], l. by split_and!.
  - destruct (filter P l) as [|k ks].
    + by constructor.
    + destruct IH as (before & after & -> & Hk & Hbefore).
      exists (x :: before), after. split_and!; [done | done |].
      by constructor.
Qed.

(** [select_unassigned_variable] returns the first key, in the order of
    the dictionary, whose domain has more than one value, and raises
    [IndexError] exactly when no domain has more than one value. *)
Theorem select_unassigned_variable_first a :
  match select_unassigned_variable a with
  | Ret key =>
      ∃ before after,
        keys a = before ++ key :: after ∧ unassigned a key = true ∧
        Forall (λ k, unassigned a k = false) before
  | Raise e =>
      e = IndexError ∧ Forall (λ k, unassigned a k = false) (keys a)
  | OutOfFuel => False
  end.
Proof.
  unfold select_unassigned_variable.
  pose proof (filter_first (λ key, unassigned a key) (keys a)) as Hfirst.
  assert (∀ l, Forall (λ x : string, ¬ unassigned a x) l →
               Forall (λ k, unassigned a k = false) l) as Hconv.
  { intros l Hl. eapply Forall_impl; [exact Hl|]. intros k Hk. simpl in Hk.
    by destruct (unassigned a k). }
  destruct (filter _ (keys a)) as [|key ks].
  - split; [done | by apply Hconv].
  - destruct Hfirst as (before & after & Hkeys & Hkey & Hbefore).
    exists before, after. split_and!; [done | | by apply Hconv].
    by destruct (unassigned a key).
Qed.

End ArcFacts.

(** ** What one call of revise computes *)

Section ReviseExact.
Context {V : Type} `{EqDecision V} (csp : @CSP V) (x_i x_j : string).
Context (ps : list (V * V)) (dj : list V).
Hypothesis Hdistinct : x_i ≠ x_j.
Hypothesis Hps : legal_pairs csp x_i x_j = Some ps.
Implicit Types (a : @assignment V) (l pre rest : list V).

Lemma has_support_supported_by x :
  has_support csp x_i x_j x dj = Ret (supported_by ps dj x).
Proof.
  unfold legal_pairs in Hps.
  destruct (dget (constraints csp) x_i) as [cs|] eqn:Hcs; [|done].
  by apply (has_support_registered csp x_i x_j x dj cs ps).
Qed.

Lemma revise_loop_exact n pre rest revised a :
  dget a x_i = Some (pre ++ rest) → dget a x_j = Some dj →
  length rest < n →
  revise_loop csp x_i x_j n (length pre) revised a =
    (Ret (revised || negb (forallb (supported_by ps dj) rest)),
     dset a x_i (pre ++ revise_list (supported_by ps dj) rest)).
Proof.
  revert pre rest revised a.
  induction n as [|n IH]; intros pre rest revised a Hl Hj Hn; [lia|].
  rewrite revise_loop_S, Hl.
  destruct rest as [|x rest].
  { rewrite lookup_ge_None_2 by (rewrite length_app; simpl; lia).
    simpl. rewrite orb_false_r, dset_id; done. }
  rewrite list_lookup_middle by done.
  rewrite Hj, has_support_supported_by. simpl in *.
  destruct (supported_by ps dj x) eqn:Hx; simpl.
  - replace (S (length pre)) with (length (pre ++ [x]))
      by (rewrite length_app; simpl; lia).
    rewrite (IH (pre ++ [x]) rest revised a);
      [| by rewrite <-(assoc_L (++)) | done | lia].
    by rewrite <-(assoc_L (++)).
  - rewrite delete_middle, orb_true_r.
    assert (dget (dset a x_i (pre ++ rest)) x_j = Some dj) as Hj'
      by (by rewrite dget_dset_ne).
    destruct rest as [|y rest].
    + destruct n as [|n]; [simpl in Hn; lia|].
      rewrite revise_loop_S, dget_dset_eq.
      by rewrite lookup_ge_None_2 by (rewrite length_app; simpl; lia).
    + replace (S (length pre)) with (length (pre ++ [y]))
        by (rewrite length_app; simpl; lia).
      rewrite (IH (pre ++ [y]) rest true (dset a x_i (pre ++ y :: rest)));
        [| by rewrite dget_dset_eq, <-(assoc_L (++)) | done | simpl in Hn; lia].
      by rewrite dset_dset, <-(assoc_L (++)).
Qed.

Lemma revise_exact_aux a l :
  dget a x_i = Some l → dget a x_j = Some dj →
  revise csp x_i x_j a =
    (Ret (negb (forallb (supported_by ps dj) l)),
     dset a x_i (revise_list (supported_by ps dj) l)).
Proof.
  intros Hl Hj. rewrite revise_unfold, Hl.
  apply (revise_loop_exact (S (length l)) [] l false a Hl Hj). lia.
Qed.

End ReviseExact.

Section ReviseList.
Context {V : Type} (sup : V → bool).
Implicit Types (l : list V).

Lemma revise_list_sandwich l :
  filter (λ x, sup x = true) l `sublist_of` revise_list sup l ∧
  revise_list sup l `sublist_of` l.
Proof.
  remember (length l) as n eqn:Hn. revert l Hn.
  induction (lt_wf n) as [n _ IH]; intros l ->.
  destruct l as [|x l]; [split; apply sublist_nil_l|].
  rewrite filter_cons. simpl. destruct (sup x) eqn:Hx.
  - rewrite decide_True by done.
    destruct (IH (length l) (Nat.lt_succ_diag_r _) l eq_refl) as [Hlow Hup].
    split; by apply sublist_skip.
  - rewrite decide_False by congruence.
    destruct l as [|y l]; [split; apply sublist_nil_l|].
    destruct (IH (length l) ltac:(simpl; lia) l eq_refl) as [Hlow Hup].
    split.
    + rewrite filter_cons. case_decide.
      * by apply sublist_skip.
      * by apply sublist_cons.
    + by apply sublist_cons, sublist_skip.
Qed.

Lemma revise_list_all l : forallb sup l = true → revise_list sup l = l.
Proof.
  induction l as [|x l IH]; simpl; [done|].
  intros [-> Hl]%andb_true_iff. by rewrite IH.
Qed.

Lemma revise_list_shorter l :
  forallb sup l = false → length (revise_list sup l) < length l.
Proof.
  intros Hl.
  pose proof (proj2 (revise_list_sandwich l)) as Hsub.
  pose proof (sublist_length _ _ Hsub) as Hlen.
  destruct (decide (length (revise_list sup l) = length l)) as [Heq|]; [|lia].
  exfalso. apply sublist_same_length in Hsub; [|lia].
  clear Hlen Heq. induction l as [|x l IH]; simpl in *; [done|].
  destruct (sup x) eqn:Hx; simpl in *.
  - injection Hsub as Hsub. by apply IH.
  - destruct l as [|y l]; [done|].
    pose proof (proj2 (revise_list_sandwich l)) as Hs%sublist_length.
    apply (f_equal length) in Hsub. simpl in Hsub. lia.
Qed.

End ReviseList.

Section ReviseTheorems.
Context {V : Type} `{EqDecision V}.
Implicit Types (csp : @CSP V) (a : @assignment V).

(** One call of [revise] on an arc between two different variables, with
    a registered constraint: the domain of the target becomes
    [revise_list] of it, where a value is kept if it has support, a value
    without support is removed, and the value after a removed one is kept
    unexamined. The flag tells whether some value lacks support. *)
Theorem revise_exact csp x_i x_j ps dj a l :
  x_i ≠ x_j → legal_pairs csp x_i x_j = Some ps →
  dget a x_i = Some l → dget a x_j = Some dj →
  revise csp x_i x_j a =
    (Ret (negb (forallb (supported_by ps dj) l)),
     dset a x_i (revise_list (supported_by ps dj) l)).
Proof. intros. by apply revise_exact_aux. Qed.

(** [revise] never removes a value that has support, removes nothing but
    values of the target domain, reports no revision exactly when every
    value has support, and reports a revision exactly when the domain got
    shorter. *)
Theorem revise_keeps_supported csp x_i x_j ps dj a l :
  x_i ≠ x_j → legal_pairs csp x_i x_j = Some ps →
  dget a x_i = Some l → dget a x_j = Some dj →
  ∃ revised l',
    revise csp x_i x_j a = (Ret revised, dset a x_i l') ∧
    filter (λ x, supported_by ps dj x = true) l `sublist_of` l' ∧
    l' `sublist_of` l ∧
    (revised = false ↔ Forall (λ x, supported_by ps dj x = true) l) ∧
    (revised = true ↔ length l' < length l).
Proof.
  intros Hne Hps Hl Hj.
  exists (negb (forallb (supported_by ps dj) l)),
         (revise_list (supported_by ps dj) l).
  split; [by apply revise_exact_aux|].
  destruct (revise_list_sandwich (supported_by ps dj) l) as [Hlow Hup].
  split; [done|]. split; [done|].
  assert (forallb (supported_by ps dj) l = true ↔
          Forall (λ x, supported_by ps dj x = true) l) as Hall.
  { rewrite forallb_forall, Forall_forall.
    by setoid_rewrite list_elem_of_In. }
  destruct (forallb (supported_by ps dj) l) eqn:Hb; simpl.
  - split; [by rewrite <-Hall|]. rewrite revise_list_all by done.
    split; [done | lia].
  - split.
    + split; [done|]. intros Hf%Hall. done.
    + split; [|done]. intros _. by apply revise_list_shorter.
Qed.

End ReviseTheorems.

Lemma revise_exact_witness :
  var_A ≠ var_B ∧
  revise order_model var_A var_B (domains order_model) =
    (Ret (negb (forallb (supported_by [] [1; 2]%Z) [3; 4]%Z)),
     dset (domains order_model) var_A
          (revise_list (supported_by [] [1; 2]%Z) [3; 4]%Z)).
Proof.
  split; [done|].
  by apply (revise_exact order_model var_A var_B [] [1; 2]%Z
              (domains order_model) [3; 4]%Z).
Defined.

Lemma revise_keeps_supported_witness :
  var_A ≠ var_B ∧
  ∃ revised l',
    revise differ_model var_A var_B (domains differ_model) =
      (Ret revised, dset (domains differ_model) var_A l') ∧
    filter (λ x, supported_by [(1, 2); (2, 1)]%Z [1; 2]%Z x = true) [1; 2]%Z
      `sublist_of` l' ∧
    l' `sublist_of` [1; 2]%Z ∧
    (revised = false ↔
     Forall (λ x, supported_by [(1, 2); (2, 1)]%Z [1; 2]%Z x = true)
            [1; 2]%Z) ∧
    (revised = true ↔ length l' < length [1; 2]%Z).
Proof.
  split; [done|].
  by apply (revise_keeps_supported differ_model var_A var_B
              [(1, 2); (2, 1)]%Z [1; 2]%Z (domains differ_model) [1; 2]%Z).
Defined.


(** ** AC-3 works on the caller's dictionary *)

Section InPlace.
Context {V : Type} `{EqDecision V} (csp : @CSP V).
Implicit Types (a : @assignment V) (queue : list arc).




End InPlace.


(** ** AC-3 on consistent arcs *)

Section ConsistentArcs.
Context {V : Type} `{EqDecision V} (csp : @CSP V).
Implicit Types (a : @assignment V) (queue : list arc).

Lemma revise_loop_consistent x_i x_j n i revised a l dj :
  dget a x_i = Some l → dget a x_j = Some dj →
  Forall (λ v, has_support csp x_i x_j v dj = Ret true) l →
  length l < n + i → 0 < n →
  revise_loop csp x_i x_j n i revised a = (Ret revised, a).
Proof.
  intros Hl Hj Hsup. revert i.
  induction n as [|n IH]; intros i Hn Hpos; [lia|].
  rewrite revise_loop_S, Hl.
  destruct (l !! i) as [x|] eqn:Hx; [|done].
  rewrite Hj. rewrite Forall_lookup in Hsup. rewrite (Hsup i x Hx).
  apply lookup_lt_Some in Hx. apply IH; lia.
Qed.

Lemma revise_consistent x_i x_j a :
  arc_consistent csp a (x_j, x_i) → revise csp x_i x_j a = (Ret false, a).
Proof.
  intros (l & dj & Hl & Hj & Hsup). simpl in *.
  rewrite revise_unfold, Hl.
  apply (revise_loop_consistent _ _ _ _ _ _ l dj); [done..| lia | lia].
Qed.

Lemma inference_loop_consistent n queue a :
  Forall (arc_consistent csp a) queue → length queue < n →
  inference_loop csp n queue a = (Ret (PDict a), a).
Proof.
  revert queue. induction n as [|n IH]; intros queue Hq Hn; [lia|].
  destruct queue as [|[x_j x_i] queue]; [done|].
  apply Forall_cons in Hq as [Harc Hq].
  rewrite inference_loop_cons, (revise_consistent _ _ _ Harc).
  apply IH; [done | simpl in Hn; lia].
Qed.

(** When every arc of the queue is already consistent, [inference] returns
    the assignment unchanged (and does not fail). *)
Theorem inference_consistent_unchanged queue a :
  Forall (arc_consistent csp a) queue →
  inference csp queue a = (Ret (PDict a), a).
Proof.
  intros Hq. apply inference_loop_consistent; [done|].
  unfold inference_fuel. lia.
Qed.

End ConsistentArcs.

Lemma differ_model_arc_consistent :
  Forall (arc_consistent differ_model (domains differ_model))
         (get_all_arcs differ_model).
Proof.
  repeat constructor; eexists _, _; (split; [reflexivity|]);
    (split; [reflexivity|]); by repeat constructor.
Qed.

(** The theorem on consistent arcs, applied to [differ_model]. *)
Lemma inference_consistent_unchanged_witness :
  Forall (arc_consistent differ_model (domains differ_model))
         (get_all_arcs differ_model) ∧
  inference differ_model (get_all_arcs differ_model) (domains differ_model) =
    (Ret (PDict (domains differ_model)), domains differ_model).
Proof.
  split; [apply differ_model_arc_consistent|].
  apply (inference_consistent_unchanged differ_model).
  apply differ_model_arc_consistent.
Defined.

(** ** AC-3 prunes no solution *)

Section PruningSound.
Context {V : Type} `{EqDecision V}.
Implicit Types (csp : @CSP V) (a : @assignment V).

(** If [s] satisfies the constraints of the model and every domain of [a]
    still holds the value [s] picks, then so does every domain after
    [inference] over a queue of arcs whose constraints are registered, and
    [inference] does not fail. *)
Theorem inference_keeps_solutions csp (s : string → V) queue a :
  satisfying csp s →
  Forall (λ x : arc, registered csp x.2 x.1) queue →
  contains a s →
  contains (inference csp queue a).2 s ∧
  (inference csp queue a).1 ≠ Ret PFalse.
Proof.
  intros Hsat Hq Hin.
  destruct (inference csp queue a) as [r a'] eqn:Hrun.
  by apply (inference_loop_contains csp s Hsat _ _ _ _ _ Hq Hin Hrun).
Qed.

End PruningSound.

(** The theorem on pruning, applied to [differ_model] and A = 1, B = 2. *)
Lemma inference_keeps_solutions_witness :
  satisfying differ_model one_two ∧
  contains (inference differ_model (get_all_arcs differ_model)
              (domains differ_model)).2 one_two ∧
  (inference differ_model (get_all_arcs differ_model)
     (domains differ_model)).1 ≠ Ret PFalse.
Proof.
  split; [apply differ_model_satisfying|].
  apply (inference_keeps_solutions differ_model one_two).
  - apply differ_model_satisfying.
  - repeat constructor; by eexists _, _.
  - exact (proj1 differ_model_satisfying).
Defined.

(** ** What a successful search went through *)

Section SearchInversion.
Context {V : Type} `{EqDecision V} (vlt : V → V → bool) (csp : @CSP V).
Implicit Types (a d : @assignment V) (c : counters).

(** A dictionary returned by the loop comes from a recursive call on the
    snapshot with one accepted value for [key]. *)
Lemma try_values_cloned_success rec key var a c d c' :
  try_values_cloned rec csp key var a c = (Ret (PDict d), c') →
  ∃ v arcs c0,
    v ∈ var ∧
    get_all_neighboring_arcs csp key = Ret arcs ∧
    inference csp arcs (dset a key [v]) =
      (Ret (PDict (dset a key [v])), dset a key [v]) ∧
    rec (dset a key [v]) c0 = (Ret (PDict d), c').
Proof.
  revert c. induction var as [|value var IH]; intros c.
  { simpl. unfold bind, incr_failure_count, ret. by intros [=]. }
  rewrite try_values_cloned_cons.
  destruct (get_all_neighboring_arcs csp key) as [arcs| |] eqn:Harcs;
    [|done..].
  destruct (inference csp arcs (dset a key [value])) as [[inf| |] a']
    eqn:Hinf; [|done..].
  pose proof (inference_singleton csp key arcs _ value _ _
                (dget_dset_eq _ _ _) Harcs Hinf) as Hshape.
  pose proof (inference_loop_effect _ _ _ _ _ _ Hinf) as (_ & Hdict & _).
  assert (∀ c1, try_values_cloned rec csp key var a c1 = (Ret (PDict d), c') →
    ∃ v arcs0 c0, v ∈ value :: var ∧ Ret arcs = Ret arcs0 ∧
      inference csp arcs0 (dset a key [v]) =
        (Ret (PDict (dset a key [v])), dset a key [v]) ∧
      rec (dset a key [v]) c0 = (Ret (PDict d), c')) as Hnext.
  { intros c1 (v & arcs0 & c0 & Hv & Harcs0 & Hrest)%IH.
    exists v, arcs0, c0. split; [by apply list_elem_of_further | done]. }
  destruct (truthy inf) eqn:Htruthy; [|apply Hnext].
  destruct inf as [|d0]; [done|].
  destruct Hshape as [[-> _]|[[=] _]].
  rewrite (Hdict d0 eq_refl) in Hinf.
  destruct (rec (dset a key [value]) c) as [[res| |] c1] eqn:Hrec; [|done..].
  destruct (truthy res); [|apply Hnext].
  intros [= -> ->]. exists value, arcs, c.
  split; [apply list_elem_of_here | done].
Qed.

(** A dictionary returned by [backtrack] is the assignment itself, when
    all its domains have one value, or comes from the recursive call for
    the selected variable and one accepted value of its domain. *)
Lemma backtrack_cloned_success n a c d c' :
  backtrack_cloned_fuel vlt (S n) csp a c = (Ret (PDict d), c') →
  (single_valued a ∧ d = a) ∨
  ∃ key var v arcs c0,
    select_unassigned_variable a = Ret key ∧
    dget a key = Some var ∧ v ∈ var ∧
    get_all_neighboring_arcs csp key = Ret arcs ∧
    inference csp arcs (dset a key [v]) =
      (Ret (PDict (dset a key [v])), dset a key [v]) ∧
    backtrack_cloned_fuel vlt n csp (dset a key [v]) c0 = (Ret (PDict d), c').
Proof.
  rewrite backtrack_cloned_fuel_S. simpl.
  case_bool_decide as Hall; [intros [= <- _]; by left|].
  destruct (select_unassigned_variable a) as [key| |] eqn:Hkey; [|done..].
  destruct (dget a key) as [var|] eqn:Hvar; [|done].
  intros (v & arcs & c0 & Hv%elem_of_sort & Hrest)%try_values_cloned_success.
  right. by exists key, var, v, arcs, c0.
Qed.

Lemma singleton_sublist (x : V) (l : list V) : x ∈ l → [x] `sublist_of` l.
Proof.
  intros (l1 & l2 & ->)%list_elem_of_split.
  apply sublist_inserts_l, sublist_skip, sublist_nil_l.
Qed.

Lemma backtrack_cloned_result n a c d c' :
  backtrack_cloned_fuel vlt n csp a c = (Ret (PDict d), c') →
  single_valued d ∧ narrows a d.
Proof.
  revert a c. induction n as [|n IH]; intros a c; [done|].
  intros [[Hall ->]|(key & var & v & arcs & c0 & _ & Hvar & Hv & _ & _ & Hrec)]
    %backtrack_cloned_success.
  - split; [done | apply narrows_refl].
  - apply IH in Hrec as [Hsingle Hnar]. split; [done|].
    eapply narrows_trans; [|exact Hnar].
    eapply narrows_dset; [done | by apply singleton_sublist].
Qed.

(** *** An empty domain rules out any returned dictionary *)

Lemma values_dset_empty a key var (l : list V) :
  [] ∈ values a → dget a key = Some var → var ≠ [] →
  [] ∈ values (dset a key l).
Proof.
  unfold values. induction a as [|[k w] a IH]; csimpl; [done|].
  destruct (decide (key = k)) as [->|Hne]; csimpl.
  - intros [Hw|Hin]%elem_of_cons [= ->] Hvar; [congruence|].
    by apply list_elem_of_further.
  - intros [Hw|Hin]%elem_of_cons Hkey Hvar.
    + rewrite <-Hw. apply list_elem_of_here.
    + apply list_elem_of_further. by apply IH.
Qed.

Lemma backtrack_cloned_wipeout n a c d c' :
  [] ∈ values a →
  backtrack_cloned_fuel vlt n csp a c ≠ (Ret (PDict d), c').
Proof.
  revert a c. induction n as [|n IH]; intros a c Hempty; [done|].
  intros [[Hall ->]|(key & var & v & arcs & c0 & Hkey & Hvar & _ & _ & _ & Hrec)]
    %backtrack_cloned_success.
  - unfold single_valued in Hall. rewrite Forall_forall in Hall.
    by apply Hall in Hempty.
  - apply select_unassigned_variable_Ret in Hkey as (var' & Hvar' & Hlen).
    rewrite Hvar in Hvar'. injection Hvar' as <-.
    apply (IH (dset a key [v]) c0); [|done].
    apply (values_dset_empty a key var); [done | done |].
    intros ->. simpl in Hlen. lia.
Qed.

End SearchInversion.

(** ** What the search returns, and that it returns *)

Section SearchTheorems.
Context {V : Type} `{EqDecision V} (vlt : V → V → bool).
Implicit Types (csp : @CSP V) (a d : @assignment V) (c : counters).

Lemma search_result_narrows csp c d c' :
  backtracking_search vlt csp c = (Ret (PDict d), c') →
  single_valued d ∧ narrows (domains csp) d.
Proof.
  unfold backtracking_search.
  destruct (inference csp (get_all_arcs csp) (domains csp)) as [pre a]
    eqn:Hpre.
  apply inference_loop_effect in Hpre as (Hnar & _ & _).
  destruct pre as [pre| |]; [|done..].
  unfold bind, lift, backtrack. rewrite backtrack_fuel_isolated.
  intros [Hsingle Hnar']%backtrack_cloned_result.
  split; [done | by eapply narrows_trans].
Qed.

(** Whatever dictionary [backtracking_search] returns has the variables of
    the model in the model's order, each with exactly one value, and that
    value is taken from the variable's domain in the model. *)
Theorem backtracking_search_result csp c d c' :
  backtracking_search vlt csp c = (Ret (PDict d), c') →
  single_valued d ∧ narrows (domains csp) d.
Proof. apply search_result_narrows. Qed.

(** Once the AC-3 pre-pass has emptied a domain and returned [False],
    [backtracking_search] cannot return a dictionary: it returns [False]
    or raises. *)
Theorem no_dictionary_after_wipeout csp c d c' :
  (inference csp (get_all_arcs csp) (domains csp)).1 = Ret PFalse →
  backtracking_search vlt csp c ≠ (Ret (PDict d), c').
Proof.
  unfold backtracking_search.
  destruct (inference csp (get_all_arcs csp) (domains csp)) as [pre a]
    eqn:Hpre.
  simpl. intros ->.
  apply inference_loop_effect in Hpre as (_ & _ & Hfalse).
  destruct (Hfalse eq_refl) as [[x Hx] _].
  unfold bind, lift, backtrack. rewrite backtrack_fuel_isolated.
  apply backtrack_cloned_wipeout.
  apply dget_Some_elem in Hx. unfold values.
  apply list_elem_of_fmap. by exists (x, []).
Qed.

(** The search terminates on every model and every assignment: the
    recursion of [backtrack] is never deeper than the number of variables
    with more than one value, plus one. *)
Theorem search_terminates csp a c k :
  (backtrack_fuel vlt (backtrack_depth a + k) csp a c).1 ≠ OutOfFuel ∧
  (backtracking_search vlt csp c).1 ≠ OutOfFuel.
Proof.
  split.
  - rewrite backtrack_fuel_isolated.
    apply backtrack_cloned_fuel_enough. lia.
  - unfold backtracking_search.
    pose proof (inference_fuel_enough csp (get_all_arcs csp) (domains csp))
      as Hpre.
    destruct (inference csp (get_all_arcs csp) (domains csp))
      as [[pre| |] a0]; [|done..].
    unfold bind, lift. apply backtrack_fuel_enough.
Qed.

End SearchTheorems.

(** The theorem on returned dictionaries, applied to [differ_model]. *)
Lemma backtracking_search_result_witness :
  single_valued [(var_A, [1%Z]); (var_B, [2%Z])] ∧
  narrows (domains differ_model) [(var_A, [1%Z]); (var_B, [2%Z])].
Proof.
  by apply (backtracking_search_result Z.ltb differ_model (Counters 0 0)
              [(var_A, [1%Z]); (var_B, [2%Z])] (Counters 3 0)).
Defined.

(** The theorem on wipe-outs, applied to [clash_model]. *)
Lemma no_dictionary_after_wipeout_witness :
  (inference clash_model (get_all_arcs clash_model)
     (domains clash_model)).1 = Ret PFalse ∧
  backtracking_search Z.ltb clash_model (Counters 0 0) ≠
    (Ret (PDict [(var_A, [1%Z]); (var_B, [1%Z])]), Counters 1 0).
Proof.
  split; [reflexivity|].
  by apply (no_dictionary_after_wipeout Z.ltb clash_model (Counters 0 0)).
Defined.

(** ** Constraints that the search does enforce *)

Section SearchSound.
Context {V : Type} `{EqDecision V} (vlt : V → V → bool) (csp : @CSP V).
Implicit Types (a d : @assignment V) (c : counters).

Lemma has_support_true_inv i j x dj :
  has_support csp i j x dj = Ret true →
  ∃ ps y, legal_pairs csp i j = Some ps ∧ y ∈ dj ∧ (x, y) ∈ ps.
Proof.
  unfold has_support, legal_pairs. destruct dj as [|y0 dj]; [done|].
  destruct (dget (constraints csp) i) as [cs|]; [|done].
  destruct (dget cs j) as [ps|]; [|done].
  intros Heq.
  assert (existsb (λ y, bool_decide ((x, y) ∈ ps)) (y0 :: dj) = true)
    as (y & Hy%list_elem_of_In & Hxy%bool_decide_eq_true)%existsb_exists
    by congruence.
  by exists ps, y.
Qed.

Lemma revise_singleton_kept key x_j a v a' :
  dget a key = Some [v] →
  revise csp key x_j a = (Ret false, a') →
  ∃ dj, dget a x_j = Some dj ∧ has_support csp key x_j v dj = Ret true.
Proof.
  intros Hv. rewrite revise_unfold, Hv.
  change (length [v]) with 1. rewrite revise_loop_S, Hv.
  change ([v] !! 0) with (Some v).
  destruct (dget a x_j) as [dj|]; [|done].
  destruct (has_support csp key x_j v dj) as [[]|e|] eqn:Hs; [| |done..].
  - intros _. by exists dj.
  - rewrite revise_loop_S, dget_dset_eq.
    change (delete 0 [v] !! 1) with (@None V). done.
Qed.

Lemma inference_loop_singleton_support n key queue a v d a' :
  dget a key = Some [v] →
  Forall (λ x : arc, x.2 = key) queue →
  inference_loop csp n queue a = (Ret (PDict d), a') →
  Forall (λ x : arc, ∃ dj, dget a x.1 = Some dj ∧
                           has_support csp key x.1 v dj = Ret true) queue.
Proof.
  intros Hv. revert queue.
  induction n as [|n IH]; intros queue Hq Hrun; [done|].
  destruct queue as [|[x_j x_i] queue]; [done|].
  apply Forall_cons in Hq as [Hkey Hq]. simpl in Hkey. subst x_i.
  rewrite inference_loop_cons in Hrun.
  destruct (revise csp key x_j a) as [r1 a1] eqn:Hrev.
  destruct (revise_singleton _ _ _ _ _ _ _ Hv Hrev)
    as [[-> ->]|[[-> ->]|(e & -> & ->)]].
  - constructor; [by eapply revise_singleton_kept | by apply IH].
  - by rewrite dget_dset_eq in Hrun.
  - done.
Qed.

(** A value that the AC-3 call of [backtrack] accepts has a partner in the
    current domain of every neighbour of the selected variable. *)
Lemma accepted_value_supported key arcs a v q ps :
  get_all_neighboring_arcs csp key = Ret arcs →
  inference csp arcs (dset a key [v]) =
    (Ret (PDict (dset a key [v])), dset a key [v]) →
  legal_pairs csp key q = Some ps →
  ∃ dq y, dget (dset a key [v]) q = Some dq ∧ y ∈ dq ∧ (v, y) ∈ ps.
Proof.
  intros Harcs Hinf Hps.
  pose proof (neighboring_arcs_target _ _ _ Harcs) as Htarget.
  pose proof (inference_loop_singleton_support _ key arcs _ v _ _
                (dget_dset_eq _ _ _) Htarget Hinf) as Hsup.
  assert ((q, key) ∈ arcs) as Hin.
  { unfold get_all_neighboring_arcs, legal_pairs in *.
    destruct (dget (constraints csp) key) as [cs|]; [|done].
    injection Harcs as <-. apply list_elem_of_fmap. exists q.
    split; [done|]. apply dget_is_Some_keys. by rewrite Hps. }
  rewrite Forall_forall in Hsup.
  destruct (Hsup _ Hin) as (dq & Hdq & Hs). simpl in *.
  apply has_support_true_inv in Hs as (ps' & y & Hps' & Hy & Hvy).
  rewrite Hps in Hps'. injection Hps' as <-. by exists dq, y.
Qed.

Lemma value_of_narrows a d k x l :
  narrows a d → dget a k = Some l → value_of d k = Some x → x ∈ l.
Proof.
  intros Hnar Hl Hx.
  destruct (narrows_dget _ _ _ _ Hnar Hl) as (l' & Hl' & Hsub).
  unfold value_of in Hx. rewrite Hl' in Hx.
  destruct l' as [|x' [|? ?]]; [done| |done]. injection Hx as ->.
  eapply elem_of_sublist; [apply list_elem_of_here | done].
Qed.

Lemma decided_unique a k l x y :
  unassigned a k = false → dget a k = Some l → x ∈ l → y ∈ l → x = y.
Proof.
  unfold unassigned. intros Hun Hl Hx Hy. rewrite Hl in Hun.
  apply bool_decide_eq_false in Hun.
  destruct l as [|z [|? ?]]; [by apply elem_of_nil in Hx| |simpl in Hun; lia].
  apply list_elem_of_singleton in Hx, Hy. congruence.
Qed.

Lemma backtrack_cloned_sound n a c d c' :
  mirrored csp →
  backtrack_cloned_fuel vlt n csp a c = (Ret (PDict d), c') →
  ∀ p q ps x y,
    legal_pairs csp p q = Some ps →
    unassigned a p = true ∨ unassigned a q = true →
    value_of d p = Some x → value_of d q = Some y →
    (x, y) ∈ ps.
Proof.
  intros Hmirror. revert a c. induction n as [|n IH]; intros a c; [done|].
  intros [[Hall ->]|(key & var & v & arcs & c0 & Hkey & Hvar & Hv & Harcs &
                     Hinf & Hrec)]%backtrack_cloned_success
    p q ps x y Hps Hun Hx Hy.
  { exfalso. unfold single_valued in Hall. rewrite Forall_forall in Hall.
    assert (∀ k, unassigned a k = true → False) as Hno.
    { intros k. unfold unassigned.
      destruct (dget a k) as [l|] eqn:Hl; [|done].
      intros Hlen%bool_decide_eq_true.
      apply dget_Some_elem in Hl.
      assert (l ∈ values a) as Hin
        by (apply list_elem_of_fmap; by exists (k, l)).
      apply Hall in Hin. lia. }
    destruct Hun; eauto. }
  set (a1 := dset a key [v]) in *.
  pose proof (backtrack_cloned_result _ _ _ _ _ _ _ Hrec) as [_ Hnar].
  specialize (IH a1 c0 Hrec p q ps x y Hps).
  destruct (unassigned a1 p) eqn:Hp1; [by apply IH; [left| |]|].
  destruct (unassigned a1 q) eqn:Hq1; [by apply IH; [right| |]|].
  assert (∀ k, k ≠ key → unassigned a1 k = unassigned a k) as Hother.
  { intros k Hk. unfold unassigned, a1. by rewrite dget_dset_ne. }
  assert (dget a1 key = Some [v]) as Hkey1 by apply dget_dset_eq.
  destruct (decide (p = key)) as [->|Hpk].
  - pose proof (value_of_narrows _ _ _ _ _ Hnar Hkey1 Hx)
      as ->%list_elem_of_singleton.
    destruct (accepted_value_supported _ _ _ _ _ _ Harcs Hinf Hps)
      as (dq & y' & Hdq & Hy' & Hvy).
    pose proof (value_of_narrows _ _ _ _ _ Hnar Hdq Hy) as Hyin.
    by rewrite (decided_unique a1 q dq y y' Hq1 Hdq Hyin Hy').
  - destruct (decide (q = key)) as [->|Hqk].
    + pose proof (value_of_narrows _ _ _ _ _ Hnar Hkey1 Hy)
        as ->%list_elem_of_singleton.
      destruct (Hmirror _ _ _ Hps) as (ps' & Hps' & Hswap).
      destruct (accepted_value_supported _ _ _ _ _ _ Harcs Hinf Hps')
        as (dp & x' & Hdp & Hx' & Hvx).
      pose proof (value_of_narrows _ _ _ _ _ Hnar Hdp Hx) as Hxin.
      rewrite (decided_unique a1 p dp x x' Hp1 Hdp Hxin Hx').
      by apply Hswap.
    + rewrite Hother in Hp1, Hq1 by done.
      destruct Hun; congruence.
Qed.

End SearchSound.

Section SoundTheorems.
Context {V : Type} `{EqDecision V} (vlt : V → V → bool).
Implicit Types (csp : @CSP V) (a d : @assignment V) (c : counters).

Lemma legal_pairs_Some csp i j ps :
  legal_pairs csp i j = Some ps ↔
  ∃ cs, dget (constraints csp) i = Some cs ∧ dget cs j = Some ps.
Proof.
  unfold legal_pairs. split.
  - destruct (dget (constraints csp) i) as [cs|]; [|done]. eauto.
  - by intros (cs & -> & ->).
Qed.

Lemma mirrored_two_way csp : mirrored csp → two_way csp.
Proof.
  intros Hmirror i j (cs & ps & Hcs & Hps).
  destruct (Hmirror i j ps) as (ps' & Hps' & _).
  { apply legal_pairs_Some. eauto. }
  apply legal_pairs_Some in Hps' as (cs' & ? & ?). by exists cs', ps'.
Qed.

(** In a model whose constraints are mirrored, a dictionary returned by
    [backtrack] satisfies every constraint that involves a variable which
    had more than one value when [backtrack] was called. *)
Theorem backtrack_enforces_decided csp a c d c' p q ps x y :
  mirrored csp →
  backtrack vlt csp a c = (Ret (PDict d), c') →
  legal_pairs csp p q = Some ps →
  unassigned a p = true ∨ unassigned a q = true →
  value_of d p = Some x → value_of d q = Some y →
  (x, y) ∈ ps.
Proof.
  unfold backtrack. rewrite backtrack_fuel_isolated.
  intros Hmirror Hrun. by eapply backtrack_cloned_sound.
Qed.

Lemma search_solves_mirrored csp (s : string → V) c :
  built csp → mirrored csp → satisfying csp s →
  ∃ d c',
    backtracking_search vlt csp c = (Ret (PDict d), c') ∧
    single_valued d ∧ same_variables csp d ∧ satisfies_constraints csp d.
Proof.
  intros Hwf%built_well_formed Hmirror Hsat.
  destruct (backtracking_search_complete_well_formed vlt csp s c Hwf
              (mirrored_two_way _ Hmirror) Hsat)
    as (d & c' & Hrun & Hsingle & Hvars).
  exists d, c'. split_and!; [done..|].
  revert Hrun. unfold backtracking_search.
  destruct (inference csp (get_all_arcs csp) (domains csp)) as [pre a]
    eqn:Hpre.
  assert (contains a s) as Hin.
  { eapply inference_loop_contains; [exact Hsat | | exact (proj1 Hsat)
                                    | exact Hpre].
    apply Forall_forall. intros x Hx.
    by apply (mirrored_two_way _ Hmirror), (all_arcs_registered csp Hwf). }
  destruct pre as [pre| |]; [|done..].
  unfold bind, lift, backtrack. rewrite backtrack_fuel_isolated.
  intros Hrun i j cs ps vi vj Hcs Hps Hvi Hvj.
  assert (legal_pairs csp i j = Some ps) as Hlegal
    by (apply legal_pairs_Some; eauto).
  destruct (unassigned a i) eqn:Hi;
    [by eapply backtrack_cloned_sound; eauto|].
  destruct (unassigned a j) eqn:Hj;
    [by eapply backtrack_cloned_sound; eauto|].
  pose proof (backtrack_cloned_result _ _ _ _ _ _ _ Hrun) as [_ Hnar].
  assert (∀ k v, unassigned a k = false → value_of d k = Some v → v = s k)
    as Hfixed.
  { intros k v Hk Hv. unfold value_of in Hv.
    destruct (dget d k) as [lk|] eqn:Hlk; [|done].
    destruct (narrows_dget_inv _ _ _ _ Hnar Hlk) as (l & Hl & Hsub).
    apply (decided_unique a k l); [done | done | | by apply Hin].
    destruct lk as [|v' [|? ?]]; [done| |done]. injection Hv as ->.
    eapply elem_of_sublist; [apply list_elem_of_here | done]. }
  rewrite (Hfixed i vi Hi Hvi), (Hfixed j vj Hj Hvj).
  by eapply (proj2 Hsat).
Qed.

(** For a model built by the construction calls, with mirrored
    constraints, that has a satisfying assignment, [backtracking_search]
    returns a solution: one value per variable of the model, and every
    registered constraint holds of the values. *)
Theorem backtracking_search_solves csp (s : string → V) c :
  built csp → mirrored csp → satisfying csp s →
  ∃ d c',
    backtracking_search vlt csp c = (Ret (PDict d), c') ∧
    single_valued d ∧ same_variables csp d ∧ satisfies_constraints csp d.
Proof. apply search_solves_mirrored. Qed.

Lemma mirrored_check csp :
  Forall (λ x : arc,
            ∃ ps ps', legal_pairs csp x.1 x.2 = Some ps ∧
                      legal_pairs csp x.2 x.1 = Some ps' ∧
                      Forall (λ p, (p.2, p.1) ∈ ps') ps ∧
                      Forall (λ p, (p.2, p.1) ∈ ps) ps')
         (get_all_arcs csp) →
  mirrored csp.
Proof.
  intros Harcs i j ps Hps. rewrite Forall_forall in Harcs.
  destruct (Harcs (i, j)) as (ps0 & ps' & Hps0 & Hps' & Hfwd & Hbwd).
  { apply registered_all_arcs, registered_legal_pairs. by rewrite Hps. }
  simpl in *. rewrite Hps in Hps0. injection Hps0 as <-.
  exists ps'. split; [done|]. intros x y.
  rewrite Forall_forall in Hfwd, Hbwd. split.
  - intros Hxy. apply (Hfwd (x, y) Hxy).
  - intros Hyx. apply (Hbwd (y, x) Hyx).
Qed.

End SoundTheorems.

Lemma differ_model_mirrored : mirrored differ_model.
Proof.
  apply mirrored_check.
  repeat constructor; eexists _, _; (split; [reflexivity|]);
    (split; [reflexivity|]); split; repeat constructor;
    apply (bool_decide_unpack _); by vm_compute.
Qed.

(** ** Completeness of the search *)

Section CompletenessTheorem.
Context {V : Type} `{EqDecision V} (vlt : V → V → bool).
Implicit Types (csp : @CSP V) (c : counters).

(** C2, as amended: in a model built with [add_variable] and
    [add_constraint_one_way] whose constraints are all registered in both
    directions, if some choice of one value per variable satisfies every
    registered constraint, then [backtracking_search] raises nothing and
    does not return [False]: it returns an assignment with the variables
    of the model, each with exactly one value. When, moreover, the two
    directions of every constraint hold the same pairs, swapped, the
    returned assignment satisfies every registered constraint: it is a
    solution. *)
Theorem backtracking_search_complete csp (s : string → V) c :
  built csp → two_way csp → satisfying csp s →
  ∃ d c',
    backtracking_search vlt csp c = (Ret (PDict d), c') ∧
    single_valued d ∧ same_variables csp d ∧
    (mirrored csp → satisfies_constraints csp d).
Proof.
  intros Hbuilt Htwo Hsat.
  destruct (backtracking_search_complete_well_formed vlt csp s c
              (built_well_formed _ Hbuilt) Htwo Hsat)
    as (d & c' & Hrun & Hsingle & Hvars).
  exists d, c'. split_and!; [done..|]. intros Hmirror.
  destruct (search_solves_mirrored vlt csp s c Hbuilt Hmirror Hsat)
    as (d' & c'' & Hrun' & _ & _ & Hcons).
  rewrite Hrun in Hrun'. by injection Hrun' as -> ->.
Qed.

End CompletenessTheorem.

(** The completeness theorem applied to [differ_model] and A = 1, B = 2;
    the constraints of [differ_model] are mirrored, so the result is a
    solution. *)
Lemma backtracking_search_complete_witness :
  built differ_model ∧ two_way differ_model ∧
  satisfying differ_model one_two ∧ mirrored differ_model ∧
  ∃ d c',
    backtracking_search Z.ltb differ_model (Counters 0 0) =
      (Ret (PDict d), c') ∧
    single_valued d ∧ same_variables differ_model d ∧
    satisfies_constraints differ_model d.
Proof.
  split_and!;
    [ apply differ_model_built | apply differ_model_two_way
    | apply differ_model_satisfying | apply differ_model_mirrored |].
  destruct (backtracking_search_complete Z.ltb differ_model one_two
              (Counters 0 0) differ_model_built differ_model_two_way
              differ_model_satisfying)
    as (d & c' & Hrun & Hsingle & Hvars & Hcons).
  exists d, c'. split_and!; [exact Hrun | exact Hsingle | exact Hvars |].
  exact (Hcons differ_model_mirrored).
Defined.

(** The theorem on enforced constraints, applied to [differ_model]. *)
Lemma backtrack_enforces_decided_witness :
  mirrored differ_model ∧
  ((1, 2)%Z ∈ [(1, 2); (2, 1)]%Z).
Proof.
  split; [apply differ_model_mirrored|].
  apply (backtrack_enforces_decided Z.ltb differ_model
           (domains differ_model) (Counters 0 0)
           [(var_A, [1%Z]); (var_B, [2%Z])] (Counters 3 0)
           var_A var_B [(1, 2); (2, 1)]%Z 1%Z 2%Z);
    [apply differ_model_mirrored | reflexivity | reflexivity
    | by left | reflexivity | reflexivity].
Defined.

(** The theorem on satisfiable mirrored models, applied to [differ_model]
    and A = 1, B = 2. *)
Lemma backtracking_search_solves_witness :
  built differ_model ∧ mirrored differ_model ∧
  satisfying differ_model one_two ∧
  ∃ d c',
    backtracking_search Z.ltb differ_model (Counters 0 0) =
      (Ret (PDict d), c') ∧
    single_valued d ∧ same_variables differ_model d ∧
    satisfies_constraints differ_model d.
Proof.
  split_and!; [apply differ_model_built | apply differ_model_mirrored
              | apply differ_model_satisfying |].
  apply (backtracking_search_solves Z.ltb differ_model one_two (Counters 0 0));
    [apply differ_model_built | apply differ_model_mirrored
    | apply differ_model_satisfying].
Defined.

(** The theorem on the effect of a registration, applied to a second
    registration for (A, B) in [one_way_model]. *)
Lemma add_constraint_one_way_effect_witness :
  add_constraint_one_way one_way_model var_A var_B (λ _ _, false) =
    Ret (MkCSP [var_A; var_B] [(var_A, [1]%Z); (var_B, [2]%Z)]
               [(var_A, [(var_B, [])]); (var_B, [])]) ∧
  ∀ i' j', (i', j') ≠ (var_A, var_B) →
    legal_pairs
      (MkCSP [var_A; var_B] [(var_A, [1]%Z); (var_B, [2]%Z)]
             [(var_A, [(var_B, [])]); (var_B, [])]) i' j' =
    legal_pairs one_way_model i' j'.
Proof.
  split; [reflexivity|].
  apply (add_constraint_one_way_effect one_way_model var_A var_B
           (λ _ _, false)
           (MkCSP [var_A; var_B] [(var_A, [1]%Z); (var_B, [2]%Z)]
                  [(var_A, [(var_B, [])]); (var_B, [])])).
  reflexivity.
Defined.

(** The theorem on registering twice, applied to [one_way_model]. *)
Lemma add_constraint_one_way_twice_witness :
  add_constraint_one_way
    (MkCSP [var_A; var_B] [(var_A, [1]%Z); (var_B, [2]%Z)]
           [(var_A, [(var_B, [(1, 2)%Z])]); (var_B, [])])
    var_A var_B (λ x y, (x <? y)%Z) =
  add_constraint_one_way one_way_model var_A var_B
    (λ x y, true && (x <? y)%Z).
Proof.
  apply (add_constraint_one_way_twice one_way_model var_A var_B
           (λ _ _, true) (λ x y, (x <? y)%Z)).
  reflexivity.
Defined.

(** The theorem on the arcs of a built model, applied to [differ_model]. *)
Lemma get_all_arcs_registered_witness :
  built differ_model ∧
  ((var_A, var_B) ∈ get_all_arcs differ_model ↔
   registered differ_model var_A var_B).
Proof.
  split; [apply differ_model_built|].
  apply (get_all_arcs_registered differ_model var_A var_B).
  apply differ_model_built.
Defined.

(** ** What the construction calls maintain *)

Section BuiltInvariant.
Context {V : Type} `{EqDecision V}.
Implicit Types (csp : @CSP V).

Lemma elem_of_keys_dset {A} (d : dict A) k k' v :
  k' ∈ keys (dset d k v) ↔ k' = k ∨ k' ∈ keys d.
Proof.
  rewrite <-!dget_is_Some_keys, dget_dset. case_decide as Hk.
  - subst k'. split; [by left | by eexists].
  - split; [by right | by intros [?|?]].
Qed.

Lemma built_variables csp k :
  built csp → (k ∈ variables csp ↔ k ∈ keys (domains csp)).
Proof.
  induction 1 as [|csp name domain _ IH|csp i j f csp' _ IH Hadd].
  - done.
  - simpl. rewrite elem_of_app, list_elem_of_singleton, elem_of_keys_dset.
    rewrite IH. tauto.
  - unfold add_constraint_one_way in Hadd.
    destruct (dget (constraints csp) i) as [cs|]; [|done].
    destruct (match dget cs j with Some ps => Ret ps | None => _ end)
      as [ps| |]; [|done..].
    by injection Hadd as <-.
Qed.

(** Every model built by [add_variable] and [add_constraint_one_way] has
    distinct keys in [domains], the same keys in [constraints] as in
    [domains], lists in [variables] exactly the names that have a domain,
    and has constraints only between names that have a domain. *)
Theorem built_invariant csp :
  built csp →
  NoDup (keys (domains csp)) ∧
  keys (constraints csp) = keys (domains csp) ∧
  (∀ k, k ∈ variables csp ↔ k ∈ keys (domains csp)) ∧
  (∀ i j, registered csp i j →
          i ∈ keys (domains csp) ∧ j ∈ keys (domains csp)).
Proof.
  intros Hbuilt. destruct (built_well_formed csp Hbuilt) as [Hnd Htab Hvars].
  split_and!; [done | done | |].
  - intros k. by apply built_variables.
  - intros i j Hreg. rewrite <-!dget_is_Some_keys. by apply Hvars.
Qed.

End BuiltInvariant.

(** The invariant of built models, read on [differ_model]. *)
Lemma built_invariant_witness :
  built differ_model ∧
  NoDup (keys (domains differ_model)) ∧
  keys (constraints differ_model) = keys (domains differ_model) ∧
  (∀ k, k ∈ variables differ_model ↔ k ∈ keys (domains differ_model)) ∧
  (∀ i j, registered differ_model i j →
          i ∈ keys (domains differ_model) ∧ j ∈ keys (domains differ_model)).
Proof.
  split; [apply differ_model_built|].
  apply (built_invariant differ_model). apply differ_model_built.
Defined.

(** ** The all-different constraint *)

Section AllDifferent.
Context {V : Type} `{EqDecision V}.
Implicit Types (csp : @CSP V) (pairs : list (string * string)).

Lemma all_different_fold_not_Ret pairs r :
  (∀ csp, r ≠ Ret csp) →
  ∀ csp, foldl all_different_step r pairs ≠ Ret csp.
Proof.
  revert r. induction pairs as [|x pairs IH]; intros r Hr; [exact Hr|].
  simpl. apply IH. destruct r as [csp0| |]; [by destruct (Hr csp0)|done..].
Qed.

Lemma seed_pairs_legal csp i j ps :
  legal_pairs csp i j = Some ps → seed_pairs csp i j = Some ps.
Proof. unfold seed_pairs. by intros ->. Qed.

Lemma filter_different_idemp (l : list (V * V)) :
  filter (λ p, different p.1 p.2 = true)
         (filter (λ p, different p.1 p.2 = true) l) =
  filter (λ p, different p.1 p.2 = true) l.
Proof. rewrite list_filter_filter. apply list_filter_iff. tauto. Qed.

(** The loop over a list of ordered pairs: each pair of different names in
    the list ends with its seed filtered by [x != y]; nothing else
    changes. *)
Lemma all_different_fold_effect pairs csp csp' :
  foldl all_different_step (Ret csp) pairs = Ret csp' →
  variables csp' = variables csp ∧
  domains csp' = domains csp ∧
  keys (constraints csp') = keys (constraints csp) ∧
  ∀ i j,
    legal_pairs csp' i j =
    if decide ((i, j) ∈ pairs ∧ i ≠ j)
    then filter (λ p, different p.1 p.2 = true) <$> seed_pairs csp i j
    else legal_pairs csp i j.
Proof.
  revert csp. induction pairs as [|[i0 j0] pairs IH]; intros csp.
  { intros [= <-]. split_and!; [done..|]. intros i j.
    rewrite decide_False; [done|]. by intros [?%elem_of_nil _]. }
  simpl. destruct (decide (i0 ≠ j0)) as [Hne|Heq].
  - destruct (add_constraint_one_way csp i0 j0 (λ x y, different x y))
      as [csp1| |] eqn:Hadd;
      [|intros Hrun; by eapply all_different_fold_not_Ret in Hrun..].
    apply add_constraint_one_way_changes in Hadd
      as (Hvars & Hdom & Hkeys & (seed & Hseed & Hnew) & Hother).
    intros (Hvars' & Hdom' & Hkeys' & Hlegal)%IH.
    split_and!; [congruence | congruence | congruence |].
    intros i j. rewrite Hlegal.
    assert (seed_pairs csp i0 j0 = Some seed) as Hseed0.
    { unfold seed_pairs. destruct (legal_pairs csp i0 j0); [by subst|].
      destruct Hseed as (di & dj & -> & -> & ->). done. }
    destruct (decide ((i, j) = (i0, j0))) as [[= -> ->]|Hij].
    + rewrite (decide_True (P := (i0, j0) ∈ (i0, j0) :: pairs ∧ i0 ≠ j0))
        by (split; [apply list_elem_of_here | done]).
      rewrite Hseed0. simpl. case_decide.
      * rewrite (seed_pairs_legal _ _ _ _ Hnew). simpl.
        by rewrite filter_different_idemp.
      * done.
    + assert (seed_pairs csp1 i j = seed_pairs csp i j) as ->.
      { unfold seed_pairs. by rewrite Hother, Hdom. }
      rewrite Hother by done.
      apply decide_ext. rewrite elem_of_cons. tauto.
  - intros (Hvars' & Hdom' & Hkeys' & Hlegal)%IH.
    split_and!; [done..|]. intros i j. rewrite Hlegal.
    apply decide_ext. rewrite elem_of_cons. split; [tauto|].
    intros [[[= -> ->]|Hin] Hij]; [by destruct Heq | done].
Qed.

Lemma elem_of_all_pairs (var_list : list string) i j :
  (i, j) ∈ get_all_possible_pairs var_list var_list ↔
  i ∈ var_list ∧ j ∈ var_list.
Proof.
  unfold get_all_possible_pairs.
  rewrite list_elem_of_In, in_prod_iff, <-!list_elem_of_In. done.
Qed.

Lemma add_all_different_constraint_changes csp var_list csp' :
  add_all_different_constraint csp var_list = Ret csp' →
  variables csp' = variables csp ∧
  domains csp' = domains csp ∧
  keys (constraints csp') = keys (constraints csp) ∧
  ∀ i j,
    legal_pairs csp' i j =
    if decide (i ∈ var_list ∧ j ∈ var_list ∧ i ≠ j)
    then filter (λ p, different p.1 p.2 = true) <$> seed_pairs csp i j
    else legal_pairs csp i j.
Proof.
  unfold add_all_different_constraint.
  intros (Hvars & Hdom & Hkeys & Hlegal)%all_different_fold_effect.
  split_and!; [done..|]. intros i j. rewrite Hlegal.
  apply decide_ext. rewrite elem_of_all_pairs. tauto.
Qed.

Lemma all_different_fold_seeded pairs csp csp' i j :
  foldl all_different_step (Ret csp) pairs = Ret csp' →
  (i, j) ∈ pairs → i ≠ j → is_Some (seed_pairs csp i j).
Proof.
  revert csp. induction pairs as [|[i0 j0] pairs IH]; intros csp.
  { by intros _ ?%elem_of_nil. }
  simpl. destruct (decide (i0 ≠ j0)) as [Hne|Heq].
  - destruct (add_constraint_one_way csp i0 j0 (λ x y, different x y))
      as [csp1| |] eqn:Hadd;
      [|intros Hrun; by eapply all_different_fold_not_Ret in Hrun..].
    apply add_constraint_one_way_changes in Hadd
      as (Hvars & Hdom & Hkeys & (seed & Hseed & Hnew) & Hother).
    intros Hrun Hin Hij.
    destruct (decide ((i, j) = (i0, j0))) as [[= -> ->]|Hdiff].
    + unfold seed_pairs. destruct (legal_pairs csp i0 j0); [done|].
      destruct Hseed as (di & dj & -> & -> & _). done.
    + apply elem_of_cons in Hin as [?|Hin]; [done|].
      specialize (IH csp1 Hrun Hin Hij).
      unfold seed_pairs in *. by rewrite Hother, Hdom in IH.
  - intros Hrun [[= -> ->]|Hin]%elem_of_cons Hij; [by destruct Heq|].
    by apply (IH csp).
Qed.

Lemma all_different_fold_built pairs csp csp' :
  built csp → foldl all_different_step (Ret csp) pairs = Ret csp' →
  built csp'.
Proof.
  revert csp. induction pairs as [|[i0 j0] pairs IH]; intros csp Hbuilt.
  { by intros [= <-]. }
  simpl. destruct (decide (i0 ≠ j0)); [|by apply IH].
  destruct (add_constraint_one_way csp i0 j0 (λ x y, different x y))
    as [csp1| |] eqn:Hadd;
    [|intros Hrun; by eapply all_different_fold_not_Ret in Hrun..].
  apply IH. by eapply built_add_constraint.
Qed.

Lemma all_different_fold_succeeds pairs csp :
  Forall (λ x, (x.1 ∈ keys (constraints csp) ∧ x.1 ∈ keys (domains csp)) ∧
               (x.2 ∈ keys (constraints csp) ∧ x.2 ∈ keys (domains csp)))
         pairs →
  ∃ csp', foldl all_different_step (Ret csp) pairs = Ret csp'.
Proof.
  revert csp. induction pairs as [|[i0 j0] pairs IH]; intros csp Hall.
  { by eexists. }
  apply Forall_cons in Hall as [[[Hci Hdi] [Hcj Hdj]] Hall]. simpl in *.
  destruct (decide (i0 ≠ j0)); [|by apply IH].
  assert (∃ csp1, add_constraint_one_way csp i0 j0 (λ x y, different x y)
                  = Ret csp1) as [csp1 Hadd].
  { unfold add_constraint_one_way.
    apply dget_is_Some_keys in Hci as [cs ->].
    apply dget_is_Some_keys in Hdi as [di ->].
    apply dget_is_Some_keys in Hdj as [dj ->].
    destruct (dget cs j0); by eexists. }
  rewrite Hadd. apply IH.
  apply add_constraint_one_way_changes in Hadd as (_ & -> & -> & _). done.
Qed.

Lemma different_sym (x y : V) : different x y = different y x.
Proof.
  unfold different. destruct (decide (x = y)) as [->|Hne]; [done|].
  rewrite !bool_decide_eq_false_2; [done | congruence | done].
Qed.

Lemma seed_pairs_mirrored csp i j seed seed' :
  mirrored csp →
  seed_pairs csp i j = Some seed → seed_pairs csp j i = Some seed' →
  ∀ x y, (x, y) ∈ seed ↔ (y, x) ∈ seed'.
Proof.
  intros Hmirror. unfold seed_pairs.
  destruct (legal_pairs csp i j) as [ps|] eqn:Hij.
  - destruct (Hmirror i j ps Hij) as (ps' & -> & Hswap).
    by intros [= <-] [= <-].
  - destruct (legal_pairs csp j i) as [ps'|] eqn:Hji.
    { destruct (Hmirror j i ps' Hji) as (ps & Hps & _). congruence. }
    destruct (dget (domains csp) i) as [di|]; [|by destruct (dget _ j)].
    destruct (dget (domains csp) j) as [dj|]; [|done].
    intros [= <-] [= <-] x y. unfold get_all_possible_pairs.
    rewrite !list_elem_of_In, !in_prod_iff. tauto.
Qed.

Lemma add_all_different_constraint_keeps_mirrored csp var_list csp' :
  mirrored csp →
  add_all_different_constraint csp var_list = Ret csp' →
  mirrored csp'.
Proof.
  intros Hmirror Hrun.
  pose proof (add_all_different_constraint_changes _ _ _ Hrun)
    as (_ & _ & _ & Hlegal).
  assert (∀ i j, i ∈ var_list → j ∈ var_list → i ≠ j →
                 is_Some (seed_pairs csp i j)) as Hseeded.
  { intros i j Hi Hj Hij.
    apply (all_different_fold_seeded _ _ _ _ _ Hrun); [|done].
    by apply elem_of_all_pairs. }
  intros i j ps. rewrite !Hlegal.
  destruct (decide (i ∈ var_list ∧ j ∈ var_list ∧ i ≠ j))
    as [(Hi & Hj & Hij)|Hno].
  - rewrite decide_True by (split_and!; [done | done | congruence]).
    destruct (Hseeded i j) as [seed Hseed]; [done..|].
    destruct (Hseeded j i) as [seed' Hseed']; [done | done | congruence |].
    rewrite Hseed, Hseed'. simpl. intros [= <-]. eexists. split; [done|].
    intros x y. rewrite !list_elem_of_filter. simpl.
    rewrite (different_sym y x).
    by rewrite (seed_pairs_mirrored _ _ _ _ _ Hmirror Hseed Hseed' x y).
  - rewrite decide_False by (intros (? & ? & ?); apply Hno; split_and!;
                              [done | done | congruence]).
    apply Hmirror.
Qed.

(** A successful [add_all_different_constraint] leaves the variables and
    domains alone. For two different names of the group, the legal pairs
    become the former pairs (the cross product of the two domains when
    there were none) whose two values differ; every other pair of names
    keeps its legal pairs. *)
Theorem add_all_different_constraint_effect csp var_list csp' :
  add_all_different_constraint csp var_list = Ret csp' →
  variables csp' = variables csp ∧
  domains csp' = domains csp ∧
  (∀ i j, i ∈ var_list → j ∈ var_list → i ≠ j →
     ∃ seed, seed_pairs csp i j = Some seed ∧
             legal_pairs csp' i j =
               Some (filter (λ p, different p.1 p.2 = true) seed)) ∧
  (∀ i j, ¬ (i ∈ var_list ∧ j ∈ var_list ∧ i ≠ j) →
     legal_pairs csp' i j = legal_pairs csp i j).
Proof.
  intros Hrun.
  pose proof (add_all_different_constraint_changes _ _ _ Hrun)
    as (Hvars & Hdom & _ & Hlegal).
  split_and!; [done | done | |].
  - intros i j Hi Hj Hij.
    destruct (all_different_fold_seeded _ _ _ i j Hrun) as [seed Hseed];
      [by apply elem_of_all_pairs | done |].
    exists seed. split; [done|].
    rewrite Hlegal, decide_True, Hseed; done.
  - intros i j Hno. by rewrite Hlegal, decide_False.
Qed.

(** [add_all_different_constraint] succeeds when every name of the group
    has a constraint table and a domain. *)
Theorem add_all_different_constraint_succeeds csp var_list :
  Forall (λ k, k ∈ keys (constraints csp) ∧ k ∈ keys (domains csp))
         var_list →
  ∃ csp', add_all_different_constraint csp var_list = Ret csp'.
Proof.
  intros Hall. apply all_different_fold_succeeds.
  apply Forall_forall. intros [i j] [Hi Hj]%elem_of_all_pairs.
  rewrite Forall_forall in Hall. split; by apply Hall.
Qed.

(** [add_all_different_constraint] keeps the constraints mirrored: it
    treats the two directions of every pair of the group alike. *)
Theorem add_all_different_constraint_mirrored csp var_list csp' :
  mirrored csp →
  add_all_different_constraint csp var_list = Ret csp' →
  mirrored csp'.
Proof. apply add_all_different_constraint_keeps_mirrored. Qed.

(** All-different, end to end: take a built model with mirrored
    constraints, add an all-different constraint over a group, and let the
    result have a satisfying assignment. Then [backtracking_search]
    returns an assignment in which no two variables of the group have the
    same value. *)
Theorem all_different_solution csp0 var_list csp (s : string → V) vlt c :
  built csp0 → mirrored csp0 →
  add_all_different_constraint csp0 var_list = Ret csp →
  satisfying csp s →
  ∃ d c',
    backtracking_search vlt csp c = (Ret (PDict d), c') ∧
    single_valued d ∧ same_variables csp d ∧
    ∀ i j x y,
      i ∈ var_list → j ∈ var_list → i ≠ j →
      value_of d i = Some x → value_of d j = Some y → x ≠ y.
Proof.
  intros Hbuilt Hmirror Hrun Hsat.
  assert (built csp) as Hbuilt'
    by (by eapply all_different_fold_built).
  pose proof (add_all_different_constraint_keeps_mirrored _ _ _ Hmirror Hrun)
    as Hmirror'.
  destruct (search_solves_mirrored vlt csp s c Hbuilt' Hmirror' Hsat)
    as (d & c' & Hsolve & Hsingle & Hvars & Hcons).
  exists d, c'. split_and!; [done..|].
  intros i j x y Hi Hj Hij Hx Hy.
  pose proof (add_all_different_constraint_changes _ _ _ Hrun)
    as (_ & _ & _ & Hlegal).
  specialize (Hlegal i j). rewrite decide_True in Hlegal by done.
  destruct (all_different_fold_seeded _ _ _ i j Hrun) as [seed Hseed];
    [by apply elem_of_all_pairs | done |].
  rewrite Hseed in Hlegal. simpl in Hlegal.
  apply legal_pairs_Some in Hlegal as (cs & Hcs & Hps).
  pose proof (Hcons i j cs _ x y Hcs Hps Hx Hy) as Hin.
  apply list_elem_of_filter in Hin as [Hdiff _]. simpl in Hdiff.
  unfold different in Hdiff. apply negb_true_iff in Hdiff.
  by apply bool_decide_eq_false in Hdiff.
Qed.

End AllDifferent.

(** [differ_model] is also what an all-different constraint over A and B
    builds. *)
Lemma two_variables_all_different :
  add_all_different_constraint two_variables [var_A; var_B] = Ret differ_model.
Proof. reflexivity. Qed.

Lemma two_variables_built : built two_variables.
Proof. apply built_add_variable, built_add_variable, built_empty. Qed.

Lemma two_variables_mirrored : mirrored two_variables.
Proof. apply mirrored_check. constructor. Qed.

(** The theorem on the effect of an all-different constraint, applied to
    A and B in [two_variables]. *)
Lemma add_all_different_constraint_effect_witness :
  add_all_different_constraint two_variables [var_A; var_B] =
    Ret differ_model ∧
  variables differ_model = variables two_variables ∧
  domains differ_model = domains two_variables ∧
  (∀ i j, i ∈ [var_A; var_B] → j ∈ [var_A; var_B] → i ≠ j →
     ∃ seed, seed_pairs two_variables i j = Some seed ∧
             legal_pairs differ_model i j =
               Some (filter (λ p, different p.1 p.2 = true) seed)) ∧
  (∀ i j, ¬ (i ∈ [var_A; var_B] ∧ j ∈ [var_A; var_B] ∧ i ≠ j) →
     legal_pairs differ_model i j = legal_pairs two_variables i j).
Proof.
  split; [reflexivity|].
  apply (add_all_different_constraint_effect two_variables [var_A; var_B]
           differ_model).
  reflexivity.
Defined.

(** The theorem on success, applied to A and B in [two_variables]. *)
Lemma add_all_different_constraint_succeeds_witness :
  ∃ csp',
    add_all_different_constraint two_variables [var_A; var_B] = Ret csp'.
Proof.
  apply (add_all_different_constraint_succeeds two_variables [var_A; var_B]).
  repeat constructor; apply (bool_decide_unpack _); by vm_compute.
Defined.

(** The theorem on mirrored constraints, applied to [two_variables]. *)
Lemma add_all_different_constraint_mirrored_witness :
  mirrored two_variables ∧ mirrored differ_model.
Proof.
  split; [apply two_variables_mirrored|].
  apply (add_all_different_constraint_mirrored two_variables
           [var_A; var_B] differ_model).
  - apply two_variables_mirrored.
  - reflexivity.
Defined.

(** The end-to-end theorem, applied to [two_variables], the group A, B
    and A = 1, B = 2. *)
Lemma all_different_solution_witness :
  built two_variables ∧ mirrored two_variables ∧
  satisfying differ_model one_two ∧
  ∃ d c',
    backtracking_search Z.ltb differ_model (Counters 0 0) =
      (Ret (PDict d), c') ∧
    single_valued d ∧ same_variables differ_model d ∧
    ∀ i j x y,
      i ∈ [var_A; var_B] → j ∈ [var_A; var_B] → i ≠ j →
      value_of d i = Some x → value_of d j = Some y → x ≠ y.
Proof.
  split_and!; [apply two_variables_built | apply two_variables_mirrored
              | apply differ_model_satisfying |].
  apply (all_different_solution two_variables [var_A; var_B] differ_model
           one_two Z.ltb (Counters 0 0)).
  - apply two_variables_built.
  - apply two_variables_mirrored.
  - reflexivity.
  - apply differ_model_satisfying.
Defined.

(** ** How the two counters move *)

Section CounterBounds.
Context {V : Type} `{EqDecision V} (vlt : V → V → bool) (csp : @CSP V).
Implicit Types (a : @assignment V) (c : counters).

Lemma try_values_cloned_counters rec key var a c :
  (∀ a0 c0,
     failure_count c0 ≤ failure_count (rec a0 c0).2 ∧
     backtrack_call_count c0 ≤ backtrack_call_count (rec a0 c0).2 ∧
     failure_count (rec a0 c0).2 + backtrack_call_count c0 ≤
       failure_count c0 + backtrack_call_count (rec a0 c0).2) →
  let res := try_values_cloned rec csp key var a c in
  failure_count c ≤ failure_count res.2 ∧
  backtrack_call_count c ≤ backtrack_call_count res.2 ∧
  failure_count res.2 + backtrack_call_count c ≤
    failure_count c + backtrack_call_count res.2 + 1 ∧
  (res.1 ≠ Ret PFalse →
   failure_count res.2 + backtrack_call_count c ≤
     failure_count c + backtrack_call_count res.2) ∧
  (res.1 = Ret PFalse → failure_count c < failure_count res.2).
Proof.
  intros Hrec. revert c. induction var as [|value var IH]; intros c.
  { simpl. split_and!; [lia | lia | lia | done | lia]. }
  cbv zeta. rewrite try_values_cloned_cons.
  destruct (get_all_neighboring_arcs csp key) as [arcs| |];
    [|simpl; split_and!; [lia | lia | lia | lia | done]..].
  destruct (inference csp arcs (dset a key [value])) as [[inf| |] a'];
    [|simpl; split_and!; [lia | lia | lia | lia | done]..].
  destruct (truthy inf); [|apply IH].
  specialize (Hrec a' c).
  destruct (rec a' c) as [[res| |] c1]; simpl in Hrec;
    [|simpl; split_and!; [lia | lia | lia | lia | done]..].
  destruct (truthy res) eqn:Hres.
  - simpl. split_and!; [lia | lia | lia | lia |].
    intros [= ->]. done.
  - specialize (IH c1). simpl in IH.
    destruct (try_values_cloned rec csp key var a c1) as [r c2].
    simpl in *. destruct IH as (? & ? & ? & Hsucc & Hfail).
    split_and!; [lia | lia | lia | | ].
    + intros Hr. specialize (Hsucc Hr). lia.
    + intros Hr. specialize (Hfail Hr). lia.
Qed.

Lemma backtrack_cloned_counters n a c :
  let res := backtrack_cloned_fuel vlt n csp a c in
  failure_count c ≤ failure_count res.2 ∧
  backtrack_call_count c ≤ backtrack_call_count res.2 ∧
  failure_count res.2 + backtrack_call_count c ≤
    failure_count c + backtrack_call_count res.2 ∧
  (res.1 = Ret PFalse → failure_count c < failure_count res.2) ∧
  (res.1 ≠ OutOfFuel →
   backtrack_call_count c < backtrack_call_count res.2).
Proof.
  revert a c. induction n as [|n IH]; intros a c.
  { simpl. split_and!; [lia | lia | lia | done | done]. }
  cbv zeta. rewrite backtrack_cloned_fuel_S. cbv zeta.
  case_bool_decide.
  { simpl. split_and!; [lia | lia | lia | done | lia]. }
  destruct (select_unassigned_variable a) as [key| |];
    [|simpl; split_and!; [lia | lia | lia | done | first [lia | done]]..].
  destruct (dget a key) as [var|];
    [|simpl; split_and!; [lia | lia | lia | done | lia]].
  pose proof (try_values_cloned_counters (backtrack_cloned_fuel vlt n csp)
                key (sort vlt var) a
                (Counters (S (backtrack_call_count c)) (failure_count c)))
    as Hloop.
  simpl in Hloop.
  destruct (try_values_cloned _ csp key (sort vlt var) a _) as [r c'].
  simpl in *.
  destruct Hloop as (? & ? & ? & Hsucc & Hfail).
  { intros a0 c0. destruct (IH a0 c0) as (? & ? & ? & _). done. }
  split_and!; [lia | lia | | done | lia].
  destruct r as [[|d]| |].
  - specialize (Hfail eq_refl). lia.
  - specialize (Hsucc ltac:(done)). lia.
  - specialize (Hsucc ltac:(done)). lia.
  - specialize (Hsucc ltac:(done)). lia.
Qed.

(** Every call of [backtrack] counts itself, the failure counter never
    grows by more than the call counter, and a call that returns [False]
    has counted at least one failure. *)
Theorem backtrack_counters a c :
  let res := backtrack vlt csp a c in
  backtrack_call_count c < backtrack_call_count res.2 ∧
  failure_count c ≤ failure_count res.2 ∧
  failure_count res.2 + backtrack_call_count c ≤
    failure_count c + backtrack_call_count res.2 ∧
  match res.1 with
  | Ret PFalse => failure_count c < failure_count res.2
  | _ => True
  end.
Proof.
  pose proof (backtrack_fuel_enough vlt csp a c) as Hfuel.
  unfold backtrack in *. rewrite backtrack_fuel_isolated in *.
  pose proof (backtrack_cloned_counters (backtrack_depth a) a c) as Hcount.
  cbv zeta in *.
  destruct (backtrack_cloned_fuel vlt (backtrack_depth a) csp a c) as [r c'].
  cbn [fst snd] in *. destruct Hcount as (? & ? & ? & Hfalse & Hcalls).
  split_and!; [by apply Hcalls | done | done |].
  destruct r as [[|d]| |]; [by apply Hfalse | done..].
Qed.

End CounterBounds.

(** ** The Sudoku builder *)

Section Sudoku.
Implicit Types (board : list string) (csp : @CSP string).
Implicit Types (cells : list (nat * nat)) (groups : list (list string)).

Lemma string_get_is_Some (s : string) n :
  is_Some (String.get n s) ↔ n < String.length s.
Proof.
  revert n. induction s as [|a s IH]; intros [|n]; simpl.
  - split; [by intros [? ?] | lia].
  - split; [by intros [? ?] | lia].
  - split; [lia | by eexists].
  - rewrite IH. lia.
Qed.

Lemma board_cell_Ret board row col :
  (∃ ch, board_cell board row col = Ret ch) ↔
  ∃ line, board !! row = Some line ∧ col < String.length line.
Proof.
  unfold board_cell. split.
  - destruct (board !! row) as [line|]; [|by intros [? ?]].
    intros [ch Hch]. exists line. split; [done|].
    apply string_get_is_Some.
    destruct (String.get col line); [by eexists | done].
  - intros (line & -> & [a ->]%string_get_is_Some). by eexists.
Qed.

Lemma board_cell_cases board row col :
  (∃ ch, board_cell board row col = Ret ch) ∨
  board_cell board row col = Raise IndexError.
Proof.
  unfold board_cell. destruct (board !! row) as [line|]; [|by right].
  destruct (String.get col line); [left; by eexists | by right].
Qed.

Lemma elem_of_cell_positions row col :
  (row, col) ∈ list_prod (seq 0 9) (seq 0 9) ↔ row < 9 ∧ col < 9.
Proof. rewrite list_elem_of_In, in_prod_iff, !in_seq. lia. Qed.

Lemma well_shaped_readable board :
  well_shaped board ↔
  Forall (λ cell : nat * nat, ∃ ch, board_cell board cell.1 cell.2 = Ret ch)
         (list_prod (seq 0 9) (seq 0 9)).
Proof.
  rewrite Forall_forall. split.
  - intros [Hlen Hlines] [row col] [Hrow Hcol]%elem_of_cell_positions. simpl.
    apply board_cell_Ret.
    destruct (lookup_lt_is_Some_2 board row) as [line Hline]; [lia|].
    exists line. split; [done|]. specialize (Hlines row line Hrow Hline). lia.
  - intros Hall. split.
    + destruct (Hall (8, 0)) as [ch Hch]; [apply elem_of_cell_positions; lia|].
      destruct (proj1 (board_cell_Ret board 8 0)) as (line & Hline & _);
        [by eexists|].
      apply lookup_lt_Some in Hline. lia.
    + intros row line Hrow Hline.
      destruct (Hall (row, 8)) as [ch Hch];
        [apply elem_of_cell_positions; lia|].
      destruct (proj1 (board_cell_Ret board row 8)) as (line' & Hline' & Hlen);
        [by eexists|].
      rewrite Hline in Hline'. injection Hline' as <-. lia.
Qed.

Lemma cells_readable_or_not board cells :
  Forall (λ cell : nat * nat, ∃ ch, board_cell board cell.1 cell.2 = Ret ch)
         cells ∨
  Exists (λ cell : nat * nat, board_cell board cell.1 cell.2 = Raise IndexError)
         cells.
Proof.
  induction cells as [|cell cells [IH|IH]].
  - left. constructor.
  - destruct (board_cell_cases board cell.1 cell.2) as [Hch|Hraise].
    + left. by constructor.
    + right. by constructor.
  - right. by apply Exists_cons_tl.
Qed.

(** *** The loop that adds the variables *)

Lemma sudoku_variable_fold_Raise board cells e :
  foldl (sudoku_variable_step board) (Raise e) cells = Raise e.
Proof. induction cells; [done|]. simpl. done. Qed.

Lemma sudoku_variable_fold_raises board cells csp :
  Exists (λ cell : nat * nat, board_cell board cell.1 cell.2 = Raise IndexError)
         cells →
  foldl (sudoku_variable_step board) (Ret csp) cells = Raise IndexError.
Proof.
  revert csp. induction cells as [|cell cells IH]; intros csp Hex;
    [by apply Exists_nil in Hex|].
  simpl. destruct (board_cell_cases board cell.1 cell.2) as [[ch Hch]|Hraise].
  - rewrite Hch. apply IH.
    apply Exists_cons in Hex as [Hex|Hex]; [congruence | done].
  - rewrite Hraise. apply sudoku_variable_fold_Raise.
Qed.

Lemma sudoku_variable_fold board cells csp :
  Forall (λ cell : nat * nat, ∃ ch, board_cell board cell.1 cell.2 = Ret ch)
         cells →
  ∃ csp',
    foldl (sudoku_variable_step board) (Ret csp) cells = Ret csp' ∧
    variables csp' =
      variables csp ++ ((λ cell : nat * nat, cell_name cell.1 cell.2) <$> cells) ∧
    (built csp → built csp') ∧
    ((∀ i j, legal_pairs csp i j = None) →
     ∀ i j, legal_pairs csp' i j = None) ∧
    (∀ k, k ∉ (λ cell : nat * nat, cell_name cell.1 cell.2) <$> cells →
          dget (domains csp') k = dget (domains csp) k) ∧
    (NoDup (keys (domains csp) ++
            ((λ cell : nat * nat, cell_name cell.1 cell.2) <$> cells)) →
     keys (domains csp') =
       keys (domains csp) ++
       ((λ cell : nat * nat, cell_name cell.1 cell.2) <$> cells)) ∧
    (NoDup ((λ cell : nat * nat, cell_name cell.1 cell.2) <$> cells) →
     ∀ cell, cell ∈ cells →
       ∃ ch, board_cell board cell.1 cell.2 = Ret ch ∧
             dget (domains csp') (cell_name cell.1 cell.2) =
               Some (if decide (ch = "0"%string) then digits else [ch])).
Proof.
  revert csp. induction cells as [|cell cells IH]; intros csp Hall.
  { exists csp. split_and!; [done | symmetry; apply app_nil_r | done | auto | done
                                | intros _; symmetry; apply app_nil_r |].
    by intros _ cell ?%elem_of_nil. }
  apply Forall_cons in Hall as [[ch Hch] Hall]. simpl. rewrite Hch.
  destruct (IH (add_variable csp (cell_name cell.1 cell.2)
                  (if decide (ch = "0"%string) then digits else [ch])) Hall)
    as (csp' & Hrun & Hvars & Hbuilt & Hnone & Hother & Hkeys & Hdom).
  exists csp'. split_and!.
  - done.
  - rewrite Hvars. simpl. by rewrite <-app_assoc.
  - intros Hb. apply Hbuilt. by apply built_add_variable.
  - intros Hn. apply Hnone. intros i j. unfold legal_pairs. simpl.
    rewrite dget_dset.
    destruct (decide (cell_name cell.1 cell.2 = i)); [done | apply Hn].
  - intros k [Hk Hk']%not_elem_of_cons. rewrite Hother by done. simpl.
    by rewrite dget_dset_ne.
  - intros Hnd. simpl in Hkeys.
    assert (dget (domains csp) (cell_name cell.1 cell.2) = None) as Hnew.
    { apply dget_None_keys. intros Hin.
      apply NoDup_app in Hnd as (_ & Hnd & _).
      apply (Hnd _ Hin). apply list_elem_of_here. }
    rewrite (keys_dset_new _ _ _ Hnew) in Hkeys.
    rewrite cons_middle, (assoc_L (++)) in Hnd.
    rewrite (Hkeys Hnd), <-(assoc_L (++)). done.
  - intros [Hnotin Hnd]%NoDup_cons cell' [->|Hin]%elem_of_cons.
    + exists ch. split; [done|]. rewrite Hother by done. simpl.
      apply dget_dset_eq.
    + by apply Hdom.
Qed.

(** *** The loops that add the all-different constraints *)

Lemma group_fold_not_Ret groups (r : result (@CSP string)) :
  (∀ csp, r ≠ Ret csp) →
  ∀ csp, foldl all_different_group_step r groups ≠ Ret csp.
Proof.
  revert r. induction groups as [|g groups IH]; intros r Hr; [exact Hr|].
  simpl. apply IH. destruct r as [csp0| |]; [by destruct (Hr csp0)|done..].
Qed.

Lemma group_fold_Raise groups e :
  foldl all_different_group_step (Raise e) groups = Raise e.
Proof. induction groups; [done|]. simpl. done. Qed.

Lemma seed_pairs_None csp i j :
  seed_pairs csp i j = None →
  legal_pairs csp i j = None ∧
  match dget (domains csp) i, dget (domains csp) j with
  | Some di, Some dj => Some (get_all_possible_pairs di dj)
  | _, _ => None
  end = None.
Proof. unfold seed_pairs. by destruct (legal_pairs csp i j). Qed.

Lemma group_fold_effect groups csp csp' :
  foldl all_different_group_step (Ret csp) groups = Ret csp' →
  variables csp' = variables csp ∧
  domains csp' = domains csp ∧
  keys (constraints csp') = keys (constraints csp) ∧
  ∀ i j,
    legal_pairs csp' i j =
    if decide (Exists (λ g, i ∈ g ∧ j ∈ g ∧ i ≠ j) groups)
    then filter (λ p, different p.1 p.2 = true) <$> seed_pairs csp i j
    else legal_pairs csp i j.
Proof.
  revert csp. induction groups as [|g groups IH]; intros csp.
  { intros [= <-]. split_and!; [done..|]. intros i j.
    rewrite decide_False; [done|]. by intros ?%Exists_nil. }
  simpl. destruct (add_all_different_constraint csp g) as [csp1| |] eqn:Hadd;
    [|intros Hrun; by eapply group_fold_not_Ret in Hrun..].
  pose proof (add_all_different_constraint_changes _ _ _ Hadd)
    as (Hv & Hd & Hk & Hl).
  intros (Hv' & Hd' & Hk' & Hl')%IH.
  split_and!; [congruence..|].
  intros i j. rewrite Hl'.
  assert (seed_pairs csp1 i j =
          if decide (i ∈ g ∧ j ∈ g ∧ i ≠ j)
          then filter (λ p, different p.1 p.2 = true) <$> seed_pairs csp i j
          else seed_pairs csp i j) as Hseed1.
  { unfold seed_pairs at 1. rewrite Hl, Hd. case_decide; [|done].
    destruct (seed_pairs csp i j) as [seed|] eqn:Hseed; [done|].
    simpl. by apply seed_pairs_None in Hseed as [_ ->]. }
  rewrite Hseed1, Hl.
  destruct (decide (i ∈ g ∧ j ∈ g ∧ i ≠ j)) as [Hin|Hout].
  - rewrite (decide_True (P := Exists _ (g :: groups)))
      by (by apply Exists_cons_hd).
    destruct (seed_pairs csp i j) as [seed|]; simpl.
    + case_decide; [|done]. by rewrite filter_different_idemp.
    + by case_decide.
  - apply decide_ext. rewrite Exists_cons. tauto.
Qed.

Lemma group_fold_built groups csp csp' :
  built csp → foldl all_different_group_step (Ret csp) groups = Ret csp' →
  built csp'.
Proof.
  revert csp. induction groups as [|g groups IH]; intros csp Hbuilt.
  { by intros [= <-]. }
  simpl. destruct (add_all_different_constraint csp g) as [csp1| |] eqn:Hadd;
    [|intros Hrun; by eapply group_fold_not_Ret in Hrun..].
  apply IH. by eapply all_different_fold_built.
Qed.

Lemma group_fold_mirrored groups csp csp' :
  mirrored csp → foldl all_different_group_step (Ret csp) groups = Ret csp' →
  mirrored csp'.
Proof.
  revert csp. induction groups as [|g groups IH]; intros csp Hmirror.
  { by intros [= <-]. }
  simpl. destruct (add_all_different_constraint csp g) as [csp1| |] eqn:Hadd;
    [|intros Hrun; by eapply group_fold_not_Ret in Hrun..].
  apply IH. by eapply add_all_different_constraint_keeps_mirrored.
Qed.

Lemma group_fold_succeeds groups csp :
  Forall (Forall (λ k, k ∈ keys (constraints csp) ∧ k ∈ keys (domains csp)))
         groups →
  ∃ csp', foldl all_different_group_step (Ret csp) groups = Ret csp'.
Proof.
  revert csp. induction groups as [|g groups IH]; intros csp Hall.
  { by eexists. }
  apply Forall_cons in Hall as [Hg Hall]. simpl.
  destruct (all_different_fold_succeeds (get_all_possible_pairs g g) csp)
    as [csp1 Hadd].
  { apply Forall_forall. intros [i j] [Hi Hj]%elem_of_all_pairs.
    rewrite Forall_forall in Hg. split; by apply Hg. }
  unfold add_all_different_constraint at 1. rewrite Hadd. apply IH.
  apply all_different_fold_effect in Hadd as (_ & -> & -> & _). done.
Qed.


(** *** The two stages together *)

Lemma sudoku_cells_NoDup : NoDup sudoku_cells.
Proof. apply (bool_decide_unpack _). by vm_compute. Qed.

Lemma sudoku_groups_cells :
  Forall (Forall (λ k, k ∈ sudoku_cells)) sudoku_groups.
Proof. apply (bool_decide_unpack _). by vm_compute. Qed.

Lemma create_sudoku_csp_spec board :
  well_shaped board →
  ∃ csp,
    create_sudoku_csp board = Ret csp ∧
    built csp ∧ mirrored csp ∧
    variables csp = sudoku_cells ∧
    keys (domains csp) = sudoku_cells ∧
    (∀ row col, row < 9 → col < 9 →
       ∃ ch, board_cell board row col = Ret ch ∧
             dget (domains csp) (cell_name row col) =
               Some (if decide (ch = "0"%string) then digits else [ch])) ∧
    (∀ i j,
       legal_pairs csp i j =
       if decide (Exists (λ g, i ∈ g ∧ j ∈ g ∧ i ≠ j) sudoku_groups)
       then filter (λ p, different p.1 p.2 = true) <$>
              match dget (domains csp) i, dget (domains csp) j with
              | Some di, Some dj => Some (get_all_possible_pairs di dj)
              | _, _ => None
              end
       else None).
Proof.
  intros Hshape%well_shaped_readable.
  destruct (sudoku_variable_fold board _ empty_csp Hshape)
    as (csp0 & Hrun0 & Hvars0 & Hbuilt0 & Hnone0 & _ & Hkeys0 & Hdom0).
  specialize (Hbuilt0 built_empty).
  specialize (Hnone0 (λ _ _, eq_refl)).
  specialize (Hkeys0 sudoku_cells_NoDup).
  specialize (Hdom0 sudoku_cells_NoDup).
  change (keys (domains csp0) = sudoku_cells) in Hkeys0.
  assert (∃ csp, foldl all_different_group_step (Ret csp0) sudoku_groups
                 = Ret csp) as [csp Hrun].
  { apply group_fold_succeeds.
    rewrite (wf_table _ (built_well_formed _ Hbuilt0)), Hkeys0.
    eapply Forall_impl; [apply sudoku_groups_cells|].
    intros g Hg. eapply Forall_impl; [exact Hg|]. by intros k Hk. }
  exists csp.
  pose proof (group_fold_effect _ _ _ Hrun) as (Hv & Hd & _ & Hl).
  split_and!.
  - unfold create_sudoku_csp, sudoku_variables. by rewrite Hrun0.
  - by eapply group_fold_built.
  - eapply group_fold_mirrored; [|exact Hrun].
    intros i j ps. by rewrite Hnone0.
  - by rewrite Hv, Hvars0.
  - by rewrite Hd.
  - intros row col Hrow Hcol. rewrite Hd.
    apply (Hdom0 (row, col)). by apply elem_of_cell_positions.
  - intros i j. rewrite Hl, Hd. unfold seed_pairs. by rewrite !Hnone0.
Qed.

Lemma create_sudoku_csp_not_shaped board :
  ¬ well_shaped board → create_sudoku_csp board = Raise IndexError.
Proof.
  intros Hno. unfold create_sudoku_csp, sudoku_variables.
  destruct (cells_readable_or_not board (list_prod (seq 0 9) (seq 0 9)))
    as [Hall|Hex].
  - by apply well_shaped_readable in Hall.
  - rewrite (sudoku_variable_fold_raises _ _ _ Hex). apply group_fold_Raise.
Qed.

Lemma create_sudoku_csp_Ret board csp :
  create_sudoku_csp board = Ret csp → well_shaped board.
Proof.
  intros Hrun.
  destruct (cells_readable_or_not board (list_prod (seq 0 9) (seq 0 9)))
    as [Hall|Hex].
  - by apply well_shaped_readable.
  - unfold create_sudoku_csp, sudoku_variables in Hrun.
    rewrite (sudoku_variable_fold_raises _ _ _ Hex), group_fold_Raise in Hrun.
    done.
Qed.

Lemma share_group_Exists i j :
  share_group i j ↔ Exists (λ g, i ∈ g ∧ j ∈ g ∧ i ≠ j) sudoku_groups.
Proof.
  unfold share_group. rewrite Exists_exists. split.
  - intros (Hij & g & Hg & Hi & Hj). by exists g.
  - intros (g & Hg & Hi & Hj & Hij). split; [done|]. by exists g.
Qed.

(** A board with nine lines of nine characters makes [create_sudoku_csp]
    return a model; the model is one that the construction calls build,
    and its constraints are mirrored. *)
Theorem create_sudoku_csp_succeeds board :
  well_shaped board →
  ∃ csp, create_sudoku_csp board = Ret csp ∧ built csp ∧ mirrored csp.
Proof.
  intros (csp & Hrun & Hbuilt & Hmirror & _)%create_sudoku_csp_spec.
  by exists csp.
Qed.

(** On any other board, one with fewer than nine lines or with fewer than
    nine characters in one of the first nine lines, [create_sudoku_csp]
    raises [IndexError]. *)
Theorem create_sudoku_csp_raises board :
  ¬ well_shaped board → create_sudoku_csp board = Raise IndexError.
Proof. apply create_sudoku_csp_not_shaped. Qed.

(** The model that [create_sudoku_csp] returns has the 81 cells as its
    variables, row by row, in [variables] and in [domains]. A cell that
    holds the character 0 has the nine digits as its domain, any other
    cell has the character of the board as its only value. *)
Theorem create_sudoku_csp_cells board csp :
  create_sudoku_csp board = Ret csp →
  variables csp = sudoku_cells ∧
  keys (domains csp) = sudoku_cells ∧
  ∀ row col, row < 9 → col < 9 →
    ∃ ch, board_cell board row col = Ret ch ∧
          dget (domains csp) (cell_name row col) =
            Some (if decide (ch = "0"%string) then digits else [ch]).
Proof.
  intros Hrun.
  destruct (create_sudoku_csp_spec board (create_sudoku_csp_Ret _ _ Hrun))
    as (csp' & Hrun' & _ & _ & Hvars & Hkeys & Hdom & _).
  rewrite Hrun in Hrun'. injection Hrun' as <-. done.
Qed.

(** In the model that [create_sudoku_csp] returns, two different cells of
    one row, column or box have as legal pairs the pairs of values from
    their two domains that differ, and no other two names have legal
    pairs. *)
Theorem create_sudoku_csp_constraints board csp i j :
  create_sudoku_csp board = Ret csp →
  (share_group i j →
   ∃ di dj,
     dget (domains csp) i = Some di ∧ dget (domains csp) j = Some dj ∧
     legal_pairs csp i j =
       Some (filter (λ p, different p.1 p.2 = true)
                    (get_all_possible_pairs di dj))) ∧
  (¬ share_group i j → legal_pairs csp i j = None).
Proof.
  intros Hrun.
  destruct (create_sudoku_csp_spec board (create_sudoku_csp_Ret _ _ Hrun))
    as (csp' & Hrun' & _ & _ & _ & Hkeys & _ & Hlegal).
  rewrite Hrun in Hrun'. injection Hrun' as <-.
  rewrite Hlegal. split.
  - intros Hshare. rewrite decide_True by (by apply share_group_Exists).
    destruct Hshare as (_ & g & Hg & Hi & Hj).
    pose proof sudoku_groups_cells as Hcells.
    rewrite Forall_forall in Hcells. specialize (Hcells g Hg).
    rewrite Forall_forall in Hcells.
    pose proof (Hcells i Hi) as Hi'. pose proof (Hcells j Hj) as Hj'.
    rewrite <-Hkeys in Hi', Hj'.
    apply dget_is_Some_keys in Hi' as [di Hdi].
    apply dget_is_Some_keys in Hj' as [dj Hdj].
    exists di, dj. by rewrite Hdi, Hdj.
  - intros Hno. rewrite decide_False; [done|]. by rewrite <-share_group_Exists.
Qed.

Lemma head_omap_unique {A B} (name : A → string) (val : A → B) l p :
  NoDup (name <$> l) → p ∈ l →
  head (omap (λ c, if decide (name c = name p) then Some (val c) else None) l)
  = Some (val p).
Proof.
  induction l as [|c l IH]; intros Hnd Hin; [by apply elem_of_nil in Hin|].
  rewrite fmap_cons in Hnd. apply NoDup_cons in Hnd as [Hnotin Hnd].
  simpl. destruct (decide (name c = name p)) as [Heq|Hne].
  - simpl. apply elem_of_cons in Hin as [->|Hin]; [done|].
    destruct Hnotin. rewrite Heq. apply list_elem_of_fmap. by exists p.
  - apply elem_of_cons in Hin as [->|Hin]; [done|]. by apply IH.
Qed.

Lemma board_assignment_cell solved (cell : nat * nat) :
  cell ∈ list_prod (seq 0 9) (seq 0 9) →
  board_assignment solved (cell_name cell.1 cell.2) = cell_value solved cell.
Proof.
  intros Hin. unfold board_assignment.
  by rewrite (head_omap_unique (λ c : nat * nat, cell_name c.1 c.2)
                (cell_value solved) _ cell sudoku_cells_NoDup Hin).
Qed.

Lemma NoDup_fmap_ne {A B} (f : A → B) l x y :
  NoDup (f <$> l) → x ∈ l → y ∈ l → x ≠ y → f x ≠ f y.
Proof.
  induction l as [|z l IH]; intros Hnd Hx Hy Hxy; [by apply elem_of_nil in Hx|].
  rewrite fmap_cons in Hnd. apply NoDup_cons in Hnd as [Hnotin Hnd].
  apply elem_of_cons in Hx as [->|Hx]; apply elem_of_cons in Hy as [->|Hy].
  - done.
  - intros Heq. apply Hnotin. rewrite Heq. apply list_elem_of_fmap. by exists y.
  - intros Heq. apply Hnotin. rewrite <-Heq. apply list_elem_of_fmap.
    by exists x.
  - by apply IH.
Qed.

Lemma sudoku_groups_positions :
  sudoku_groups =
  (λ group : list (nat * nat),
     (λ cell : nat * nat, cell_name cell.1 cell.2) <$> group) <$>
    sudoku_group_positions.
Proof. reflexivity. Qed.

Lemma sudoku_group_positions_cells :
  Forall (Forall (λ cell, cell ∈ list_prod (seq 0 9) (seq 0 9)))
         sudoku_group_positions.
Proof. apply (bool_decide_unpack _). by vm_compute. Qed.

Lemma fills_in_satisfying board solved csp :
  create_sudoku_csp board = Ret csp → fills_in board solved →
  satisfying csp (board_assignment solved).
Proof.
  intros Hrun [Hcells Hgroups].
  destruct (create_sudoku_csp_spec board (create_sudoku_csp_Ret _ _ Hrun))
    as (csp' & Hrun' & _ & _ & _ & Hkeys & Hdom & Hlegal).
  rewrite Hrun in Hrun'. injection Hrun' as <-.
  rewrite Forall_forall in Hcells. rewrite Forall_forall in Hgroups.
  assert (∀ k d, dget (domains csp) k = Some d → board_assignment solved k ∈ d)
    as Hvalues.
  { intros k d Hd.
    assert (k ∈ sudoku_cells) as Hk
      by (rewrite <-Hkeys; apply dget_is_Some_keys; by eexists).
    apply list_elem_of_fmap in Hk as ([row col] & -> & Hpos).
    rewrite (board_assignment_cell solved (row, col) Hpos).
    pose proof Hpos as [Hrow Hcol]%elem_of_cell_positions.
    destruct (Hdom row col Hrow Hcol) as (ch & Hch & Hcell).
    simpl in Hd. rewrite Hcell in Hd. injection Hd as <-.
    specialize (Hcells (row, col) Hpos).
    assert (cell_value board (row, col) = ch) as Hboard
      by (unfold cell_value; simpl; by rewrite Hch).
    rewrite Hboard in Hcells.
    destruct (decide (ch = "0"%string)); [done|].
    rewrite Hcells. apply list_elem_of_here. }
  split; [exact Hvalues|].
  intros i j cs ps Hcs Hps.
  assert (legal_pairs csp i j = Some ps) as Hps'
    by (apply legal_pairs_Some; eauto).
  rewrite Hlegal in Hps'.
  destruct (decide (Exists (λ g, i ∈ g ∧ j ∈ g ∧ i ≠ j) sudoku_groups))
    as [Hex|]; [|done].
  destruct (dget (domains csp) i) as [di|] eqn:Hdi; [|done].
  destruct (dget (domains csp) j) as [dj|] eqn:Hdj; [|done].
  simpl in Hps'. injection Hps' as <-.
  apply list_elem_of_filter. split.
  - simpl. unfold different. apply negb_true_iff, bool_decide_eq_false.
    apply Exists_exists in Hex as (g & Hg & Hi & Hj & Hij).
    rewrite sudoku_groups_positions in Hg.
    apply list_elem_of_fmap in Hg as (pg & -> & Hpg).
    apply list_elem_of_fmap in Hi as (p & -> & Hp).
    apply list_elem_of_fmap in Hj as (q & -> & Hq).
    pose proof sudoku_group_positions_cells as Hpos.
    rewrite Forall_forall in Hpos. specialize (Hpos pg Hpg).
    rewrite Forall_forall in Hpos.
    rewrite (board_assignment_cell solved p (Hpos p Hp)).
    rewrite (board_assignment_cell solved q (Hpos q Hq)).
    apply (NoDup_fmap_ne _ pg); [by apply Hgroups | done | done |].
    by intros ->.
  - unfold get_all_possible_pairs. apply list_elem_of_In, in_prod_iff.
    rewrite <-!list_elem_of_In. split; by apply Hvalues.
Qed.

(** A grid that keeps the given cells of a board, has digits from 1 to 9
    in the other cells, and has nine different values in every row, column
    and box, is a satisfying assignment of the model that
    [create_sudoku_csp] returns for the board. *)
Theorem solved_grid_satisfying board solved csp :
  create_sudoku_csp board = Ret csp → fills_in board solved →
  satisfying csp (board_assignment solved).
Proof. apply fills_in_satisfying. Qed.

(** Sudoku, end to end: when the model built from a board has a satisfying
    assignment, [backtracking_search] returns a grid that keeps every
    given cell, fills every empty cell with a digit from 1 to 9, and gives
    different values to any two different cells of one row, column or
    box. *)
Theorem sudoku_solved board csp (s : string → string) vlt c :
  create_sudoku_csp board = Ret csp → satisfying csp s →
  ∃ d c',
    backtracking_search vlt csp c = (Ret (PDict d), c') ∧
    keys d = sudoku_cells ∧
    (∀ row col, row < 9 → col < 9 →
       ∃ ch x, board_cell board row col = Ret ch ∧
               value_of d (cell_name row col) = Some x ∧
               if decide (ch = "0"%string) then x ∈ digits else x = ch) ∧
    (∀ i j x y, share_group i j →
       value_of d i = Some x → value_of d j = Some y → x ≠ y).
Proof.
  intros Hrun Hsat.
  destruct (create_sudoku_csp_spec board (create_sudoku_csp_Ret _ _ Hrun))
    as (csp' & Hrun' & Hbuilt & Hmirror & _ & Hkeys & Hdom & Hlegal).
  rewrite Hrun in Hrun'. injection Hrun' as <-.
  destruct (search_solves_mirrored vlt csp s c Hbuilt Hmirror Hsat)
    as (d & c' & Hsolve & Hsingle & Hvars & Hcons).
  pose proof (search_result_narrows _ _ _ _ _ Hsolve) as [_ Hnar].
  exists d, c'. split_and!.
  - done.
  - by rewrite Hvars.
  - intros row col Hrow Hcol.
    destruct (Hdom row col Hrow Hcol) as (ch & Hch & Hcell).
    destruct (narrows_dget _ _ _ _ Hnar Hcell) as (l & Hl & Hsub).
    assert (length l = 1) as Hlen.
    { unfold single_valued in Hsingle. rewrite Forall_forall in Hsingle.
      apply Hsingle. apply dget_Some_elem in Hl. unfold values.
      apply list_elem_of_fmap. by exists (cell_name row col, l). }
    destruct l as [|x [|? ?]]; [done| |done].
    exists ch, x. split; [done|]. split; [unfold value_of; by rewrite Hl|].
    assert (x ∈ (if decide (ch = "0"%string) then digits else [ch])) as Hx.
    { eapply elem_of_sublist; [apply list_elem_of_here | done]. }
    destruct (decide (ch = "0"%string)); [done|].
    by apply list_elem_of_singleton in Hx.
  - intros i j x y Hshare Hx Hy.
    specialize (Hlegal i j).
    rewrite decide_True in Hlegal by (by apply share_group_Exists).
    destruct (dget (domains csp) i) as [di|] eqn:Hdi;
      [|unfold value_of in Hx;
        pose proof (narrows_keys _ _ Hnar) as Hk;
        apply eq_None_not_Some in Hdi; destruct Hdi;
        apply dget_is_Some_keys; rewrite <-Hk; apply dget_is_Some_keys;
        by destruct (dget d i)].
    destruct (dget (domains csp) j) as [dj|] eqn:Hdj;
      [|unfold value_of in Hy;
        pose proof (narrows_keys _ _ Hnar) as Hk;
        apply eq_None_not_Some in Hdj; destruct Hdj;
        apply dget_is_Some_keys; rewrite <-Hk; apply dget_is_Some_keys;
        by destruct (dget d j)].
    simpl in Hlegal.
    apply legal_pairs_Some in Hlegal as (cs & Hcs & Hps).
    pose proof (Hcons i j cs _ x y Hcs Hps Hx Hy) as Hin.
    apply list_elem_of_filter in Hin as [Hdiff _]. simpl in Hdiff.
    unfold different in Hdiff. apply negb_true_iff in Hdiff.
    by apply bool_decide_eq_false in Hdiff.
Qed.

End Sudoku.

(** *** The example board *)

Lemma example_board_well_shaped : well_shaped example_board.
Proof. apply well_shaped_readable. repeat constructor; by eexists. Qed.

Lemma example_board_model :
  create_sudoku_csp example_board = Ret example_sudoku.
Proof.
  destruct (create_sudoku_csp_spec example_board example_board_well_shaped)
    as (csp & Hrun & _).
  unfold example_sudoku. by rewrite Hrun.
Qed.

Lemma example_solved_fills_in : fills_in example_board example_solved.
Proof.
  split.
  - repeat constructor; vm_compute;
      first [reflexivity | apply (bool_decide_unpack _); by vm_compute].
  - repeat (apply Forall_cons; split; [apply (bool_decide_unpack _); by vm_compute|]).
    constructor.
Qed.

Lemma example_solved_satisfying :
  satisfying example_sudoku (board_assignment example_solved).
Proof.
  apply (fills_in_satisfying example_board example_solved example_sudoku).
  - apply example_board_model.
  - apply example_solved_fills_in.
Qed.

(** The theorem on well-shaped boards, applied to [example_board]. *)
Lemma create_sudoku_csp_succeeds_witness :
  well_shaped example_board ∧
  ∃ csp, create_sudoku_csp example_board = Ret csp ∧ built csp ∧ mirrored csp.
Proof.
  split; [apply example_board_well_shaped|].
  apply (create_sudoku_csp_succeeds example_board).
  apply example_board_well_shaped.
Defined.

(** The theorem on other boards, applied to the first eight lines of
    [example_board]. *)
Lemma create_sudoku_csp_raises_witness :
  ¬ well_shaped (take 8 example_board) ∧
  create_sudoku_csp (take 8 example_board) = Raise IndexError.
Proof.
  assert (¬ well_shaped (take 8 example_board)) as Hno.
  { intros [Hlen _]. simpl in Hlen. lia. }
  split; [exact Hno|].
  apply (create_sudoku_csp_raises (take 8 example_board)). exact Hno.
Defined.

(** The theorem on the cells of the model, applied to [example_board]. *)
Lemma create_sudoku_csp_cells_witness :
  create_sudoku_csp example_board = Ret example_sudoku ∧
  variables example_sudoku = sudoku_cells ∧
  keys (domains example_sudoku) = sudoku_cells ∧
  ∀ row col, row < 9 → col < 9 →
    ∃ ch, board_cell example_board row col = Ret ch ∧
          dget (domains example_sudoku) (cell_name row col) =
            Some (if decide (ch = "0"%string) then digits else [ch]).
Proof.
  split; [apply example_board_model|].
  apply (create_sudoku_csp_cells example_board example_sudoku).
  apply example_board_model.
Defined.

(** The theorem on the constraints of the model, applied to
    [example_board] and the first two cells of the first row. *)
Lemma create_sudoku_csp_constraints_witness :
  create_sudoku_csp example_board = Ret example_sudoku ∧
  (share_group (cell_name 0 0) (cell_name 0 1) →
   ∃ di dj,
     dget (domains example_sudoku) (cell_name 0 0) = Some di ∧
     dget (domains example_sudoku) (cell_name 0 1) = Some dj ∧
     legal_pairs example_sudoku (cell_name 0 0) (cell_name 0 1) =
       Some (filter (λ p, different p.1 p.2 = true)
                    (get_all_possible_pairs di dj))) ∧
  (¬ share_group (cell_name 0 0) (cell_name 0 1) →
   legal_pairs example_sudoku (cell_name 0 0) (cell_name 0 1) = None).
Proof.
  split; [apply example_board_model|].
  apply (create_sudoku_csp_constraints example_board example_sudoku
           (cell_name 0 0) (cell_name 0 1)).
  apply example_board_model.
Defined.

(** The end-to-end theorem, applied to [example_board], whose model
    [example_solved] satisfies. *)
Lemma sudoku_solved_witness :
  create_sudoku_csp example_board = Ret example_sudoku ∧
  satisfying example_sudoku (board_assignment example_solved) ∧
  ∃ d c',
    backtracking_search String.ltb example_sudoku (Counters 0 0) =
      (Ret (PDict d), c') ∧
    keys d = sudoku_cells ∧
    (∀ row col, row < 9 → col < 9 →
       ∃ ch x, board_cell example_board row col = Ret ch ∧
               value_of d (cell_name row col) = Some x ∧
               if decide (ch = "0"%string) then x ∈ digits else x = ch) ∧
    (∀ i j x y, share_group i j →
       value_of d i = Some x → value_of d j = Some y → x ≠ y).
Proof.
  split_and!; [apply example_board_model | apply example_solved_satisfying |].
  apply (sudoku_solved example_board example_sudoku
           (board_assignment example_solved) String.ltb (Counters 0 0)).
  - apply example_board_model.
  - apply example_solved_satisfying.
Defined.

(** The theorem on solved grids, applied to [example_board] and
    [example_solved]. *)
Lemma solved_grid_satisfying_witness :
  create_sudoku_csp example_board = Ret example_sudoku ∧
  fills_in example_board example_solved ∧
  satisfying example_sudoku (board_assignment example_solved).
Proof.
  split_and!; [apply example_board_model | apply example_solved_fills_in |].
  apply (solved_grid_satisfying example_board example_solved example_sudoku).
  - apply example_board_model.
  - apply example_solved_fills_in.
Defined.

(** ** Printing a grid *)

Section Printing.
Implicit Types (solution : dict (list string)) (out : string).

Lemma for_each_Ret {S A} (P : A → Prop) (body : A → M S unit) l :
  (∀ x s, (body x s).1 = Ret tt ↔ P x) →
  ∀ s, (for_each l body s).1 = Ret tt ↔ Forall P l.
Proof.
  intros Hbody. induction l as [|x l IH]; intros s.
  - split; [constructor | done].
  - rewrite Forall_cons. simpl. unfold bind.
    specialize (Hbody x s). destruct (body x s) as [[[]| |] s']; simpl in *.
    + rewrite IH. tauto.
    + split; [done | intros [HP _]]. by apply Hbody in HP.
    + split; [done | intros [HP _]]. by apply Hbody in HP.
Qed.

Lemma print_cell_Ret solution row col out :
  (print_cell solution row col out).1 = Ret tt ↔
  ∃ x l, dget solution (cell_name row col) = Some (x :: l).
Proof.
  unfold print_cell, bind, lift, subscript.
  destruct (dget solution (cell_name row col)) as [[|x l]|]; simpl.
  - split; [done | by intros (? & ? & ?)].
  - split; [by eexists _, _ | intros _].
    unfold print, ret. by repeat case_decide.
  - split; [done | by intros (? & ? & ?)].
Qed.

Lemma print_row_Ret solution row out :
  (print_row solution row out).1 = Ret tt ↔
  Forall (λ col, ∃ x l, dget solution (cell_name row col) = Some (x :: l))
         (seq 0 9).
Proof.
  rewrite <-(for_each_Ret _ (print_cell solution row) (seq 0 9)
               (print_cell_Ret solution row) out).
  unfold print_row, bind.
  destruct (for_each (seq 0 9) (print_cell solution row) out)
    as [[[]| |] out']; [|done..].
  unfold print, ret. simpl. by case_decide.
Qed.

Lemma printable_Forall solution :
  printable solution ↔
  Forall (λ row,
            Forall (λ col, ∃ x l,
                      dget solution (cell_name row col) = Some (x :: l))
                   (seq 0 9))
         (seq 0 9).
Proof.
  unfold printable. rewrite Forall_forall. split.
  - intros Hall row Hrow%elem_of_seq. apply Forall_forall.
    intros col Hcol%elem_of_seq. apply Hall; lia.
  - intros Hall row col Hrow Hcol.
    specialize (Hall row). rewrite elem_of_seq, Forall_forall in Hall.
    apply Hall; [lia|]. apply elem_of_seq. lia.
Qed.

Lemma print_sudoku_solution_Ret solution out :
  (print_sudoku_solution solution out).1 = Ret tt ↔ printable solution.
Proof.
  rewrite printable_Forall. unfold print_sudoku_solution.
  apply for_each_Ret. intros row s. apply print_row_Ret.
Qed.

Lemma cell_name_sudoku_cells row col :
  row < 9 → col < 9 → cell_name row col ∈ sudoku_cells.
Proof.
  intros Hrow Hcol. unfold sudoku_cells. apply list_elem_of_fmap.
  exists (row, col). split; [done|]. by apply elem_of_cell_positions.
Qed.

Lemma single_valued_printable (d : dict (list string)) :
  keys d = sudoku_cells → single_valued d → printable d.
Proof.
  intros Hkeys Hsingle row col Hrow Hcol.
  pose proof (cell_name_sudoku_cells row col Hrow Hcol) as Hin.
  rewrite <-Hkeys in Hin. apply dget_is_Some_keys in Hin as [l Hl].
  assert (length l = 1) as Hlen.
  { unfold single_valued in Hsingle. rewrite Forall_forall in Hsingle.
    apply Hsingle. apply dget_Some_elem in Hl. unfold values.
    apply list_elem_of_fmap. by exists (cell_name row col, l). }
  destruct l as [|x l]; [done|]. by exists x, l.
Qed.

Lemma for_each_fuel {S A} (body : A → M S unit) l :
  (∀ x s, (body x s).1 ≠ OutOfFuel) →
  ∀ s, (for_each l body s).1 ≠ OutOfFuel.
Proof.
  intros Hbody. induction l as [|x l IH]; intros s; [done|].
  simpl. unfold bind. specialize (Hbody x s).
  destruct (body x s) as [[[]| |] s']; [apply IH | done | done].
Qed.

Lemma print_cell_fuel solution row col out :
  (print_cell solution row col out).1 ≠ OutOfFuel.
Proof.
  unfold print_cell, bind, lift, subscript.
  destruct (dget solution (cell_name row col)) as [[|x l]|]; simpl; [done| |done].
  unfold print, ret. by repeat case_decide.
Qed.

Lemma print_row_fuel solution row out :
  (print_row solution row out).1 ≠ OutOfFuel.
Proof.
  pose proof (for_each_fuel (print_cell solution row) (seq 0 9)
                (print_cell_fuel solution row) out) as Hcells.
  unfold print_row, bind.
  destruct (for_each (seq 0 9) (print_cell solution row) out)
    as [[[]| |] out']; [|done..].
  unfold print, ret. simpl. by case_decide.
Qed.

Lemma for_each_state {S A} (body : A → M S unit) l :
  (∀ x s s', (body x s).1 = (body x s').1) →
  ∀ s s', (for_each l body s).1 = (for_each l body s').1.
Proof.
  intros Hbody. induction l as [|x l IH]; intros s s'; [done|].
  simpl. unfold bind. specialize (Hbody x s s').
  destruct (body x s) as [[[]| |] s1], (body x s') as [[[]| |] s1'];
    simpl in *; done.
Qed.

(** The loop stops at the first element whose body does not return, with
    the outcome of that body. *)
Lemma for_each_first {S A} (body : A → M S unit) l s0 :
  (∀ x s s', (body x s).1 = (body x s').1) →
  ∀ s, match (for_each l body s).1 with
       | Ret _ => Forall (λ x, (body x s0).1 = Ret tt) l
       | r =>
           ∃ pre x post,
             l = pre ++ x :: post ∧
             Forall (λ y, (body y s0).1 = Ret tt) pre ∧ (body x s0).1 = r
       end.
Proof.
  intros Hbody. induction l as [|x l IH]; intros s; [by constructor|].
  simpl. unfold bind. pose proof (Hbody x s s0) as Hx.
  destruct (body x s) as [[[]|e|] s1]; simpl in *.
  - specialize (IH s1).
    destruct (for_each l body s1).1 as [[]|e|].
    + by constructor.
    + destruct IH as (pre & y & post & -> & Hpre & Hy).
      exists (x :: pre), y, post. split; [done|]. split; [by constructor|done].
    + destruct IH as (pre & y & post & -> & Hpre & Hy).
      exists (x :: pre), y, post. split; [done|]. split; [by constructor|done].
  - exists [], x, l. split; [done|]. split; [constructor | done].
  - exists [], x, l. split; [done|]. split; [constructor | done].
Qed.

Lemma seq_split_before n pre (x : nat) post :
  seq 0 n = pre ++ x :: post → x < n ∧ ∀ y, y < x → y ∈ pre.
Proof.
  intros Hsplit.
  assert (seq 0 n !! length pre = Some x) as Hx
    by (rewrite Hsplit; by apply list_lookup_middle).
  apply lookup_seq in Hx as [-> Hlt]. split; [done|].
  intros y Hy. simpl in Hy.
  assert (seq 0 n !! y = Some y) as Hlook
    by (apply lookup_seq; split; [done | lia]).
  rewrite Hsplit, lookup_app_l in Hlook by done.
  by eapply list_elem_of_lookup_2.
Qed.

Lemma print_cell_outcome solution row col out :
  (print_cell solution row col out).1 =
  match dget solution (cell_name row col) with
  | None => Raise (KeyError (cell_name row col))
  | Some [] => Raise IndexError
  | Some (_ :: _) => Ret tt
  end.
Proof.
  unfold print_cell, bind, lift, subscript.
  destruct (dget solution (cell_name row col)) as [[|x l]|]; simpl;
    [done| |done].
  unfold print, ret. by repeat case_decide.
Qed.

Lemma print_row_outcome solution row out :
  (print_row solution row out).1 =
  (for_each (seq 0 9) (print_cell solution row) out).1.
Proof.
  unfold print_row, bind.
  destruct (for_each (seq 0 9) (print_cell solution row) out)
    as [[[]| |] out']; [|done..].
  unfold print, ret. simpl. by case_decide.
Qed.

Lemma print_row_state solution row out out' :
  (print_row solution row out).1 = (print_row solution row out').1.
Proof.
  rewrite !print_row_outcome. apply for_each_state.
  intros col s s'. by rewrite !print_cell_outcome.
Qed.

(** [print_sudoku_solution] returns exactly on the dictionaries in which
    each of the 81 cells has a domain with at least one value. On any
    other dictionary it raises at the first cell, row by row, that has no
    such domain: [KeyError] with the name of the cell when the cell is
    missing, [IndexError] when its domain is empty. *)
Theorem print_sudoku_solution_succeeds solution out :
  ((print_sudoku_solution solution out).1 = Ret tt ↔ printable solution) ∧
  match (print_sudoku_solution solution out).1 with
  | Ret _ => printable solution
  | Raise e =>
      ∃ row col,
        row < 9 ∧ col < 9 ∧
        (∀ row' col',
           row' < 9 → col' < 9 → row' < row ∨ row' = row ∧ col' < col →
           ∃ x l, dget solution (cell_name row' col') = Some (x :: l)) ∧
        (dget solution (cell_name row col) = None ∧
         e = KeyError (cell_name row col) ∨
         dget solution (cell_name row col) = Some [] ∧ e = IndexError)
  | OutOfFuel => False
  end.
Proof.
  split; [apply print_sudoku_solution_Ret|].
  pose proof (print_sudoku_solution_Ret solution out) as Hret.
  pose proof (for_each_first (print_row solution) (seq 0 9) out
                (print_row_state solution) out) as Hrows.
  unfold print_sudoku_solution in *.
  destruct (for_each (seq 0 9) (print_row solution) out).1 as [[]|e|].
  - by apply Hret.
  - destruct Hrows as (pre & row & post & Hsplit & Hpre & Hrow).
    apply seq_split_before in Hsplit as [Hrow9 Hbefore].
    rewrite print_row_outcome in Hrow.
    pose proof (for_each_first (print_cell solution row) (seq 0 9) out
                  (λ col s s', eq_trans (print_cell_outcome solution row col s)
                     (eq_sym (print_cell_outcome solution row col s'))) out)
      as Hcols.
    rewrite Hrow in Hcols.
    destruct Hcols as (pre' & col & post' & Hsplit' & Hpre' & Hcol).
    apply seq_split_before in Hsplit' as [Hcol9 Hbefore'].
    exists row, col. split_and!; [done | done | |].
    + intros row' col' Hrow' Hcol' [Hlt|[-> Hlt]].
      * rewrite Forall_forall in Hpre.
        specialize (Hpre row' (Hbefore row' Hlt)).
        apply print_row_Ret in Hpre. rewrite Forall_forall in Hpre.
        apply Hpre, elem_of_seq. lia.
      * rewrite Forall_forall in Hpre'.
        specialize (Hpre' col' (Hbefore' col' Hlt)).
        by apply print_cell_Ret in Hpre'.
    + rewrite print_cell_outcome in Hcol.
      destruct (dget solution (cell_name row col)) as [[|x l]|];
        [right | done | left]; split; congruence.
  - destruct Hrows as (pre & row & post & _ & _ & Hrow).
    by apply print_row_fuel in Hrow.
Qed.

(** The first print of the module: the domains of a model that
    [create_sudoku_csp] returned are printed without an exception. *)
Theorem print_initial_grid board csp out :
  create_sudoku_csp board = Ret csp →
  (print_sudoku_solution (domains csp) out).1 = Ret tt.
Proof.
  intros Hrun. apply print_sudoku_solution_Ret.
  destruct (create_sudoku_csp_spec board (create_sudoku_csp_Ret _ _ Hrun))
    as (csp' & Hrun' & _ & _ & _ & _ & Hdom & _).
  rewrite Hrun in Hrun'. injection Hrun' as <-.
  intros row col Hrow Hcol.
  destruct (Hdom row col Hrow Hcol) as (ch & _ & ->).
  destruct (decide (ch = "0"%string)); by eexists _, _.
Qed.

(** The second print of the module: whenever [backtracking_search]
    returns a dictionary for a model that [create_sudoku_csp] returned,
    that dictionary is printed without an exception, and no cell is
    printed blank: each cell has exactly one value. *)
Theorem print_search_result board csp vlt c out :
  create_sudoku_csp board = Ret csp →
  match (backtracking_search vlt csp c).1 with
  | Ret (PDict d) =>
      (print_sudoku_solution d out).1 = Ret tt ∧
      ∀ row col, row < 9 → col < 9 →
        ∃ x, dget d (cell_name row col) = Some [x]
  | _ => True
  end.
Proof.
  intros Hrun.
  destruct (create_sudoku_csp_spec board (create_sudoku_csp_Ret _ _ Hrun))
    as (csp' & Hrun' & _ & _ & _ & Hkeys & _).
  rewrite Hrun in Hrun'. injection Hrun' as <-.
  destruct (backtracking_search vlt csp c) as [[[|d]| |] c'] eqn:Hsolve;
    [done| |done..].
  apply search_result_narrows in Hsolve as [Hsingle Hnar].
  assert (keys d = sudoku_cells) as Hkeys'
    by (by rewrite (narrows_keys _ _ Hnar)).
  simpl. split.
  - apply print_sudoku_solution_Ret. by apply single_valued_printable.
  - intros row col Hrow Hcol.
    pose proof (cell_name_sudoku_cells row col Hrow Hcol) as Hin.
    rewrite <-Hkeys' in Hin. apply dget_is_Some_keys in Hin as [l Hl].
    assert (length l = 1) as Hlen.
    { unfold single_valued in Hsingle. rewrite Forall_forall in Hsingle.
      apply Hsingle. apply dget_Some_elem in Hl. unfold values.
      apply list_elem_of_fmap. by exists (cell_name row col, l). }
    destruct l as [|x [|? ?]]; [done| |done]. by exists x.
Qed.

End Printing.

(** The theorem on the first print, applied to [example_board]. *)
Lemma print_initial_grid_witness :
  create_sudoku_csp example_board = Ret example_sudoku ∧
  (print_sudoku_solution (domains example_sudoku) EmptyString).1 = Ret tt.
Proof.
  split; [apply example_board_model|].
  apply (print_initial_grid example_board example_sudoku EmptyString).
  apply example_board_model.
Defined.

(** The theorem on the second print, applied to [example_board]. *)
Lemma print_search_result_witness :
  create_sudoku_csp example_board = Ret example_sudoku ∧
  match (backtracking_search String.ltb example_sudoku (Counters 0 0)).1 with
  | Ret (PDict d) =>
      (print_sudoku_solution d EmptyString).1 = Ret tt ∧
      ∀ row col, row < 9 → col < 9 →
        ∃ x, dget d (cell_name row col) = Some [x]
  | _ => True
  end.
Proof.
  split; [apply example_board_model|].
  apply (print_search_result example_board example_sudoku String.ltb
           (Counters 0 0) EmptyString).
  apply example_board_model.
Defined.
